(** * The job queue of the Evaluation Planner server (server.js)

    A shallow embedding of the asynchronous job queue of [server.js]:
    the [jobs] table of [db/schema.sql], the [POST /api/jobs] handler,
    the background worker [processNextJob], the retention sweep
    [cleanupOldJobs] and the step-based proxy handler that shares the
    worker's retry policy; then the rest of the server (settings, prompt
    files, the configuration and job status routes, the timers of
    [startServer]) and the page that submits a job and polls for it.

    Conventions.
    - Text is a [string]; one character stands for one UTF-16 code unit,
      so [String.length] is JavaScript's [.length].
    - Timestamps are integers, in milliseconds.
    - A handler is a function from the table (and what the upstream
      answers) to the table and the trace of what the handler did. In
      these functions a query returns, or throws because the database
      refuses the text of one of its parameters; the step relation of
      [Queue] also lets a claim transaction fail and roll back at any
      statement.
    - What the driver and the JavaScript runtime compute and the server
      does not define ([JSON.parse], [parseFloat], the text node-postgres
      sends for a parameter that is not a string, the texts the database
      refuses for a JSONB or a TEXT column) is gathered in a [host]
      record. *)

From Stdlib Require Import ZArith QArith String Ascii List Lia DecimalString.
From stdpp Require Import gmap strings list.
From Equations Require Import Equations.
Import ListNotations.

Set Warnings "-register-all".
Local Open Scope Z_scope.

(** ** JavaScript values *)

Module JS.

(** The values that reach the server as JSON, plus [undefined], which
    property access produces. *)
Inductive value :=
| Undefined
| Null
| Bool (b : bool)
| Num (q : Q)
| Str (s : string)
| Arr (l : list value)
| Obj (m : list (string * value)).

(** ToBoolean: what [!v], [v || d] and [v ? a : b] test. *)
Definition truthy (v : value) : bool :=
  match v with
  | Undefined | Null => false
  | Bool b => b
  | Num q => negb (Qeq_bool q 0)
  | Str s => negb (String.eqb s "")
  | Arr _ | Obj _ => true
  end.

(** [a || b] *)
Definition or_else (a b : value) : value := if truthy a then a else b.

(** [typeof v === 'object'] *)
Definition typeof_object (v : value) : bool :=
  match v with
  | Null | Arr _ | Obj _ => true
  | _ => false
  end.

(** A thrown exception: the two fields the server reads. *)
Record error := { name : string; message : string }.

Definition Error (msg : string) : error := {| name := "Error"; message := msg |}.
Definition TypeError (msg : string) : error := {| name := "TypeError"; message := msg |}.

(** Decimal text of a number, as a template literal prints it. *)
Definition nat_text (n : nat) : string := NilZero.string_of_uint (Nat.to_uint n).
Definition int_text (z : Z) : string := NilZero.string_of_int (Z.to_int z).

(** A property key: [v.k] or [v[n]]. *)
Inductive key := KName (s : string) | KIndex (n : nat).

Definition key_text (k : key) : string :=
  match k with
  | KName s => s
  | KIndex n => nat_text n
  end.

Fixpoint own (m : list (string * value)) (k : string) : value :=
  match m with
  | [] => Undefined
  | (k', v) :: m' => if String.eqb k' k then v else own m' k
  end.

Definition cannot_read (what : string) (k : key) : error :=
  TypeError ("Cannot read properties of " +:+ what +:+ " (reading '" +:+ key_text k +:+ "')").

(** [v.k]: throws on [undefined] and [null], reads own properties of
    objects, elements and [length] of arrays and strings, and is
    [undefined] elsewhere. *)
Definition get (v : value) (k : key) : error + value :=
  match v with
  | Undefined => inl (cannot_read "undefined" k)
  | Null => inl (cannot_read "null" k)
  | Obj m => inr (own m (key_text k))
  | Arr l =>
      match k with
      | KIndex n => inr (nth n l Undefined)
      | KName s => inr (if String.eqb s "length" then Num (inject_Z (Z.of_nat (length l))) else Undefined)
      end
  | Str s =>
      match k with
      | KIndex n =>
          inr (match String.get n s with
               | Some c => Str (String c EmptyString)
               | None => Undefined
               end)
      | KName p => inr (if String.eqb p "length" then Num (inject_Z (Z.of_nat (String.length s))) else Undefined)
      end
  | Bool _ | Num _ => inr Undefined
  end.

(** [s.toUpperCase()], on the ASCII letters that job types and step
    names are made of. *)
Definition upper_ascii (c : ascii) : ascii :=
  let n := nat_of_ascii c in
  if ((97 <=? n)%nat && (n <=? 122)%nat)%bool then ascii_of_nat (n - 32) else c.

Fixpoint toUpperCase (s : string) : string :=
  match s with
  | EmptyString => EmptyString
  | String c s' => String (upper_ascii c) (toUpperCase s')
  end.

(** White space that [trim] strips. *)
Definition is_space (c : ascii) : bool :=
  let n := nat_of_ascii c in
  ((9 <=? n)%nat && (n <=? 13)%nat || (n =? 32)%nat || (n =? 160)%nat)%bool.

Fixpoint trimStart (s : string) : string :=
  match s with
  | EmptyString => EmptyString
  | String c s' => if is_space c then trimStart s' else s
  end.

Fixpoint trimEnd (s : string) : string :=
  match s with
  | EmptyString => EmptyString
  | String c s' =>
      match trimEnd s' with
      | EmptyString => if is_space c then EmptyString else String c EmptyString
      | t => String c t
      end
  end.

Definition trim (s : string) : string := trimEnd (trimStart s).

End JS.

(** ** What the runtime provides *)

Record host := {
  (** [parseFloat]; [None] is [NaN] *)
  parseFloat : string -> option Q;
  (** [JSON.parse]; [inl] is the [SyntaxError] it throws *)
  JSON_parse : string -> JS.error + JS.value;
  (** the text node-postgres sends for a parameter that is not a string *)
  pg_text : JS.value -> string;
  (** whether the database takes the JSON text of a value for a JSONB
      column; it refuses one that holds an escaped U+0000 *)
  jsonb_in : JS.value -> bool;
  (** what the query throws when the database refuses a text for a TEXT
      column (one that holds a NUL), [None] when it takes it *)
  text_in : string -> option JS.error
}.

(** [process.env] *)
Definition environment := string -> option string.

(** ** Settings *)

Module Settings.

Definition defaults (envKey : string) : option string :=
  if String.eqb envKey "PROMPT1_MODEL" then Some "openai/gpt-5.1"
  else if String.eqb envKey "PROMPT1_TEMPERATURE" then Some "0.7"
  else if String.eqb envKey "PROMPT2_MODEL" then Some "openai/gpt-5.1"
  else if String.eqb envKey "PROMPT2_TEMPERATURE" then Some "0.7"
  else if String.eqb envKey "REPORT_TEMPLATE_MODEL" then Some "openai/gpt-5.1"
  else if String.eqb envKey "REPORT_TEMPLATE_TEMPERATURE" then Some "0.7"
  else None.

Definition getSetting (env : environment) (key : string) : option string :=
  let envKey := JS.toUpperCase key in
  match env envKey with
  | Some value => if String.eqb value "" then defaults envKey else Some value
  | None => defaults envKey
  end.

Definition getOpenRouterApiKey (env : environment) : option string :=
  match env "OPENROUTER_API_KEY" with
  | Some key =>
      if (negb (String.eqb key "") && negb (String.eqb (JS.trim key) ""))%bool
      then Some (JS.trim key) else None
  | None => None
  end.

(** [getSetting(`${stepKey}_MODEL`) || 'openai/gpt-5.1'] *)
Definition model_for (env : environment) (stepKey : string) : string :=
  match getSetting env (stepKey +:+ "_MODEL") with
  | Some m => m
  | None => "openai/gpt-5.1"
  end.

(** The temperature put in the request body: the setting, when it
    parses to a number. *)
Definition temperature_for (h : host) (env : environment) (stepKey : string) : option Q :=
  match getSetting env (stepKey +:+ "_TEMPERATURE") with
  | Some t => parseFloat h t
  | None => None
  end.

End Settings.

(** ** The jobs table (db/schema.sql) and the statements run on it *)

Module Store.

(** [CONSTRAINT jobs_status_chk] *)
Inductive job_status := pending | processing | completed | failed.

Definition status_eqb (a b : job_status) : bool :=
  match a, b with
  | pending, pending | processing, processing
  | completed, completed | failed, failed => true
  | _, _ => false
  end.

(** One row. A nullable column is an [option]. *)
Record job := {
  id : Z;
  job_type : string;
  status : job_status;
  input_data : JS.value;
  result_data : option string;
  error : option string;
  created_at : Z;
  completed_at : option Z
}.

(** The table and the sequence behind [id SERIAL]. *)
Record table := { rows : list job; jobs_id_seq : Z }.

Definition initial : table := {| rows := []; jobs_id_seq := 1 |}.

Definition with_rows (t : table) (l : list job) : table :=
  {| rows := l; jobs_id_seq := jobs_id_seq t |}.

(** [INSERT INTO jobs (job_type, status, input_data)
     VALUES ($1, 'pending', $2) RETURNING id, job_type, status, created_at] *)
Definition new_job (i now : Z) (ty : string) (input : JS.value) : job :=
  {| id := i; job_type := ty; status := pending; input_data := input;
     result_data := None; error := None; created_at := now; completed_at := None |}.

(** The INSERT throws, and inserts nothing, when the database refuses
    the JSON text of [input]. *)
Definition insert_job (h : host) (now : Z) (ty : string) (input : JS.value) (t : table)
  : option (job * table) :=
  if jsonb_in h input then
    let j := new_job (jobs_id_seq t) now ty input in
    Some (j, {| rows := rows t ++ [j]; jobs_id_seq := jobs_id_seq t + 1 |})
  else None.

(** [SELECT id, job_type, input_data FROM jobs WHERE status = 'pending'
     ORDER BY created_at ASC LIMIT 1 FOR UPDATE SKIP LOCKED].
    [locked i] says that another transaction holds the lock of row [i].
    Among rows created at the same instant the first in the table is
    taken. *)
Definition selectable (locked : Z -> bool) (j : job) : bool :=
  status_eqb (status j) pending && negb (locked (id j)).

Fixpoint oldest (l : list job) : option job :=
  match l with
  | [] => None
  | j :: l' =>
      match oldest l' with
      | None => Some j
      | Some k => if created_at j <=? created_at k then Some j else Some k
      end
  end.

Definition select_next_pending (locked : Z -> bool) (l : list job) : option job :=
  oldest (List.filter (selectable locked) l).

Definition unlocked : Z -> bool := fun _ => false.

(** [UPDATE jobs SET status = 'processing' WHERE id = $1] *)
Definition mark_processing (j : job) : job :=
  {| id := id j; job_type := job_type j; status := processing;
     input_data := input_data j; result_data := result_data j; error := error j;
     created_at := created_at j; completed_at := completed_at j |}.

(** [UPDATE jobs SET status = 'completed', result_data = $1,
     completed_at = CURRENT_TIMESTAMP WHERE id = $2] *)
Definition mark_completed (result : string) (now : Z) (j : job) : job :=
  {| id := id j; job_type := job_type j; status := completed;
     input_data := input_data j; result_data := Some result; error := error j;
     created_at := created_at j; completed_at := Some now |}.

(** [UPDATE jobs SET status = 'failed', error = $1,
     completed_at = CURRENT_TIMESTAMP WHERE id = $2] *)
Definition mark_failed (msg : string) (now : Z) (j : job) : job :=
  {| id := id j; job_type := job_type j; status := failed;
     input_data := input_data j; result_data := result_data j; error := Some msg;
     created_at := created_at j; completed_at := Some now |}.

(** [UPDATE jobs SET ... WHERE id = i]: every row whose id is [i]. *)
Definition update_where_id (f : job -> job) (i : Z) (l : list job) : list job :=
  List.map (fun j => if id j =? i then f j else j) l.

Definition update_processing (i : Z) (t : table) : table :=
  with_rows t (update_where_id mark_processing i (rows t)).

Definition update_completed (result : string) (now i : Z) (t : table) : table :=
  with_rows t (update_where_id (mark_completed result now) i (rows t)).

Definition update_failed (msg : string) (now i : Z) (t : table) : table :=
  with_rows t (update_where_id (mark_failed msg now) i (rows t)).

(** [DELETE FROM jobs WHERE (status = 'completed' OR status = 'failed')
     AND completed_at < $1 RETURNING id]. A null [completed_at] compares
    to null, which the WHERE clause does not accept. *)
Definition old_terminal (cutoff : Z) (j : job) : bool :=
  (status_eqb (status j) completed || status_eqb (status j) failed)
  && match completed_at j with
     | Some c => c <? cutoff
     | None => false
     end.

Definition delete_old_terminal (cutoff : Z) (t : table) : list Z * table :=
  (List.map id (List.filter (old_terminal cutoff) (rows t)),
   with_rows t (List.filter (fun j => negb (old_terminal cutoff j)) (rows t))).

(** The claim transaction of [processNextJob], run alone:
    BEGIN, the locking SELECT, the UPDATE to processing, COMMIT. *)
Definition claim (t : table) : option job * table :=
  match select_next_pending unlocked (rows t) with
  | None => (None, t)
  | Some j => (Some j, update_processing (id j) t)
  end.

End Store.

(** ** POST /api/jobs *)

Module Api.

Inductive reply :=
| Rejected (code : Z) (error : string)
| Created (job_id : Z) (status : Store.job_status) (created_at : Z).

Definition job_types : list string := ["prompt1"; "prompt2"; "report_template"].

(** [['prompt1', 'prompt2', 'report_template'].includes(job_type)]:
    the member that [job_type] is, if any. Only a string can be one. *)
Definition includes (l : list string) (v : JS.value) : option string :=
  match v with
  | JS.Str s => if existsb (String.eqb s) l then Some s else None
  | _ => None
  end.

(** The handler, on the two fields it takes from the request body. An
    exception inside it is answered with 500. *)
Definition submit (h : host) (now : Z) (job_type input_data : JS.value) (t : Store.table)
  : reply * Store.table :=
  if (negb (JS.truthy job_type) || negb (JS.truthy input_data))%bool then
    (Rejected 400 "Missing required fields: job_type, input_data", t)
  else
    match includes job_types job_type with
    | None =>
        (Rejected 400 "Invalid job_type. Must be: prompt1, prompt2, or report_template", t)
    | Some ty =>
        if negb (JS.typeof_object input_data) then
          (Rejected 400 "Invalid input_data structure. Must include messages array", t)
        else
          match JS.get input_data (JS.KName "messages") with
          | inl _ => (Rejected 500 "Internal server error", t)
          | inr messages =>
              if negb (JS.truthy messages) then
                (Rejected 400 "Invalid input_data structure. Must include messages array", t)
              else
                match Store.insert_job h now ty input_data t with
                | Some (job, t') =>
                    (Created (Store.id job) (Store.status job) (Store.created_at job), t')
                | None => (Rejected 500 "Internal server error", t)
                end
          end
    end.

End Api.

(** ** The upstream completion endpoint, as the server sees it *)

Module Upstream.

Record response := { status : Z; text : string }.

(** [response.ok] *)
Definition ok (r : response) : bool := (200 <=? status r) && (status r <=? 299).

(** What one [fetch] meets: a rejection, or a response with its body. *)
Inductive fetched := Rejects (e : JS.error) | Responds (r : response).

(** The endpoint over one run: what the call made after [n] failed
    attempts meets. *)
Definition endpoint := nat -> fetched.

Record request_body := {
  model : string;
  messages : JS.value;
  max_tokens : JS.value;
  temperature : option Q
}.

(** A [fetch] call; [signal] says whether an abort signal is passed. *)
Record call := { authorization : string; body : request_body; signal : bool }.

(** What a handler does besides touching the table, in order. *)
Inductive event :=
| SetAbortTimer (ms : Z)   (* setTimeout(() => controller.abort(), ms) *)
| ClearTimer               (* clearTimeout(timeout) *)
| Sleep (ms : Z)           (* await new Promise(resolve => setTimeout(resolve, ms)) *)
| Fetch (c : call).

Definition raise {A : Type} (e : JS.error) : JS.error + A := inl e.

Definition bind {A B : Type} (m : JS.error + A) (f : A -> JS.error + B) : JS.error + B :=
  match m with
  | inl e => inl e
  | inr a => f a
  end.

Definition maxRetries : nat := 3.

(** [Math.pow(2, retries) * 1000] *)
Definition delay (retries : nat) : Z := 2 ^ Z.of_nat retries * 1000.

(** The wait at the head of an attempt: none before the first one. *)
Definition backoff (retries : nat) : list event :=
  if (0 <? retries)%nat then [Sleep (delay retries)] else [].

Definition too_short (n : nat) : JS.error :=
  JS.Error ("Response too short (" +:+ JS.nat_text n +:+ " chars), likely truncated").

End Upstream.

Notation "'let*' x ':=' m 'in' k" := (Upstream.bind m (fun x => k))
  (at level 10, x name, m at level 100, k at level 200).

(** ** The background worker *)

Module Worker.
Import Upstream.

(** [data.choices[0].message.content] *)
Definition content_of (data : JS.value) : JS.error + JS.value :=
  let* choices := JS.get data (JS.KName "choices") in
  let* first := JS.get choices (JS.KIndex 0) in
  let* msg := JS.get first (JS.KName "message") in
  JS.get msg (JS.KName "content").

(** One attempt, from the answer of [fetch] to [result]. *)
Definition read_completion (h : host) (f : fetched) : JS.error + JS.value :=
  match f with
  | Rejects e => raise e
  | Responds r =>
      if negb (ok r) then
        raise (JS.Error ("OpenRouter API error: " +:+ JS.int_text (status r) +:+ " - " +:+ text r))
      else if (String.length (text r) <? 500)%nat then
        raise (too_short (String.length (text r)))
      else
        let* data := JSON_parse h (text r) in
        content_of data
  end.

(** [while (retries < maxRetries) { try { ... break } catch { retries++; ... } }]:
    the value of [result] after the loop or the error it throws, and what
    was done on the way. [result] is still undefined when the loop is left
    by its condition. *)
Equations? retry (h : host) (c : call) (up : endpoint) (retries : nat)
  : (JS.error + JS.value) * list event by wf (maxRetries - retries)%nat lt :=
  retry h c up retries with lt_dec retries maxRetries := {
    | right _ => (inr JS.Undefined, [])
    | left _ with read_completion h (up retries) := {
        | inr result => (inr result, backoff retries ++ [Fetch c])
        | inl fetchError with le_dec maxRetries (S retries) := {
            | left _ => (raise fetchError, backoff retries ++ [Fetch c])
            | right _ =>
                (fst (retry h c up (S retries)),
                 backoff retries ++ [Fetch c] ++ snd (retry h c up (S retries))) } } }.
Proof. all: unfold maxRetries in *; lia. Qed.

(** The request the worker builds for a claimed job. *)
Definition build_request (h : host) (env : environment) (job : Store.job) : JS.error + call :=
  let inputData := Store.input_data job in
  match Settings.getOpenRouterApiKey env with
  | None => raise (JS.Error "OpenRouter API key not configured.")
  | Some apiKey =>
      let stepKey := JS.toUpperCase (Store.job_type job) in
      let* msgs := JS.get inputData (JS.KName "messages") in
      let* budget := JS.get inputData (JS.KName "max_tokens") in
      inr {| authorization := "Bearer " +:+ apiKey;
             body := {| model := Settings.model_for env stepKey;
                        messages := msgs;
                        max_tokens := JS.or_else budget (JS.Num 4000);
                        temperature := Settings.temperature_for h env stepKey |};
             signal := false |}
  end.

(** How the inner [try] ends before its UPDATE: with a result to store,
    or with the message of what was thrown. *)
Inductive outcome := Completed (result : string) | Failed (msg : string).

(** After the loop: [result.length] is read for the log line, then
    [result] is the parameter of the UPDATE. *)
Definition settle (h : host) (r : JS.error + JS.value) : outcome :=
  match r with
  | inl processingError => Failed (JS.message processingError)
  | inr JS.Undefined => Failed (JS.message (JS.cannot_read "undefined" (JS.KName "length")))
  | inr JS.Null => Failed (JS.message (JS.cannot_read "null" (JS.KName "length")))
  | inr (JS.Str s) => Completed s
  | inr v => Completed (pg_text h v)
  end.

(** The inner [try] of [processNextJob], for the job it claimed. *)
Definition run_job (h : host) (env : environment) (up : endpoint) (job : Store.job)
  : outcome * list event :=
  match build_request h env job with
  | inl e => (Failed (JS.message e), [])
  | inr c => (settle h (fst (retry h c up 0)), snd (retry h c up 0))
  end.

(** The two last UPDATEs. A text that the database refuses makes the
    query throw and nothing is written. *)
Definition complete_job (h : host) (result : string) (now i : Z) (t : Store.table)
  : JS.error + Store.table :=
  match text_in h result with
  | Some e => raise e
  | None => inr (Store.update_completed result now i t)
  end.

Definition fail_job (h : host) (msg : string) (now i : Z) (t : Store.table)
  : JS.error + Store.table :=
  match text_in h msg with
  | Some e => raise e
  | None => inr (Store.update_failed msg now i t)
  end.

(** The end of the inner [try] and its [catch]: what the completing
    UPDATE throws is caught and the failing UPDATE is issued with its
    message; what the failing UPDATE throws leaves the [catch]. *)
Definition record_outcome (h : host) (o : outcome) (now i : Z) (t : Store.table)
  : JS.error + Store.table :=
  match o with
  | Completed result =>
      match complete_job h result now i t with
      | inl processingError => fail_job h (JS.message processingError) now i t
      | inr t' => inr t'
      end
  | Failed msg => fail_job h msg now i t
  end.

(** The table when the invocation returns: what leaves the inner
    [catch] is caught by the outer one, whose ROLLBACK finds no
    transaction open, and the row stays as the claim left it. *)
Definition finish (h : host) (o : outcome) (now i : Z) (t : Store.table) : Store.table :=
  match record_outcome h o now i t with
  | inr t' => t'
  | inl _ => t
  end.

(** One tick of the worker, alone on the table. [now] is the database
    clock at the last UPDATE. *)
Definition processNextJob (h : host) (env : environment) (up : endpoint) (now : Z)
  (t : Store.table) : Store.table * list event :=
  match Store.claim t with
  | (None, t') => (t', [])
  | (Some job, t') =>
      (finish h (fst (run_job h env up job)) now (Store.id job) t',
       snd (run_job h env up job))
  end.

End Worker.

(** ** POST /api/openrouter/chat/completions, the proxy with the same policy *)

Module Proxy.
Import Upstream.

(** [res.status(code).json(payload)] *)
Inductive reply := Reply (code : Z) (payload : JS.value).

Definition error_reply (code : Z) (msg : string) : reply :=
  Reply code (JS.Obj [("error", JS.Str msg)]).

Definition failed_reply : reply :=
  error_reply 500 "Failed to process request. Please try again or contact support if the issue persists.".

Definition timeout_reply : reply :=
  error_reply 408 "Request timeout - the response took too long to generate. Please try again or use a smaller prompt.".

(** The [try] block after [fetch] has answered: the reply it returns,
    or what it throws. *)
Definition read_response (h : host) (r : response) : JS.error + reply :=
  if negb (ok r) then
    inr (error_reply (status r)
           "OpenRouter API error. Please try again or contact support if the issue persists.")
  else if (String.length (text r) <? 500)%nat then
    raise (too_short (String.length (text r)))
  else
    match JSON_parse h (text r) with
    | inr JS.Null | inr JS.Undefined | inl _ => raise (JS.Error "Failed to parse OpenRouter response")
    | inr data => inr (Reply 200 data)
    end.

(** One turn of the loop up to the end of [try]: the timer is armed,
    the backoff is waited, the call is made under the abort signal, and
    the timer is cleared once [fetch] has answered. *)
Definition attempt (h : host) (c : call) (up : endpoint) (retries : nat)
  : (JS.error + reply) * list event :=
  let before := [SetAbortTimer 300000] ++ backoff retries ++ [Fetch c] in
  match up retries with
  | Rejects e => (raise e, before)
  | Responds r => (read_response h r, before ++ [ClearTimer])
  end.

Definition is_abort (e : JS.error) : bool := String.eqb (JS.name e) "AbortError".

Equations? retry (h : host) (c : call) (up : endpoint) (retries : nat)
  : (JS.error + reply) * list event by wf (maxRetries - retries)%nat lt :=
  retry h c up retries with lt_dec retries maxRetries := {
    | right _ => (raise (JS.Error "Unknown error occurred"), [])
    | left _ with attempt h c up retries := {
        | (inr answer, trace) => (inr answer, trace)
        | (inl fetchError, trace) with is_abort fetchError := {
            | true => (inr timeout_reply, trace ++ [ClearTimer])
            | false with le_dec maxRetries (S retries) := {
                | left _ => (raise fetchError, trace ++ [ClearTimer])
                | right _ =>
                    (fst (retry h c up (S retries)),
                     trace ++ [ClearTimer] ++ snd (retry h c up (S retries))) } } } }.
Proof. all: unfold maxRetries in *; lia. Qed.

(** The handler, on the three fields it takes from the request body. *)
Definition handle (h : host) (env : environment) (up : endpoint)
  (step msgs budget : JS.value) : reply * list event :=
  if negb (JS.truthy step) then
    (error_reply 400 "Missing step parameter. Must be one of: prompt1, prompt2, report_template", [])
  else
    match Settings.getOpenRouterApiKey env with
    | None =>
        (error_reply 500 "OpenRouter API key not configured. Please contact the administrator.", [])
    | Some apiKey =>
        match step with
        | JS.Str s =>
            let stepKey := JS.toUpperCase s in
            let c := {| authorization := "Bearer " +:+ apiKey;
                        body := {| model := Settings.model_for env stepKey;
                                   messages := msgs;
                                   max_tokens := JS.or_else budget (JS.Num 4000);
                                   temperature := Settings.temperature_for h env stepKey |};
                        signal := true |} in
            (match fst (retry h c up 0) with
             | inr answer => answer
             | inl _ => failed_reply
             end,
             snd (retry h c up 0))
        | _ => (failed_reply, [])   (* step.toUpperCase is not a function *)
        end
    end.

End Proxy.

(** ** The retention sweep *)

Module Sweeper.

(** [cleanupOldJobs], run at [now] (the server's clock): the ids the
    DELETE returns and the table it leaves. *)
Definition cleanupOldJobs (now : Z) (t : Store.table) : list Z * Store.table :=
  let sixHoursAgo := now - 6 * 60 * 60 * 1000 in
  Store.delete_old_terminal sixHoursAgo t.

End Sweeper.

(** ** Several workers on one table

    Any number of invocations of [processNextJob], in any number of
    processes, run against the same table, next to submissions and
    sweeps: the statements that [server.js] runs on the table, and no
    others. One statement is one step. The table is what is committed;
    [locks] maps a row id to the invocation whose open transaction holds
    that row's lock. *)

Module Queue.

(** Where an invocation of [processNextJob] stands. *)
Inductive phase :=
| Begun                      (* BEGIN *)
| Found (j : Store.job)      (* the SELECT returned [j] and locked it *)
| Marked (j : Store.job)     (* UPDATE ... 'processing' issued, not committed *)
| Empty                      (* the SELECT returned no row *)
| Idle                       (* COMMIT and return: nothing was claimed *)
| Working (j : Store.job)    (* COMMIT: [j] is claimed, the upstream is being called *)
| Done (j : Store.job)       (* the last UPDATE ran *)
| Aborted.                   (* a statement of the transaction failed: ROLLBACK *)

Record state := {
  db : Store.table;
  locks : gmap Z nat;
  workers : gmap nat phase
}.

Definition initial : state := {| db := Store.initial; locks := ∅; workers := ∅ |}.

Definition held (l : gmap Z nat) (i : Z) : bool := bool_decide (is_Some (l !! i)).

Definition set_phase (w : nat) (p : phase) (s : state) : state :=
  {| db := db s; locks := locks s; workers := <[w := p]> (workers s) |}.

Definition set_db (t : Store.table) (s : state) : state :=
  {| db := t; locks := locks s; workers := workers s |}.

(** The locking SELECT of invocation [w]: rows locked by open
    transactions are skipped. *)
Definition select (w : nat) (s : state) : state :=
  match Store.select_next_pending (held (locks s)) (Store.rows (db s)) with
  | Some j =>
      {| db := db s; locks := <[Store.id j := w]> (locks s);
         workers := <[w := Found j]> (workers s) |}
  | None => set_phase w Empty s
  end.

(** COMMIT after the UPDATE: the write becomes visible and the lock is
    released. *)
Definition commit (w : nat) (j : Store.job) (s : state) : state :=
  {| db := Store.update_processing (Store.id j) (db s);
     locks := delete (Store.id j) (locks s);
     workers := <[w := Working j]> (workers s) |}.

(** The transaction is open. *)
Definition in_transaction (p : phase) : bool :=
  match p with
  | Begun | Found _ | Marked _ | Empty => true
  | _ => false
  end.

(** ROLLBACK, in the handler of an error of the transaction: nothing is
    written, and the lock, if one is held, is released. *)
Definition rollback (w : nat) (p : phase) (s : state) : state :=
  {| db := db s;
     locks := match p with
              | Found j | Marked j => delete (Store.id j) (locks s)
              | _ => locks s
              end;
     workers := <[w := Aborted]> (workers s) |}.

(** The claim transaction of [processNextJob], statement by statement. *)
Inductive claim_step : state -> state -> Prop :=
| claim_begin s w :
    workers s !! w = None -> claim_step s (set_phase w Begun s)
| claim_select s w :
    workers s !! w = Some Begun -> claim_step s (select w s)
| claim_update s w j :
    workers s !! w = Some (Found j) -> claim_step s (set_phase w (Marked j) s)
| claim_commit s w j :
    workers s !! w = Some (Marked j) -> claim_step s (commit w j s)
| claim_commit_none s w :
    workers s !! w = Some Empty -> claim_step s (set_phase w Idle s)
| claim_rollback s w p :
    workers s !! w = Some p -> in_transaction p = true -> claim_step s (rollback w p s).

(** Everything that touches the table. *)
Inductive step : state -> state -> Prop :=
| step_claim s s' :
    claim_step s s' -> step s s'
| step_finish s w j h env up now :
    workers s !! w = Some (Working j) ->
    step s (set_phase w (Done j)
              (set_db (Worker.finish h (fst (Worker.run_job h env up j)) now
                         (Store.id j) (db s)) s))
| step_submit s h now job_type input_data :
    step s (set_db (snd (Api.submit h now job_type input_data (db s))) s)
| step_sweep s now :
    step s (set_db (snd (Sweeper.cleanupOldJobs now (db s))) s).

Definition reachable (s : state) : Prop := rtc step initial s.

(** The job an invocation has claimed, if any. *)
Definition claimed (p : phase) : option Store.job :=
  match p with
  | Found j | Marked j | Working j | Done j => Some j
  | Begun | Empty | Idle | Aborted => None
  end.

(** The claim transaction has committed. *)
Definition committed (p : phase) : bool :=
  match p with
  | Idle | Working _ | Done _ => true
  | _ => false
  end.

End Queue.

(** * The rest of the server, and its client *)

(** ** Prompts loaded from files, with their cache *)

Module Prompts.

(** [fs] and [path], as far as the server uses them. *)
Record files := {
  dirname : string;                          (* __dirname *)
  join : string -> string -> string;         (* path.join *)
  existsSync : string -> bool;               (* fs.existsSync *)
  readFileSync : string -> JS.error + string (* fs.readFileSync(_, 'utf-8') *)
}.

Definition PROMPTS_DIR (f : files) : string := join f (dirname f) "prompts".

(** [loadPromptFromFile]: what it returns ([None] is [null]) and the
    cache it leaves. *)
Definition loadPromptFromFile (f : files) (promptsCache : gmap string string)
  (stepName : string) : option string * gmap string string :=
  match promptsCache !! stepName with
  | Some content => (Some content, promptsCache)
  | None =>
      let filePath := join f (PROMPTS_DIR f) (stepName +:+ ".md") in
      if existsSync f filePath then
        match readFileSync f filePath with
        | inr content => (Some content, <[stepName := content]> promptsCache)
        | inl _ => (None, promptsCache)
        end
      else (None, promptsCache)
  end.

(** [reloadPrompts]: [promptsCache.clear()] *)
Definition reloadPrompts (promptsCache : gmap string string) : gmap string string := ∅.

(** GET /api/prompts/content/:step *)
Inductive reply :=
| NotFound                      (* 404 { error: 'Prompt not found' } *)
| Content (content : string).   (* 200 { content } *)

Definition get_content (f : files) (promptsCache : gmap string string) (step : string)
  : reply * gmap string string :=
  match loadPromptFromFile f promptsCache step with
  | (Some content, cache) =>
      if String.eqb content "" then (NotFound, cache) else (Content content, cache)
  | (None, cache) => (NotFound, cache)
  end.

End Prompts.

(** ** GET /api/config *)

Module Config.

Record step_config := { model : string; temperature : option Q }.

Record config := {
  prompt1 : step_config;
  prompt2 : step_config;
  reportTemplate : step_config;
  configured : bool               (* openRouter.configured *)
}.

(** [getSetting(key) || fallback] *)
Definition or_text (o : option string) (fallback : string) : string :=
  match o with
  | Some v => if String.eqb v "" then fallback else v
  | None => fallback
  end.

Definition get_config (h : host) (env : environment) : config :=
  {| prompt1 :=
       {| model := or_text (Settings.getSetting env "PROMPT1_MODEL") "openai/gpt-5.1";
          temperature :=
            parseFloat h (or_text (Settings.getSetting env "PROMPT1_TEMPERATURE") "0.7") |};
     prompt2 :=
       {| model := or_text (Settings.getSetting env "PROMPT2_MODEL") "openai/gpt-5.1";
          temperature :=
            parseFloat h (or_text (Settings.getSetting env "PROMPT2_TEMPERATURE") "0.7") |};
     reportTemplate :=
       {| model := or_text (Settings.getSetting env "REPORT_TEMPLATE_MODEL") "openai/gpt-5.1";
          temperature :=
            parseFloat h (or_text (Settings.getSetting env "REPORT_TEMPLATE_TEMPERATURE") "0.7") |};
     configured :=
       match Settings.getOpenRouterApiKey env with
       | Some _ => true
       | None => false
       end |}.

End Config.

(** ** GET /api/jobs/:id *)

Module JobStatus.

(** The fields the handler returns; [result] is [result_data]. *)
Record view := {
  id : Z;
  job_type : string;
  status : Store.job_status;
  result : option string;
  error : option string;
  created_at : Z;
  completed_at : option Z
}.

Inductive reply :=
| Found (v : view)      (* 200 *)
| NotFound              (* 404 { error: 'Job not found' } *)
| ServerError.          (* 500 { error: 'Internal server error' } *)

Definition view_of (job : Store.job) : view :=
  {| id := Store.id job; job_type := Store.job_type job; status := Store.status job;
     result := Store.result_data job; error := Store.error job;
     created_at := Store.created_at job; completed_at := Store.completed_at job |}.

(** [SELECT ... FROM jobs WHERE id = $1] *)
Definition select_by_id (i : Z) (t : Store.table) : list Store.job :=
  List.filter (fun j => Store.id j =? i) (Store.rows t).

(** The handler. The path parameter is a text; [int4in] is how the
    database reads it as an integer, and when it cannot the query fails
    and the handler answers 500. *)
Definition get_job (int4in : string -> option Z) (id : string) (t : Store.table) : reply :=
  match int4in id with
  | None => ServerError
  | Some i =>
      match select_by_id i t with
      | [] => NotFound
      | job :: _ => Found (view_of job)
      end
  end.

End JobStatus.

(** ** Worker ticks that run one after the other *)

Module Ticks.

(** What a tick meets: the upstream of its run and the database clock at
    its last UPDATE. *)
Definition plan := list (Upstream.endpoint * Z).

Fixpoint run (h : host) (env : environment) (p : plan) (t : Store.table) : Store.table :=
  match p with
  | [] => t
  | (up, now) :: p' => run h env p' (fst (Worker.processNextJob h env up now t))
  end.

End Ticks.

(** ** Starting and stopping the background jobs (startServer) *)

Module Background.

Inductive task := ProcessNextJob | CleanupOldJobs.

(** The timers of the process: the next handle and the intervals that
    are set. *)
Record timers := { next_handle : nat; live : list (nat * (task * Z)) }.

Definition setInterval (k : task) (ms : Z) (tm : timers) : nat * timers :=
  (next_handle tm,
   {| next_handle := S (next_handle tm); live := live tm ++ [(next_handle tm, (k, ms))] |}).

Definition clearInterval (handle : nat) (tm : timers) : timers :=
  {| next_handle := next_handle tm;
     live := List.filter (fun e => negb (fst e =? handle)%nat) (live tm) |}.

(** The closure of [startServer]: its two variables, the option it has
    resolved, the timers, and the calls of [processNextJob] made at once. *)
Record state := {
  enableJobProcessor : bool;
  jobProcessingInterval : option nat;
  jobCleanupInterval : option nat;
  clock : timers;
  immediate : nat
}.

(** [options.enableJobProcessor ?? (process.env.ENABLE_JOB_PROCESSOR !== 'false')] *)
Definition resolve_enable (option : option bool) (env : environment) : bool :=
  match option with
  | Some b => b
  | None =>
      match env "ENABLE_JOB_PROCESSOR" with
      | Some v => negb (String.eqb v "false")
      | None => true
      end
  end.

Definition created (option : option bool) (env : environment) : state :=
  {| enableJobProcessor := resolve_enable option env;
     jobProcessingInterval := None; jobCleanupInterval := None;
     clock := {| next_handle := 0; live := [] |}; immediate := 0 |}.

Definition stopBackgroundJobs (s : state) : state :=
  let s1 :=
    match jobProcessingInterval s with
    | Some handle =>
        {| enableJobProcessor := enableJobProcessor s;
           jobProcessingInterval := None; jobCleanupInterval := jobCleanupInterval s;
           clock := clearInterval handle (clock s); immediate := immediate s |}
    | None => s
    end in
  match jobCleanupInterval s1 with
  | Some handle =>
      {| enableJobProcessor := enableJobProcessor s1;
         jobProcessingInterval := jobProcessingInterval s1; jobCleanupInterval := None;
         clock := clearInterval handle (clock s1); immediate := immediate s1 |}
  | None => s1
  end.

Definition startBackgroundJobs (s : state) : state :=
  let s1 :=
    match enableJobProcessor s, jobProcessingInterval s with
    | true, None =>
        let (handle, tm) := setInterval ProcessNextJob 5000 (clock s) in
        {| enableJobProcessor := enableJobProcessor s;
           jobProcessingInterval := Some handle; jobCleanupInterval := jobCleanupInterval s;
           clock := tm; immediate := S (immediate s) |}
    | _, _ => s
    end in
  match enableJobProcessor s1, jobCleanupInterval s1 with
  | true, None =>
      let (handle, tm) := setInterval CleanupOldJobs (60 * 60 * 1000) (clock s1) in
      {| enableJobProcessor := enableJobProcessor s1;
         jobProcessingInterval := jobProcessingInterval s1; jobCleanupInterval := Some handle;
         clock := tm; immediate := immediate s1 |}
  | _, _ => s1
  end.

(** What the holder of the object [startServer] returns can call. *)
Inductive call := Start | Stop.

Definition apply (c : call) (s : state) : state :=
  match c with
  | Start => startBackgroundJobs s
  | Stop => stopBackgroundJobs s
  end.

(** [startServer] starts the jobs once; the calls follow. *)
Definition after (option : option bool) (env : environment) (calls : list call) : state :=
  fold_left (fun s c => apply c s) calls (startBackgroundJobs (created option env)).

Definition intervals_of (k : task) (s : state) : list (nat * (task * Z)) :=
  List.filter (fun e => match fst (snd e), k with
                        | ProcessNextJob, ProcessNextJob | CleanupOldJobs, CleanupOldJobs => true
                        | _, _ => false
                        end) (live (clock s)).

End Background.

(** ** The page that submits a job and polls for it (pollJobStatus) *)

Module Client.

(** What one [fetch] of the job's status meets. *)
Inductive polled :=
| Throws (e : JS.error)              (* fetch or response.json() throws *)
| NotOk (code : Z)                   (* !response.ok *)
| Body (job : JS.value).             (* the parsed body *)

(** The server over one polling: what the poll made after [n] earlier
    ones meets. *)
Definition server := nat -> polled.

(** Where the page ends: the analysis status it shows. The error, when
    there is one, is only logged. *)
Inductive shown :=
| Complete (framework : JS.value)
| Failed (logged : JS.value)
| Analyzing.                         (* nothing more happens: the status stays 'analyzing' *)

Inductive event := Poll | Wait (ms : Z).

Definition maxAttempts : nat := 200.

Definition is_text (v : JS.value) (s : string) : bool :=
  match v with
  | JS.Str s' => String.eqb s' s
  | _ => false
  end.

(** The argument of the [Error] that is thrown and logged. *)
Definition thrown (e : JS.error) : JS.value := JS.Str (JS.message e).

Inductive verdict :=
| Ends (s : shown)
| Again.                             (* pending or processing *)

(** One run of [poll], up to the test of [attempts]. *)
Definition look (p : polled) : verdict :=
  match p with
  | Throws e => Ends (Failed (thrown e))
  | NotOk code => Ends (Failed (JS.Str ("Job status check failed: " +:+ JS.int_text code)))
  | Body job =>
      match JS.get job (JS.KName "status") with
      | inl e => Ends (Failed (thrown e))
      | inr status =>
          if is_text status "completed" then
            match JS.get job (JS.KName "result") with
            | inr framework => Ends (Complete framework)
            | inl e => Ends (Failed (thrown e))
            end
          else if is_text status "failed" then
            match JS.get job (JS.KName "error") with
            | inr error => Ends (Failed (JS.or_else error (JS.Str "Job processing failed")))
            | inl e => Ends (Failed (thrown e))
            end
          else if (is_text status "pending" || is_text status "processing")%bool then Again
          else Ends Analyzing
      end
  end.

Equations? poll (srv : server) (attempts : nat) : shown * list event
  by wf (maxAttempts - attempts)%nat lt :=
  poll srv attempts with look (srv attempts) := {
    | Ends s => (s, [Poll])
    | Again with lt_dec (S attempts) maxAttempts := {
        | left _ =>
            (fst (poll srv (S attempts)), [Poll; Wait 3000] ++ snd (poll srv (S attempts)))
        | right _ =>
            (Failed (JS.Str "Job timeout - processing took too long"), [Poll]) } }.
Proof. all: unfold maxAttempts in *; lia. Qed.

Definition pollJobStatus (srv : server) : shown * list event := poll srv 0.

(** The body the server sends for a job; [iso] prints a timestamp. *)
Definition status_text (s : Store.job_status) : string :=
  match s with
  | Store.pending => "pending"
  | Store.processing => "processing"
  | Store.completed => "completed"
  | Store.failed => "failed"
  end.

Definition nullable (o : option string) : JS.value :=
  match o with
  | Some s => JS.Str s
  | None => JS.Null
  end.

Definition job_json (iso : Z -> string) (v : JobStatus.view) : JS.value :=
  JS.Obj [("id", JS.Num (inject_Z (JobStatus.id v)));
          ("job_type", JS.Str (JobStatus.job_type v));
          ("status", JS.Str (status_text (JobStatus.status v)));
          ("result", nullable (JobStatus.result v));
          ("error", nullable (JobStatus.error v));
          ("created_at", JS.Str (iso (JobStatus.created_at v)));
          ("completed_at", nullable (option_map iso (JobStatus.completed_at v)))].

(** What the page meets when the server answers with [r]. *)
Definition answered (iso : Z -> string) (r : JobStatus.reply) : polled :=
  match r with
  | JobStatus.Found v => Body (job_json iso v)
  | JobStatus.NotFound => NotOk 404
  | JobStatus.ServerError => NotOk 500
  end.



End Client.

(** ** The form of the first step (validateForm) *)

Module Form.

(** [!value.trim()] *)
Definition blank (value : string) : bool := negb (JS.truthy (JS.Str (JS.trim value))).

(** [newErrors], key by key in the order they are set, and whether the
    form may be submitted. *)
Definition validateForm (organizationName programName aboutProgram : string)
  : list (string * string) * bool :=
  let newErrors :=
    (if blank organizationName
     then [("organizationName", "Organization name is required")] else []) ++
    (if blank programName
     then [("programName", "Program name is required")] else []) ++
    (if blank aboutProgram
     then [("aboutProgram", "Program description is required")] else []) in
  (newErrors, (length newErrors =? 0)%nat).

End Form.

(** * Vocabulary of the properties *)

(** Completed or failed. *)
Definition terminal (j : Store.job) : Prop :=
  Store.status j = Store.completed \/ Store.status j = Store.failed.

(** Terminal, with a completion time before the cutoff. *)
Definition expired (cutoff : Z) (j : Store.job) : Prop :=
  terminal j /\ exists c, Store.completed_at j = Some c /\ c < cutoff.


(** The event is a call to the upstream. *)
Definition is_fetch (e : Upstream.event) : bool :=
  match e with
  | Upstream.Fetch _ => true
  | _ => false
  end.

(** The number of calls to the upstream in a trace. *)
Definition attempts (trace : list Upstream.event) : nat :=
  length (List.filter is_fetch trace).

(** The last UPDATE of the worker, row by row. *)
Definition settle_row (o : Worker.outcome) (now : Z) (k : Store.job) : Store.job :=
  match o with
  | Worker.Completed result => Store.mark_completed result now k
  | Worker.Failed msg => Store.mark_failed msg now k
  end.

(** The row a claimed job becomes, for each way it can end. *)
Definition settled_row (o : Worker.outcome) (now : Z) (job : Store.job) : Store.job :=
  settle_row o now (Store.mark_processing job).

(** The text that the UPDATE for an outcome sends. *)
Definition outcome_text (o : Worker.outcome) : string :=
  match o with
  | Worker.Completed result => result
  | Worker.Failed msg => msg
  end.

(** The UPDATE that takes effect for an outcome, if one does: the
    outcome's own when the database takes its text, the failing one with
    the message of the refusal when it refuses a result and takes that
    message, none otherwise. *)
Definition written (h : host) (o : Worker.outcome) : option Worker.outcome :=
  match text_in h (outcome_text o) with
  | None => Some o
  | Some e =>
      match o with
      | Worker.Completed _ =>
          match text_in h (JS.message e) with
          | None => Some (Worker.Failed (JS.message e))
          | Some _ => None
          end
      | Worker.Failed _ => None
      end
  end.

(** Whether every call in a trace is made under a pending five-minute
    abort timer and carries the abort signal. [armed] says whether such a
    timer is pending at the start. *)
Fixpoint under_timeout_from (armed : bool) (trace : list Upstream.event) : bool :=
  match trace with
  | [] => true
  | Upstream.SetAbortTimer ms :: rest => under_timeout_from (ms =? 300000) rest
  | Upstream.ClearTimer :: rest => under_timeout_from false rest
  | Upstream.Sleep _ :: rest => under_timeout_from armed rest
  | Upstream.Fetch c :: rest => armed && Upstream.signal c && under_timeout_from armed rest
  end.

Definition under_timeout (trace : list Upstream.event) : bool :=
  under_timeout_from false trace.

(** What the columns of a row hold, by status: a result exactly when
    completed, an error exactly when failed, a completion time exactly
    when terminal. *)
Definition row_ok (j : Store.job) : Prop :=
  match Store.status j with
  | Store.pending | Store.processing =>
      Store.result_data j = None /\ Store.error j = None /\ Store.completed_at j = None
  | Store.completed =>
      Store.result_data j <> None /\ Store.error j = None /\ Store.completed_at j <> None
  | Store.failed =>
      Store.error j <> None /\ Store.result_data j = None /\ Store.completed_at j <> None
  end.

(** What the table and the locks owe to an invocation in phase [p]. *)
Definition phase_ok (s : Queue.state) (w : nat) (p : Queue.phase) : Prop :=
  match p with
  | Queue.Found j | Queue.Marked j =>
      Queue.locks s !! Store.id j = Some w /\
      In j (Store.rows (Queue.db s)) /\ Store.status j = Store.pending
  | Queue.Working j =>
      In (Store.mark_processing j) (Store.rows (Queue.db s))
  | Queue.Done j =>
      Store.id j < Store.jobs_id_seq (Queue.db s) /\
      forall k, In k (Store.rows (Queue.db s)) -> Store.id k = Store.id j ->
                Store.status k <> Store.pending
  | Queue.Begun | Queue.Empty | Queue.Idle | Queue.Aborted => True
  end.

(** The table alone: ids come from the sequence, [id] is the primary
    key, and every row has the columns its status asks for. *)
Record table_ok (t : Store.table) : Prop := {
  ok_ids : forall k, In k (Store.rows t) -> Store.id k < Store.jobs_id_seq t;
  ok_key : NoDup (List.map Store.id (Store.rows t));
  ok_rows : forall k, In k (Store.rows t) -> row_ok k
}.

(** No job is claimed by two invocations. *)
Definition exclusive (ws : gmap nat Queue.phase) : Prop :=
  forall w1 w2 p1 p2 j1 j2,
    ws !! w1 = Some p1 -> ws !! w2 = Some p2 ->
    Queue.claimed p1 = Some j1 -> Queue.claimed p2 = Some j2 ->
    Store.id j1 = Store.id j2 -> w1 = w2.

Record inv (s : Queue.state) : Prop := {
  inv_table : table_ok (Queue.db s);
  inv_phase : forall w p, Queue.workers s !! w = Some p -> phase_ok s w p;
  inv_excl : exclusive (Queue.workers s)
}.

(** What a statement on the table leaves alone about the rows of id [i]:
    a row that is not terminal stays, no pending row appears, and the
    sequence does not go back. *)
Definition keeps (i : Z) (t t' : Store.table) : Prop :=
  (forall k, In k (Store.rows t) -> Store.id k = i ->
             Store.status k = Store.pending \/ Store.status k = Store.processing ->
             In k (Store.rows t')) /\
  (forall k, In k (Store.rows t') -> Store.id k = i -> Store.status k = Store.pending ->
             In k (Store.rows t)) /\
  Store.jobs_id_seq t <= Store.jobs_id_seq t'.

Definition is_pending (k : Store.job) : bool := Store.status_eqb (Store.status k) Store.pending.

(** The state of a run of claim transactions over a table whose only
    pending job is [j]: either [j] is free and nobody holds a job (and
    then either nobody has selected yet or somebody has rolled back), or
    one invocation [w] has [j] and nobody else holds a job. *)
Definition sole_claim (j : Store.job) (s : Queue.state) : Prop :=
  (forall k, In k (Store.rows (Queue.db s)) -> Store.status k = Store.pending -> k = j) /\
  ((In j (Store.rows (Queue.db s)) /\ Store.status j = Store.pending /\
    Queue.locks s !! Store.id j = None /\
    (forall w p, Queue.workers s !! w = Some p -> Queue.claimed p = None) /\
    ((forall w p, Queue.workers s !! w = Some p -> p = Queue.Begun) \/
     exists w, Queue.workers s !! w = Some Queue.Aborted))
   \/
   exists w,
     (forall w' p', Queue.workers s !! w' = Some p' -> w' <> w -> Queue.claimed p' = None) /\
     (((Queue.workers s !! w = Some (Queue.Found j) \/
        Queue.workers s !! w = Some (Queue.Marked j)) /\
       Queue.locks s !! Store.id j = Some w /\
       In j (Store.rows (Queue.db s)) /\ Store.status j = Store.pending)
      \/
      (Queue.workers s !! w = Some (Queue.Working j) /\
       forall k, In k (Store.rows (Queue.db s)) -> Store.status k <> Store.pending))).

(** The row a claimed job is left as: settled by the UPDATE that takes
    effect, or processing when none does. *)
Definition left_row (h : host) (o : Worker.outcome) (now : Z) (x : Store.job) : Store.job :=
  match written h o with
  | Some o' => settled_row o' now x
  | None => Store.mark_processing x
  end.

(** A completed row has a result and no error; a failed row has an error
    and no result. *)
Definition outcome_exclusive (k : Store.job) : Prop :=
  (Store.status k = Store.completed ->
     Store.result_data k <> None /\ Store.error k = None) /\
  (Store.status k = Store.failed ->
     Store.error k <> None /\ Store.result_data k = None).

(** * Example data *)

(** A job that completed exactly six hours before the first sweep. *)
Definition aged_job : Store.job :=
  Store.mark_completed "plan" 1000
    (Store.mark_processing (Store.new_job 1 0 "prompt1" (JS.Obj [("messages", JS.Arr [])]))).

Definition aged_table : Store.table := {| Store.rows := [aged_job]; Store.jobs_id_seq := 2 |}.


Definition demo_input : JS.value :=
  JS.Obj [("messages", JS.Arr [JS.Obj [("role", JS.Str "user"); ("content", JS.Str "hello")]])].

Definition demo_reply : JS.value :=
  JS.Obj [("choices",
           JS.Arr [JS.Obj [("message",
                            JS.Obj [("role", JS.Str "assistant"); ("content", JS.Str "ok")])]])].

(** The text holds the character of code 0. *)
Fixpoint has_nul (s : string) : bool :=
  match s with
  | EmptyString => false
  | String c s' => (nat_of_ascii c =? 0)%nat || has_nul s'
  end.

Fixpoint value_has_nul (v : JS.value) : bool :=
  match v with
  | JS.Str s => has_nul s
  | JS.Arr l => existsb value_has_nul l
  | JS.Obj m => existsb (fun kv => has_nul (fst kv) || value_has_nul (snd kv)) m
  | _ => false
  end.

(** A database that refuses the texts that hold a NUL, and no other. *)
Definition refuses_nul (s : string) : option JS.error :=
  if has_nul s then Some (JS.Error "invalid byte sequence for encoding UTF8: 0x00")
  else None.

(** A runtime whose [JSON.parse] reads every body as [demo_reply]. *)
Definition demo_host : host :=
  {| parseFloat := fun t => if String.eqb t "0.7" then Some (7 # 10)%Q else None;
     JSON_parse := fun _ => inr demo_reply;
     pg_text := fun _ => EmptyString;
     jsonb_in := fun v => negb (value_has_nul v);
     text_in := refuses_nul |}.

(** A text with a NUL in it, and a submission that carries it. *)
Definition nul_text : string := String Ascii.zero "hello".


Definition demo_env : environment :=
  fun k => if String.eqb k "OPENROUTER_API_KEY" then Some "sk-demo"%string else None.

Fixpoint spaces (n : nat) : string :=
  match n with
  | O => EmptyString
  | S n' => String " " (spaces n')
  end.

(** An upstream that answers 200 with a body of 600 characters. *)
Definition demo_up : Upstream.endpoint :=
  fun _ => Upstream.Responds {| Upstream.status := 200; Upstream.text := spaces 600 |}.

Definition demo_job : Store.job := Store.new_job 1 7 "prompt1" demo_input.

Definition demo_s1 : Queue.state :=
  Queue.set_db (snd (Api.submit demo_host 7 (JS.Str "prompt1") demo_input Store.initial))
    Queue.initial.
Definition demo_s2 : Queue.state := Queue.set_phase 0 Queue.Begun demo_s1.
Definition demo_s3 : Queue.state := Queue.select 0 demo_s2.
Definition demo_s4 : Queue.state := Queue.set_phase 0 (Queue.Marked demo_job) demo_s3.
Definition demo_s5 : Queue.state := Queue.commit 0 demo_job demo_s4.
Definition demo_s6 : Queue.state :=
  Queue.set_phase 0 (Queue.Done demo_job)
    (Queue.set_db
       (Worker.finish demo_host (fst (Worker.run_job demo_host demo_env demo_up demo_job)) 9
          (Store.id demo_job) (Queue.db demo_s5))
       demo_s5).

(** Two workers race for the job of [demo_s1]: worker 2 selects while
    worker 1 holds the lock. *)
Definition race_s1 : Queue.state := Queue.set_phase 1 Queue.Begun demo_s1.
Definition race_s2 : Queue.state := Queue.set_phase 2 Queue.Begun race_s1.
Definition race_s3 : Queue.state := Queue.select 1 race_s2.
Definition race_s4 : Queue.state := Queue.select 2 race_s3.
Definition race_s5 : Queue.state := Queue.set_phase 1 (Queue.Marked demo_job) race_s4.
Definition race_s6 : Queue.state := Queue.set_phase 2 Queue.Idle race_s5.
Definition race_s7 : Queue.state := Queue.commit 1 demo_job race_s6.


Definition three_jobs : Store.table :=
  {| Store.rows := [Store.mark_processing (Store.new_job 1 10 "prompt1" demo_input);
                    Store.new_job 2 30 "prompt2" demo_input;
                    Store.new_job 3 20 "report_template" demo_input];
     Store.jobs_id_seq := 4 |}.

(** An upstream that cannot be reached twice and then answers. *)
Definition flaky_up : Upstream.endpoint :=
  fun n => if (n <? 2)%nat then Upstream.Rejects (JS.TypeError "fetch failed") else demo_up n.

(** An upstream that answers 500 with a body that holds a NUL. *)
Definition nul_up : Upstream.endpoint :=
  fun _ => Upstream.Responds {| Upstream.status := 500; Upstream.text := nul_text |}.

Definition demo_call : Upstream.call :=
  {| Upstream.authorization := "Bearer sk-demo";
     Upstream.body := {| Upstream.model := "openai/gpt-5.1";
                         Upstream.messages := JS.Arr [JS.Obj [("role", JS.Str "user");
                                                              ("content", JS.Str "hello")]];
                         Upstream.max_tokens := JS.Num 4000;
                         Upstream.temperature := Some (7 # 10)%Q |};
     Upstream.signal := false |}.

(** A 200 answer of ten characters. *)
Definition ten_chars : Upstream.response :=
  {| Upstream.status := 200; Upstream.text := "{ok: true}" |}.

Definition roomy_job : Store.job :=
  Store.new_job 2 8 "prompt2"
    (JS.Obj [("messages", JS.Arr []); ("max_tokens", JS.Num (inject_Z 8000))]).

(** * Vocabulary of the further properties *)

(** The keys that have a default. *)
Definition default_keys : list string :=
  ["PROMPT1_MODEL"; "PROMPT1_TEMPERATURE"; "PROMPT2_MODEL"; "PROMPT2_TEMPERATURE";
   "REPORT_TEMPLATE_MODEL"; "REPORT_TEMPLATE_TEMPERATURE"].

(** The entry of the configuration for a job type. *)
Definition entry_for (cfg : Config.config) (job_type : string) : Config.step_config :=
  if String.eqb job_type "prompt1" then Config.prompt1 cfg
  else if String.eqb job_type "prompt2" then Config.prompt2 cfg
  else Config.reportTemplate cfg.

(** A prompt directory in which every step file holds [content]. *)
Definition disk_with (content : string) : Prompts.files :=
  {| Prompts.dirname := "/app";
     Prompts.join := fun a b => a +:+ "/" +:+ b;
     Prompts.existsSync := fun _ => true;
     Prompts.readFileSync := fun _ => inr content |}.

(** A prompt directory with no file. *)
Definition empty_disk : Prompts.files :=
  {| Prompts.dirname := "/app";
     Prompts.join := fun a b => a +:+ "/" +:+ b;
     Prompts.existsSync := fun _ => false;
     Prompts.readFileSync := fun _ => inl (JS.Error "ENOENT") |}.

(** The rows of a table that are pending, and those that are processing. *)
Definition pending_count (t : Store.table) : nat :=
  length (List.filter is_pending (Store.rows t)).

Definition is_processing (k : Store.job) : bool :=
  Store.status_eqb (Store.status k) Store.processing.

(** How far a status is along pending, processing, terminal. *)
Definition rank (s : Store.job_status) : nat :=
  match s with
  | Store.pending => 0
  | Store.processing => 1
  | Store.completed | Store.failed => 2
  end.

(** The text the database stores for a result. *)
Definition result_text (h : host) (v : JS.value) : string :=
  match v with
  | JS.Str s => s
  | _ => pg_text h v
  end.

(** The messages the proxy can answer an error with. *)
Definition proxy_messages : list string :=
  ["Missing step parameter. Must be one of: prompt1, prompt2, report_template";
   "OpenRouter API key not configured. Please contact the administrator.";
   "OpenRouter API error. Please try again or contact support if the issue persists.";
   "Request timeout - the response took too long to generate. Please try again or use a smaller prompt.";
   "Failed to process request. Please try again or contact support if the issue persists."].

(** [n] polls, 3000 ms apart. *)
Fixpoint polls (n : nat) : list Client.event :=
  match n with
  | O => []
  | S O => [Client.Poll]
  | S n' => Client.Poll :: Client.Wait 3000 :: polls n'
  end.

(** A text reader for ids: decimal digits only. *)
Fixpoint digits (s : string) (acc : Z) : option Z :=
  match s with
  | EmptyString => Some acc
  | String c s' =>
      let n := Z.of_nat (nat_of_ascii c) in
      if ((48 <=? n) && (n <=? 57))%bool then digits s' (10 * acc + (n - 48)) else None
  end.

Definition demo_int4in (s : string) : option Z :=
  match s with
  | EmptyString => None
  | _ => digits s 0
  end.

(** What the prompt file of a step holds on the disk, if it can be read. *)
Definition read_disk (f : Prompts.files) (stepName : string) : option string :=
  let filePath := Prompts.join f (Prompts.PROMPTS_DIR f) (stepName +:+ ".md") in
  if Prompts.existsSync f filePath then
    match Prompts.readFileSync f filePath with
    | inr content => Some content
    | inl _ => None
    end
  else None.

(** A runtime whose [JSON.parse] reads every body as an answer with a
    null content. *)
Definition null_reply : JS.value :=
  JS.Obj [("choices",
           JS.Arr [JS.Obj [("message",
                            JS.Obj [("role", JS.Str "assistant"); ("content", JS.Null)])]])].

Definition null_host : host :=
  {| parseFloat := parseFloat demo_host;
     JSON_parse := fun _ => inr null_reply;
     pg_text := pg_text demo_host;
     jsonb_in := jsonb_in demo_host;
     text_in := text_in demo_host |}.

(** What one turn of the proxy's loop yields from what [fetch] met, and
    the reply that ends the loop there, if the turn ends it. *)
Definition proxy_turn (h : host) (f : Upstream.fetched) : JS.error + Proxy.reply :=
  match f with
  | Upstream.Rejects e => inl e
  | Upstream.Responds r => Proxy.read_response h r
  end.

Definition final_reply (x : JS.error + Proxy.reply) : option Proxy.reply :=
  match x with
  | inr a => Some a
  | inl e => if Proxy.is_abort e then Some Proxy.timeout_reply else None
  end.

(** An upstream that cannot be reached once and then answers 429. *)
Definition busy_up : Upstream.endpoint :=
  fun n =>
    if (n <? 1)%nat then Upstream.Rejects (JS.TypeError "fetch failed")
    else Upstream.Responds {| Upstream.status := 429; Upstream.text := "slow down" |}.

(** [k'] is what the row [k] has become: the same job, no further back in
    its life. *)
Definition advances (k k' : Store.job) : Prop :=
  Store.id k' = Store.id k /\ Store.job_type k' = Store.job_type k /\
  Store.input_data k' = Store.input_data k /\ Store.created_at k' = Store.created_at k /\
  (rank (Store.status k) <= rank (Store.status k'))%nat.

(** The two ways the background jobs can stand: no timer at all, or the
    worker every 5 s and the sweep every hour, under the handles the
    closure has kept. *)
Definition stopped (s : Background.state) : Prop :=
  Background.live (Background.clock s) = [] /\
  Background.jobProcessingInterval s = None /\ Background.jobCleanupInterval s = None.

Definition running (s : Background.state) : Prop :=
  exists handle,
    Background.live (Background.clock s)
    = [(handle, (Background.ProcessNextJob, 5000));
       (S handle, (Background.CleanupOldJobs, 3600000))] /\
    Background.jobProcessingInterval s = Some handle /\
    Background.jobCleanupInterval s = Some (S handle).

(** What every state of the closure satisfies. *)
Definition timers_ok (e : bool) (s : Background.state) : Prop :=
  Background.enableJobProcessor s = e /\
  Background.next_handle (Background.clock s) = (2 * Background.immediate s)%nat /\
  (stopped s \/
   (e = true /\ running s /\
    exists handle, Background.jobProcessingInterval s = Some handle /\
                   Background.next_handle (Background.clock s) = S (S handle))) /\
  (e = false -> stopped s /\ Background.immediate s = 0%nat).

(** A server on which the job never leaves the queue. *)
Definition always_pending : Client.server :=
  fun _ => Client.Body (JS.Obj [("status", JS.Str "pending")]).

(** A server on which the job is pending at the first poll and completed
    at the second. *)
Definition settling : Client.server :=
  fun n =>
    if (n <? 1)%nat then Client.Body (JS.Obj [("status", JS.Str "pending")])
    else Client.Body (JS.Obj [("status", JS.Str "completed"); ("result", JS.Str "plan")]).

(** The text has a character that is not white space. *)
Definition has_text (s : string) : bool :=
  existsb (fun c => negb (JS.is_space c)) (list_ascii_of_string s).

(** * Properties *)

(** ** The table statements *)

Section StoreFacts.
Import Store.

Lemma status_eqb_eq (a b : job_status) : status_eqb a b = true <-> a = b.
Proof. destruct a, b; simpl; split; intros H; try reflexivity; discriminate H. Qed.

Lemma oldest_nil (l : list job) : oldest l = None -> l = [].
Proof.
  destruct l as [|j l]; [reflexivity|].
  simpl. destruct (oldest l); [destruct (_ <=? _)|]; discriminate.
Qed.

Lemma oldest_min (l : list job) (j : job) :
  oldest l = Some j ->
  In j l /\ forall k, In k l -> created_at j <= created_at k.
Proof.
  revert j. induction l as [|a l IH]; intros j H; [discriminate H|].
  simpl in H. destruct (oldest l) as [k|] eqn:E.
  - destruct (IH k eq_refl) as [Hin Hmin].
    destruct (created_at a <=? created_at k) eqn:C; injection H as <-.
    + apply Z.leb_le in C. split; [left; reflexivity|].
      intros x [<-|Hx]; [lia|]. specialize (Hmin x Hx). lia.
    + apply Z.leb_gt in C. split; [right; exact Hin|].
      intros x [<-|Hx]; [lia|]. apply Hmin, Hx.
  - injection H as <-. apply oldest_nil in E. subst l.
    split; [left; reflexivity|]. intros x [<-|[]]. lia.
Qed.

Lemma selectable_iff (locked : Z -> bool) (j : job) :
  selectable locked j = true <-> status j = pending /\ locked (id j) = false.
Proof.
  unfold selectable. rewrite andb_true_iff, status_eqb_eq, negb_true_iff. tauto.
Qed.

Lemma select_some (locked : Z -> bool) (l : list job) (j : job) :
  select_next_pending locked l = Some j ->
  In j l /\ status j = pending /\ locked (id j) = false /\
  forall k, In k l -> status k = pending -> locked (id k) = false ->
            created_at j <= created_at k.
Proof.
  unfold select_next_pending. intros H.
  destruct (oldest_min _ _ H) as [Hin Hmin].
  apply filter_In in Hin. destruct Hin as [Hin Hsel].
  apply selectable_iff in Hsel. destruct Hsel as [Hp Hl].
  repeat split; try assumption.
  intros k Hk Hkp Hkl. apply Hmin. apply filter_In. split; [exact Hk|].
  apply selectable_iff. split; assumption.
Qed.

Lemma select_none (locked : Z -> bool) (l : list job) :
  select_next_pending locked l = None ->
  forall k, In k l -> status k = pending -> locked (id k) = true.
Proof.
  unfold select_next_pending. intros H k Hk Hp.
  apply oldest_nil in H.
  destruct (locked (id k)) eqn:E; [reflexivity|].
  assert (Hin : In k (List.filter (selectable locked) l)).
  { apply filter_In. split; [exact Hk|]. apply selectable_iff. split; assumption. }
  rewrite H in Hin. destruct Hin.
Qed.

Lemma update_where_id_ids (f : job -> job) (i : Z) (l : list job) :
  (forall j, id (f j) = id j) ->
  List.map id (update_where_id f i l) = List.map id l.
Proof.
  intros Hf. unfold update_where_id. rewrite List.map_map.
  apply List.map_ext. intros j. destruct (id j =? i); [apply Hf|reflexivity].
Qed.

Lemma update_where_id_in (f : job -> job) (i : Z) (l : list job) (j : job) :
  In j l -> id j = i -> In (f j) (update_where_id f i l).
Proof.
  intros Hin Hid. unfold update_where_id. apply in_map_iff.
  exists j. split; [|exact Hin]. rewrite Hid, Z.eqb_refl. reflexivity.
Qed.

Lemma update_where_id_other (f : job -> job) (i : Z) (l : list job) (j : job) :
  In j l -> id j <> i -> In j (update_where_id f i l).
Proof.
  intros Hin Hid. unfold update_where_id. apply in_map_iff.
  exists j. split; [|exact Hin]. apply Z.eqb_neq in Hid. rewrite Hid. reflexivity.
Qed.

Lemma update_where_id_inv (f : job -> job) (i : Z) (l : list job) (k : job) :
  In k (update_where_id f i l) ->
  (In k l /\ id k <> i) \/ (exists j, In j l /\ id j = i /\ k = f j).
Proof.
  unfold update_where_id. intros H. apply in_map_iff in H.
  destruct H as [j [Hk Hj]]. destruct (id j =? i) eqn:E.
  - right. exists j. apply Z.eqb_eq in E. repeat split; [exact Hj|exact E|symmetry; exact Hk].
  - left. subst k. apply Z.eqb_neq in E. split; assumption.
Qed.

Lemma update_where_id_rest (f : job -> job) (i : Z) (l : list job) :
  (forall j, id (f j) = id j) ->
  List.filter (fun k => negb (id k =? i)) (update_where_id f i l)
  = List.filter (fun k => negb (id k =? i)) l.
Proof.
  intros Hf. induction l as [|a l IH]; [reflexivity|].
  simpl. destruct (id a =? i) eqn:E.
  - rewrite Hf, E. simpl. exact IH.
  - rewrite E. simpl. rewrite IH. reflexivity.
Qed.

Lemma update_where_id_absent (f : job -> job) (i : Z) (l : list job) :
  (forall j, In j l -> id j <> i) -> update_where_id f i l = l.
Proof.
  intros H. unfold update_where_id. rewrite <- (List.map_id l) at 2.
  apply List.map_ext_in. intros j Hj. apply H, Z.eqb_neq in Hj. rewrite Hj. reflexivity.
Qed.

End StoreFacts.

(** C8. The locking SELECT returns a pending row that no open
    transaction has locked and that no other such row precedes in
    creation time, and returns nothing only when every pending row is
    locked. The claim transaction, run with no other transaction open,
    takes a pending job that no pending job precedes and flips that row to
    processing, leaving the rest of the table as it was; when no job is
    pending it returns none and the table is unchanged. *)
Theorem claim_takes_oldest_pending (t : Store.table) :
  (forall locked,
     match Store.select_next_pending locked (Store.rows t) with
     | Some j =>
         In j (Store.rows t) /\ Store.status j = Store.pending /\
         locked (Store.id j) = false /\
         forall k, In k (Store.rows t) -> Store.status k = Store.pending ->
                   locked (Store.id k) = false ->
                   Store.created_at j <= Store.created_at k
     | None =>
         forall k, In k (Store.rows t) -> Store.status k = Store.pending ->
                   locked (Store.id k) = true
     end) /\
  match Store.claim t with
  | (Some j, t') =>
      In j (Store.rows t) /\ Store.status j = Store.pending /\
      (forall k, In k (Store.rows t) -> Store.status k = Store.pending ->
                 Store.created_at j <= Store.created_at k) /\
      In (Store.mark_processing j) (Store.rows t') /\
      Store.status (Store.mark_processing j) = Store.processing /\
      List.map Store.id (Store.rows t') = List.map Store.id (Store.rows t) /\
      List.filter (fun k => negb (Store.id k =? Store.id j)) (Store.rows t')
      = List.filter (fun k => negb (Store.id k =? Store.id j)) (Store.rows t) /\
      Store.jobs_id_seq t' = Store.jobs_id_seq t
  | (None, t') =>
      t' = t /\ forall k, In k (Store.rows t) -> Store.status k <> Store.pending
  end.
Proof.
  split.
  { intros locked.
    destruct (Store.select_next_pending locked (Store.rows t)) as [j|] eqn:E.
    - apply select_some, E.
    - apply select_none, E. }
  unfold Store.claim.
  destruct (Store.select_next_pending Store.unlocked (Store.rows t)) as [j|] eqn:E.
  - destruct (select_some _ _ _ E) as (Hin & Hp & _ & Hmin).
    repeat split; try assumption.
    + intros k Hk Hkp. apply Hmin; [exact Hk|exact Hkp|reflexivity].
    + simpl. apply update_where_id_in; [exact Hin|reflexivity].
    + simpl. apply update_where_id_ids. reflexivity.
    + simpl. apply update_where_id_rest. reflexivity.
  - split; [reflexivity|]. intros k Hk Hp.
    pose proof (select_none _ _ E k Hk Hp) as H. discriminate H.
Qed.

(** ** The retention sweep *)

Lemma old_terminal_iff (cutoff : Z) (j : Store.job) :
  Store.old_terminal cutoff j = true <-> expired cutoff j.
Proof.
  unfold Store.old_terminal, expired, terminal.
  rewrite andb_true_iff, orb_true_iff, !status_eqb_eq.
  destruct (Store.completed_at j) as [c|].
  - rewrite Z.ltb_lt. split.
    + intros [H1 H2]. split; [exact H1|]. exists c. split; [reflexivity|exact H2].
    + intros [H1 [c' [Hc Hlt]]]. injection Hc as <-. split; assumption.
  - split.
    + intros [_ H]. discriminate H.
    + intros [_ [c [Hc _]]]. discriminate Hc.
Qed.

Lemma sweep_fixpoint (cutoff : Z) (l : list Store.job) :
  List.filter (Store.old_terminal cutoff)
    (List.filter (fun j => negb (Store.old_terminal cutoff j)) l) = [].
Proof.
  induction l as [|a l IH]; [reflexivity|].
  simpl. destruct (Store.old_terminal cutoff a) eqn:E; simpl; [exact IH|].
  rewrite E. exact IH.
Qed.

Lemma filter_negb_idem {A : Type} (p : A -> bool) (l : list A) :
  List.filter (fun x => negb (p x)) (List.filter (fun x => negb (p x)) l)
  = List.filter (fun x => negb (p x)) l.
Proof.
  induction l as [|a l IH]; [reflexivity|].
  simpl. destruct (p a) eqn:E; simpl; [exact IH|]. rewrite E. simpl. rewrite IH. reflexivity.
Qed.

Lemma filter_split_length {A : Type} (p : A -> bool) (l : list A) :
  (length (List.filter p l) + length (List.filter (fun x => negb (p x)) l))%nat = length l.
Proof.
  induction l as [|a l IH]; [reflexivity|].
  simpl. destruct (p a); simpl; lia.
Qed.

(** C9, as stated, fails: a second sweep that runs one millisecond after
    the first, with no change to any job in between, deletes the job
    whose completion time the cutoff has passed meanwhile. *)
Lemma second_sweep_deletes_again :
  fst (Sweeper.cleanupOldJobs 21601000 aged_table) = [] /\
  fst (Sweeper.cleanupOldJobs 21601001 (snd (Sweeper.cleanupOldJobs 21601000 aged_table))) = [1].
Proof. split; reflexivity. Qed.

(** C9, amended. The sweep run at [now] deletes exactly the completed or
    failed jobs whose completion time is before [now] minus six hours,
    returns their ids, and keeps every pending or processing job; a
    second sweep at the same clock reading deletes nothing. *)
Theorem sweep_deletes_expired_only (now : Z) (t : Store.table) :
  let cutoff := now - 21600000 in
  let gone := fst (Sweeper.cleanupOldJobs now t) in
  let t' := snd (Sweeper.cleanupOldJobs now t) in
  (forall j, In j (Store.rows t') <-> In j (Store.rows t) /\ ~ expired cutoff j) /\
  (forall i, In i gone <-> exists j, In j (Store.rows t) /\ Store.id j = i /\ expired cutoff j) /\
  (length gone + length (Store.rows t'))%nat = length (Store.rows t) /\
  (forall j, In j (Store.rows t) ->
             Store.status j = Store.pending \/ Store.status j = Store.processing ->
             In j (Store.rows t')) /\
  Sweeper.cleanupOldJobs now t' = ([], t').
Proof.
  cbv zeta. unfold Sweeper.cleanupOldJobs, Store.delete_old_terminal. simpl.
  replace (now - 6 * 60 * 60 * 1000) with (now - 21600000) by lia.
  set (cutoff := now - 21600000).
  refine (conj _ (conj _ (conj _ (conj _ _)))).
  - intros j. rewrite filter_In, negb_true_iff, <- old_terminal_iff.
    destruct (Store.old_terminal cutoff j); intuition congruence.
  - intros i. rewrite in_map_iff. split.
    + intros [j [Hid Hj]]. apply filter_In in Hj. destruct Hj as [Hin Hold].
      exists j. split; [exact Hin|]. split; [exact Hid|]. apply old_terminal_iff, Hold.
    + intros [j [Hin [Hid He]]]. exists j. split; [exact Hid|].
      apply filter_In. split; [exact Hin|]. apply old_terminal_iff, He.
  - rewrite length_map. apply filter_split_length.
  - intros j Hin Hst. apply filter_In. split; [exact Hin|].
    apply negb_true_iff. unfold Store.old_terminal.
    destruct Hst as [-> | ->]; reflexivity.
  - rewrite sweep_fixpoint, filter_negb_idem. reflexivity.
Qed.

(** ** Submission *)




(** ** The worker's retry loop *)

Section WorkerFacts.
Import Upstream.
Variables (h : host) (c : call) (up : endpoint).

(** The loop, one turn unrolled. *)
Lemma retry_unfold (n : nat) :
  Worker.retry h c up n =
  if lt_dec n maxRetries then
    match Worker.read_completion h (up n) with
    | inr result => (inr result, backoff n ++ [Fetch c])
    | inl fetchError =>
        if le_dec maxRetries (S n) then (inl fetchError, backoff n ++ [Fetch c])
        else (fst (Worker.retry h c up (S n)),
              backoff n ++ [Fetch c] ++ snd (Worker.retry h c up (S n)))
    end
  else (inr JS.Undefined, []).
Proof.
  set (next := Worker.retry h c up (S n)).
  rewrite Worker.retry_equation_1. subst next.
  destruct (lt_dec n maxRetries); simpl; [|reflexivity].
  destruct (Worker.read_completion h (up n)); simpl; [|reflexivity].
  destruct (le_dec maxRetries (S n)); simpl; reflexivity.
Qed.

(** The whole loop, from [retries = 0]. *)
Lemma retry_from_start :
  Worker.retry h c up 0 =
  match Worker.read_completion h (up 0%nat) with
  | inr v => (inr v, [Fetch c])
  | inl _ =>
      match Worker.read_completion h (up 1%nat) with
      | inr v => (inr v, [Fetch c; Sleep 2000; Fetch c])
      | inl _ =>
          match Worker.read_completion h (up 2%nat) with
          | inr v => (inr v, [Fetch c; Sleep 2000; Fetch c; Sleep 4000; Fetch c])
          | inl e => (inl e, [Fetch c; Sleep 2000; Fetch c; Sleep 4000; Fetch c])
          end
      end
  end.
Proof.
  rewrite (retry_unfold 0). simpl.
  destruct (Worker.read_completion h (up 0%nat)); [|reflexivity].
  rewrite (retry_unfold 1). simpl.
  destruct (Worker.read_completion h (up 1%nat)); [|reflexivity].
  rewrite (retry_unfold 2). simpl.
  destruct (Worker.read_completion h (up 2%nat)); reflexivity.
Qed.

(** The three shapes the loop's trace can take. *)
Lemma retry_trace_shapes :
  let tr := snd (Worker.retry h c up 0) in
  tr = [Fetch c] \/
  tr = [Fetch c; Sleep 2000; Fetch c] \/
  tr = [Fetch c; Sleep 2000; Fetch c; Sleep 4000; Fetch c].
Proof.
  cbv zeta. rewrite retry_from_start.
  destruct (Worker.read_completion h (up 0%nat)); [|left; reflexivity].
  destruct (Worker.read_completion h (up 1%nat)); [|right; left; reflexivity].
  destruct (Worker.read_completion h (up 2%nat)); right; right; reflexivity.
Qed.

End WorkerFacts.

Lemma build_request_budget (h : host) (env : environment) (job : Store.job) (c : Upstream.call) :
  Worker.build_request h env job = inr c ->
  exists v, JS.get (Store.input_data job) (JS.KName "max_tokens") = inr v /\
            Upstream.max_tokens (Upstream.body c) = JS.or_else v (JS.Num 4000) /\
            Upstream.signal c = false.
Proof.
  unfold Worker.build_request.
  destruct (Settings.getOpenRouterApiKey env) as [key|]; [|discriminate].
  destruct (JS.get (Store.input_data job) (JS.KName "messages")) as [e|msgs]; [discriminate|].
  simpl. destruct (JS.get (Store.input_data job) (JS.KName "max_tokens")) as [e|v];
    [discriminate|].
  simpl. intros H. injection H as <-. exists v. repeat split.
Qed.

Lemma run_job_fetches (h : host) (env : environment) (up : Upstream.endpoint)
  (job : Store.job) (c : Upstream.call) :
  In (Upstream.Fetch c) (snd (Worker.run_job h env up job)) ->
  Worker.build_request h env job = inr c.
Proof.
  unfold Worker.run_job.
  destruct (Worker.build_request h env job) as [e|c']; simpl; [intros []|].
  intros Hin. f_equal.
  destruct (retry_trace_shapes h c' up) as [E|[E|E]]; rewrite E in Hin; simpl in Hin;
    repeat (destruct Hin as [Hin|Hin]; [congruence|]); destruct Hin.
Qed.

Lemma record_outcome_rows (h : host) (o : Worker.outcome) (now i : Z) (t : Store.table) :
  Worker.finish h o now i t
  = match written h o with
    | Some o' => Store.with_rows t (Store.update_where_id (settle_row o' now) i (Store.rows t))
    | None => t
    end.
Proof.
  unfold Worker.finish, Worker.record_outcome, Worker.complete_job, Worker.fail_job, written.
  destruct o as [r|msg]; simpl.
  - destruct (text_in h r) as [e|]; simpl; [|reflexivity].
    destruct (text_in h (JS.message e)); reflexivity.
  - destruct (text_in h msg); reflexivity.
Qed.

Lemma written_accepted (h : host) (o : Worker.outcome) :
  text_in h (outcome_text o) = None -> written h o = Some o.
Proof. unfold written. intros ->. reflexivity. Qed.

(** What the last UPDATEs leave of the table: the settled rows for the
    outcome that was written, or the table as it was. *)
Lemma finish_cases (h : host) (o : Worker.outcome) (now i : Z) (t : Store.table) :
  Worker.finish h o now i t = t \/
  exists o', written h o = Some o' /\
             Worker.finish h o now i t
             = Store.with_rows t (Store.update_where_id (settle_row o' now) i (Store.rows t)).
Proof.
  rewrite record_outcome_rows. destruct (written h o) as [o'|]; [|left; reflexivity].
  right. exists o'. split; reflexivity.
Qed.

(** The table a tick leaves when it has claimed [job]. *)
Lemma processNextJob_rows (h : host) (env : environment) (up : Upstream.endpoint)
  (now : Z) (t : Store.table) (job : Store.job) :
  fst (Store.claim t) = Some job ->
  fst (Worker.processNextJob h env up now t)
  = match written h (fst (Worker.run_job h env up job)) with
    | Some o' =>
        Store.with_rows t
          (Store.update_where_id (settle_row o' now) (Store.id job)
             (Store.update_where_id Store.mark_processing (Store.id job) (Store.rows t)))
    | None => Store.update_processing (Store.id job) t
    end.
Proof.
  unfold Worker.processNextJob, Store.claim.
  destruct (Store.select_next_pending Store.unlocked (Store.rows t)) as [x|]; simpl;
    [|discriminate].
  intros H. injection H as ->. rewrite record_outcome_rows.
  destruct (written h (fst (Worker.run_job h env up job))); reflexivity.
Qed.

Lemma processNextJob_records (h : host) (env : environment) (up : Upstream.endpoint)
  (now : Z) (t : Store.table) (job : Store.job) (o : Worker.outcome) :
  fst (Store.claim t) = Some job ->
  written h (fst (Worker.run_job h env up job)) = Some o ->
  In (settled_row o now job) (Store.rows (fst (Worker.processNextJob h env up now t))) /\
  forall k, In k (Store.rows (fst (Worker.processNextJob h env up now t))) ->
            Store.id k = Store.id job ->
            exists k0, In k0 (Store.rows t) /\ Store.id k0 = Store.id job /\
                       k = settled_row o now k0.
Proof.
  intros Hc Hw. rewrite (processNextJob_rows h env up now t job Hc), Hw. simpl.
  unfold Store.claim in Hc.
  destruct (Store.select_next_pending Store.unlocked (Store.rows t)) as [j|] eqn:E;
    simpl in Hc; [|discriminate].
  injection Hc as ->. destruct (select_some _ _ _ E) as (Hin & _). split.
  - apply (update_where_id_in (settle_row o now) _ _ (Store.mark_processing job));
      [|reflexivity].
    apply (update_where_id_in Store.mark_processing _ _ job Hin). reflexivity.
  - intros k Hk Hid. apply update_where_id_inv in Hk.
    destruct Hk as [[_ Hne]|(x & Hx & _ & ->)]; [contradiction|].
    apply update_where_id_inv in Hx.
    destruct Hx as [[_ Hne]|(k0 & Hk0 & Hid0 & ->)].
    + exfalso. apply Hne. destruct o; exact Hid.
    + exists k0. repeat split; assumption.
Qed.

(** C5, as stated, fails. Three answers with an error status whose body
    holds a NUL exhaust the attempts, the database refuses the message of
    the last error, and the job is not failed: its row stays processing.
    And a third attempt that succeeds with a null content, after two that
    failed, does not complete the job: it is failed. *)
Lemma last_error_is_not_always_stored :
  (fst (Worker.run_job demo_host demo_env nul_up demo_job)
   = Worker.Failed ("OpenRouter API error: 500 - " +:+ nul_text) /\
   attempts (snd (Worker.run_job demo_host demo_env nul_up demo_job)) = 3%nat /\
   Store.rows (fst (Worker.processNextJob demo_host demo_env nul_up 9 (Queue.db demo_s1)))
   = [{| Store.id := 1; Store.job_type := "prompt1"; Store.status := Store.processing;
         Store.input_data := demo_input; Store.result_data := None; Store.error := None;
         Store.created_at := 7; Store.completed_at := None |}]) /\
  (attempts (snd (Worker.run_job null_host demo_env flaky_up demo_job)) = 3%nat /\
   Store.rows (fst (Worker.processNextJob null_host demo_env flaky_up 9 (Queue.db demo_s1)))
   = [{| Store.id := 1; Store.job_type := "prompt1"; Store.status := Store.failed;
         Store.input_data := demo_input; Store.result_data := None;
         Store.error := Some "Cannot read properties of null (reading 'length')"%string;
         Store.created_at := 7; Store.completed_at := Some 9 |}]).
Proof. vm_compute. repeat split. Qed.

(** C5, amended. The worker calls the upstream at most three times for a
    job. It waits nothing before the first call, 2000 ms before the second
    and 4000 ms before the third. When all three attempts fail, the run
    ends with the message of the third error; when the first two fail and
    the third yields a content that is neither null nor undefined, it ends
    with that content as its result. When the database takes the text,
    the row of the job becomes failed with that message as its error, or
    completed with that result, and with the time of the update as its
    completion time, its other columns as they were; when the database
    refuses the message of a failure the row stays processing. *)
Theorem worker_retry_policy (h : host) (env : environment) (up : Upstream.endpoint)
  (job : Store.job) :
  let run := Worker.run_job h env up job in
  let answer n := Worker.read_completion h (up n) in
  (attempts (snd run) <= 3)%nat /\
  (forall c, Worker.build_request h env job = inr c ->
     let F := Upstream.Fetch c in
     (snd run = [F] \/
      snd run = [F; Upstream.Sleep 2000; F] \/
      snd run = [F; Upstream.Sleep 2000; F; Upstream.Sleep 4000; F]) /\
     (forall e0 e1 e2,
        answer 0%nat = inl e0 -> answer 1%nat = inl e1 -> answer 2%nat = inl e2 ->
        run = (Worker.Failed (JS.message e2),
               [F; Upstream.Sleep 2000; F; Upstream.Sleep 4000; F])) /\
     (forall e0 e1 v,
        answer 0%nat = inl e0 -> answer 1%nat = inl e1 -> answer 2%nat = inr v ->
        snd run = [F; Upstream.Sleep 2000; F; Upstream.Sleep 4000; F] /\
        (v <> JS.Null -> v <> JS.Undefined -> fst run = Worker.Completed (result_text h v)) /\
        (forall s, v = JS.Str s -> fst run = Worker.Completed s))) /\
  (forall t now, fst (Store.claim t) = Some job ->
     let t' := fst (Worker.processNextJob h env up now t) in
     (forall msg, fst run = Worker.Failed msg -> text_in h msg = None ->
        In {| Store.id := Store.id job; Store.job_type := Store.job_type job;
              Store.status := Store.failed; Store.input_data := Store.input_data job;
              Store.result_data := Store.result_data job; Store.error := Some msg;
              Store.created_at := Store.created_at job; Store.completed_at := Some now |}
           (Store.rows t') /\
        forall k, In k (Store.rows t') -> Store.id k = Store.id job ->
                  Store.status k = Store.failed /\ Store.error k = Some msg /\
                  Store.completed_at k = Some now) /\
     (forall result, fst run = Worker.Completed result -> text_in h result = None ->
        In {| Store.id := Store.id job; Store.job_type := Store.job_type job;
              Store.status := Store.completed; Store.input_data := Store.input_data job;
              Store.result_data := Some result; Store.error := Store.error job;
              Store.created_at := Store.created_at job; Store.completed_at := Some now |}
           (Store.rows t') /\
        forall k, In k (Store.rows t') -> Store.id k = Store.id job ->
                  Store.status k = Store.completed /\ Store.result_data k = Some result /\
                  Store.completed_at k = Some now) /\
     (forall msg e, fst run = Worker.Failed msg -> text_in h msg = Some e ->
        t' = snd (Store.claim t) /\
        In {| Store.id := Store.id job; Store.job_type := Store.job_type job;
              Store.status := Store.processing; Store.input_data := Store.input_data job;
              Store.result_data := Store.result_data job; Store.error := Store.error job;
              Store.created_at := Store.created_at job;
              Store.completed_at := Store.completed_at job |}
           (Store.rows t'))).
Proof.
  cbv zeta. refine (conj _ (conj _ _)).
  - unfold Worker.run_job.
    destruct (Worker.build_request h env job) as [e|c]; simpl; [unfold attempts; simpl; lia|].
    destruct (retry_trace_shapes h c up) as [E|[E|E]]; rewrite E; unfold attempts; simpl; lia.
  - intros c Hc. unfold Worker.run_job. rewrite Hc. simpl.
    refine (conj _ (conj _ _)).
    + apply retry_trace_shapes.
    + intros e0 e1 e2 H0 H1 H2. rewrite retry_from_start, H0, H1, H2. reflexivity.
    + intros e0 e1 v H0 H1 H2. rewrite retry_from_start, H0, H1, H2. simpl.
      split; [reflexivity|]. split.
      * intros N1 N2. destruct v; try reflexivity; contradiction.
      * intros s ->. reflexivity.
  - intros t now Hclaim. refine (conj _ (conj _ _)).
    + intros msg Hrun Hok.
      destruct (processNextJob_records h env up now t job (Worker.Failed msg) Hclaim) as [Hin Hall].
      { rewrite Hrun. apply written_accepted. exact Hok. }
      split; [exact Hin|]. intros k Hk Hid.
      destruct (Hall k Hk Hid) as (k0 & _ & _ & ->). repeat split.
    + intros result Hrun Hok.
      destruct (processNextJob_records h env up now t job (Worker.Completed result) Hclaim)
        as [Hin Hall].
      { rewrite Hrun. apply written_accepted. exact Hok. }
      split; [exact Hin|]. intros k Hk Hid.
      destruct (Hall k Hk Hid) as (k0 & _ & _ & ->). repeat split.
    + intros msg e Hrun Hrefused.
      rewrite (processNextJob_rows h env up now t job Hclaim), Hrun.
      unfold written. simpl. rewrite Hrefused.
      unfold Store.claim in *.
      destruct (Store.select_next_pending Store.unlocked (Store.rows t)) as [j|] eqn:E;
        simpl in Hclaim; [|discriminate].
      injection Hclaim as ->. simpl. split; [reflexivity|].
      destruct (select_some _ _ _ E) as (Hin & _).
      apply (update_where_id_in Store.mark_processing _ _ job Hin). reflexivity.
Qed.


(** ** The per-attempt timeout *)

Section ProxyFacts.
Import Upstream.
Variables (h : host) (c : call) (up : endpoint).

Lemma proxy_retry_unfold (n : nat) :
  Proxy.retry h c up n =
  if lt_dec n maxRetries then
    match Proxy.attempt h c up n with
    | (inr answer, trace) => (inr answer, trace)
    | (inl fetchError, trace) =>
        if Proxy.is_abort fetchError then (inr Proxy.timeout_reply, trace ++ [ClearTimer])
        else if le_dec maxRetries (S n) then (inl fetchError, trace ++ [ClearTimer])
        else (fst (Proxy.retry h c up (S n)),
              trace ++ [ClearTimer] ++ snd (Proxy.retry h c up (S n)))
    end
  else (inl (JS.Error "Unknown error occurred"), []).
Proof.
  set (next := Proxy.retry h c up (S n)).
  rewrite Proxy.retry_equation_1. subst next.
  destruct (lt_dec n maxRetries); simpl; [|reflexivity].
  destruct (Proxy.attempt h c up n) as [[e|a] tr]; simpl; [|reflexivity].
  destruct (Proxy.is_abort e); simpl; [reflexivity|].
  destruct (le_dec maxRetries (S n)); simpl; reflexivity.
Qed.

(** An attempt of the proxy arms the timer first and calls under it. *)
Lemma proxy_attempt_trace (n : nat) :
  exists tail, snd (Proxy.attempt h c up n)
               = SetAbortTimer 300000 :: backoff n ++ Fetch c :: tail /\
               (tail = [] \/ tail = [ClearTimer]).
Proof.
  unfold Proxy.attempt. destruct (up n); simpl.
  - exists []. split; [reflexivity|left; reflexivity].
  - exists [ClearTimer]. split; [|right; reflexivity].
    rewrite <- app_assoc. reflexivity.
Qed.

Lemma proxy_attempt_guarded (n : nat) (b : bool) (rest : list event) :
  signal c = true ->
  under_timeout_from b (snd (Proxy.attempt h c up n) ++ ClearTimer :: rest)
  = under_timeout_from false rest.
Proof.
  intros Hs. destruct (proxy_attempt_trace n) as [tail [-> Htail]].
  unfold backoff. destruct (0 <? n)%nat; simpl; rewrite Hs; simpl;
    destruct Htail as [-> | ->]; reflexivity.
Qed.

Lemma proxy_retry_guarded (k n : nat) (b : bool) :
  signal c = true -> (maxRetries - n <= k)%nat ->
  under_timeout_from b (snd (Proxy.retry h c up n)) = true.
Proof.
  intros Hs. revert n b. induction k as [|k IH]; intros n b Hk;
    rewrite proxy_retry_unfold; destruct (lt_dec n maxRetries); try lia; try reflexivity.
  destruct (Proxy.attempt h c up n) as [[e|a] tr] eqn:E.
  - assert (Htr : tr = snd (Proxy.attempt h c up n)) by (rewrite E; reflexivity).
    destruct (Proxy.is_abort e); [|destruct (le_dec maxRetries (S n))]; simpl snd.
    + rewrite Htr, proxy_attempt_guarded by exact Hs. reflexivity.
    + rewrite Htr, proxy_attempt_guarded by exact Hs. reflexivity.
    + rewrite Htr. change ([ClearTimer] ++ ?l) with (ClearTimer :: l).
      rewrite proxy_attempt_guarded by exact Hs. apply IH. lia.
  - simpl snd. assert (Htr : tr = snd (Proxy.attempt h c up n)) by (rewrite E; reflexivity).
    rewrite Htr. destruct (proxy_attempt_trace n) as [tail [-> Htail]].
    unfold backoff. destruct (0 <? n)%nat; simpl; rewrite Hs; simpl;
      destruct Htail as [-> | ->]; reflexivity.
Qed.

Lemma proxy_attempt_fetches (n : nat) (c' : call) :
  In (Fetch c') (snd (Proxy.attempt h c up n)) -> c' = c.
Proof.
  destruct (proxy_attempt_trace n) as [tail [-> Htail]].
  unfold backoff. destruct (0 <? n)%nat; simpl; destruct Htail as [-> | ->]; simpl;
    intuition congruence.
Qed.

Lemma proxy_retry_fetches (k n : nat) (c' : call) :
  (maxRetries - n <= k)%nat -> In (Fetch c') (snd (Proxy.retry h c up n)) -> c' = c.
Proof.
  revert n. induction k as [|k IH]; intros n Hk;
    rewrite proxy_retry_unfold; destruct (lt_dec n maxRetries); try lia; try (intros []).
  destruct (Proxy.attempt h c up n) as [[e|a] tr] eqn:E;
    pose proof (proxy_attempt_fetches n c') as Hat; rewrite E in Hat; simpl in Hat.
  - destruct (Proxy.is_abort e); [|destruct (le_dec maxRetries (S n))]; simpl snd;
      intros Hin; apply in_app_or in Hin; destruct Hin as [Hin|Hin]; auto.
    + destruct Hin as [Hin|[]]. discriminate Hin.
    + destruct Hin as [Hin|[]]. discriminate Hin.
    + destruct Hin as [Hin|Hin]; [discriminate Hin|]. apply (IH (S n)); [lia|exact Hin].
  - simpl snd. exact Hat.
Qed.

End ProxyFacts.

(** ** Short bodies *)

Lemma retry_head (h : host) (c : Upstream.call) (up : Upstream.endpoint) (n : nat) :
  (n < Upstream.maxRetries)%nat ->
  exists rest, snd (Worker.retry h c up n) = Upstream.backoff n ++ Upstream.Fetch c :: rest.
Proof.
  intros Hn. rewrite (retry_unfold h c up n).
  destruct (lt_dec n Upstream.maxRetries); [|lia].
  destruct (Worker.read_completion h (up n)); [|eexists; reflexivity].
  destruct (le_dec Upstream.maxRetries (S n)); eexists; reflexivity.
Qed.

Lemma proxy_retry_head (h : host) (c : Upstream.call) (up : Upstream.endpoint) (n : nat) :
  (n < Upstream.maxRetries)%nat ->
  exists rest, snd (Proxy.retry h c up n)
               = Upstream.SetAbortTimer 300000 :: Upstream.backoff n ++ Upstream.Fetch c :: rest.
Proof.
  intros Hn. rewrite (proxy_retry_unfold h c up n).
  destruct (lt_dec n Upstream.maxRetries); [|lia].
  pose proof (proxy_attempt_trace h c up n) as (tail & Htr & _).
  destruct (Proxy.attempt h c up n) as [[e|a] tr]; simpl in Htr; subst tr.
  - destruct (Proxy.is_abort e); [|destruct (le_dec Upstream.maxRetries (S n))].
    + exists (tail ++ [Upstream.ClearTimer]). simpl. rewrite <- app_assoc. reflexivity.
    + exists (tail ++ [Upstream.ClearTimer]). simpl. rewrite <- app_assoc. reflexivity.
    + exists (tail ++ [Upstream.ClearTimer] ++ snd (Proxy.retry h c up (S n))).
      simpl. rewrite <- app_assoc. reflexivity.
  - exists tail. reflexivity.
Qed.

(** C7. A response whose body is shorter than 500 characters is never
    taken as a completion: the worker's attempt throws, and with a
    success status what it throws is the truncation error; the loop then
    goes on to the next attempt while attempts remain, waiting and
    calling the upstream again. With a success status and 500 characters
    or more, the body goes to [JSON.parse]. The proxy does the same with
    a success status: it clears its timer, arms a new one, waits and
    calls the upstream again. *)
Theorem short_body_is_retried (h : host) (r : Upstream.response) :
  let n := String.length (Upstream.text r) in
  ((n < 500)%nat ->
     (exists e, Worker.read_completion h (Upstream.Responds r) = inl e) /\
     (Upstream.ok r = true ->
        Worker.read_completion h (Upstream.Responds r) = inl (Upstream.too_short n) /\
        Proxy.read_response h r = inl (Upstream.too_short n)) /\
     (forall c up k, up k = Upstream.Responds r -> (S k < Upstream.maxRetries)%nat ->
        Worker.retry h c up k
        = (fst (Worker.retry h c up (S k)),
           Upstream.backoff k ++ [Upstream.Fetch c] ++ snd (Worker.retry h c up (S k))) /\
        exists rest,
          snd (Worker.retry h c up (S k))
          = Upstream.Sleep (Upstream.delay (S k)) :: Upstream.Fetch c :: rest) /\
     (forall c up k, up k = Upstream.Responds r -> Upstream.ok r = true ->
        (S k < Upstream.maxRetries)%nat ->
        Proxy.retry h c up k
        = (fst (Proxy.retry h c up (S k)),
           (([Upstream.SetAbortTimer 300000] ++ Upstream.backoff k ++ [Upstream.Fetch c])
            ++ [Upstream.ClearTimer])
           ++ [Upstream.ClearTimer] ++ snd (Proxy.retry h c up (S k))) /\
        exists rest,
          snd (Proxy.retry h c up (S k))
          = Upstream.SetAbortTimer 300000 :: Upstream.Sleep (Upstream.delay (S k))
              :: Upstream.Fetch c :: rest) /\
     (forall env up job c,
        Worker.build_request h env job = inr c -> up 0%nat = Upstream.Responds r ->
        exists rest,
          snd (Worker.run_job h env up job)
          = Upstream.Fetch c :: Upstream.Sleep 2000 :: Upstream.Fetch c :: rest) /\
     (forall env up s msgs budget key,
        JS.truthy (JS.Str s) = true -> Settings.getOpenRouterApiKey env = Some key ->
        up 0%nat = Upstream.Responds r -> Upstream.ok r = true ->
        exists c rest,
          snd (Proxy.handle h env up (JS.Str s) msgs budget)
          = [Upstream.SetAbortTimer 300000; Upstream.Fetch c; Upstream.ClearTimer;
             Upstream.ClearTimer; Upstream.SetAbortTimer 300000; Upstream.Sleep 2000;
             Upstream.Fetch c] ++ rest)) /\
  ((500 <= n)%nat -> Upstream.ok r = true ->
     Worker.read_completion h (Upstream.Responds r)
     = Upstream.bind (JSON_parse h (Upstream.text r)) Worker.content_of /\
     Proxy.read_response h r
     = match JSON_parse h (Upstream.text r) with
       | inr JS.Null | inr JS.Undefined | inl _ =>
           inl (JS.Error "Failed to parse OpenRouter response")
       | inr data => inr (Proxy.Reply 200 data)
       end).
Proof.
  cbv zeta. split.
  - intros Hshort. apply Nat.ltb_lt in Hshort.
    assert (Hw : exists e, Worker.read_completion h (Upstream.Responds r) = inl e).
    { unfold Worker.read_completion. destruct (negb (Upstream.ok r)); [eauto|].
      rewrite Hshort. eauto. }
    assert (Hworker : forall c up k,
               up k = Upstream.Responds r -> (S k < Upstream.maxRetries)%nat ->
               Worker.retry h c up k
               = (fst (Worker.retry h c up (S k)),
                  Upstream.backoff k ++ [Upstream.Fetch c] ++ snd (Worker.retry h c up (S k)))).
    { intros c up k Hup Hk. destruct Hw as [e He].
      rewrite (retry_unfold h c up k), Hup, He.
      destruct (lt_dec k Upstream.maxRetries); [|lia].
      destruct (le_dec Upstream.maxRetries (S k)); [lia|reflexivity]. }
    assert (Hproxy : forall c up k,
               up k = Upstream.Responds r -> Upstream.ok r = true ->
               (S k < Upstream.maxRetries)%nat ->
               Proxy.retry h c up k
               = (fst (Proxy.retry h c up (S k)),
                  (([Upstream.SetAbortTimer 300000] ++ Upstream.backoff k
                    ++ [Upstream.Fetch c]) ++ [Upstream.ClearTimer])
                  ++ [Upstream.ClearTimer] ++ snd (Proxy.retry h c up (S k)))).
    { intros c up k Hup Hok Hk.
      rewrite (proxy_retry_unfold h c up k).
      destruct (lt_dec k Upstream.maxRetries); [|lia].
      unfold Proxy.attempt. rewrite Hup. unfold Proxy.read_response.
      rewrite Hok, Hshort. simpl.
      destruct (le_dec Upstream.maxRetries (S k)); [lia|reflexivity]. }
    refine (conj Hw (conj _ (conj _ (conj _ (conj _ _))))).
    + intros Hok. unfold Worker.read_completion, Proxy.read_response.
      rewrite Hok, Hshort. split; reflexivity.
    + intros c up k Hup Hk. split; [apply Hworker; assumption|].
      destruct (retry_head h c up (S k) Hk) as [rest Hrest]. exists rest. exact Hrest.
    + intros c up k Hup Hok Hk. split; [apply Hproxy; assumption|].
      destruct (proxy_retry_head h c up (S k) Hk) as [rest Hrest]. exists rest. exact Hrest.
    + intros env up job c Hc Hup. unfold Worker.run_job. rewrite Hc. simpl snd.
      rewrite (Hworker c up 0%nat Hup) by (unfold Upstream.maxRetries; lia).
      destruct (retry_head h c up 1%nat) as [rest Hrest]; [unfold Upstream.maxRetries; lia|].
      simpl snd. rewrite Hrest. exists rest. reflexivity.
    + intros env up s msgs budget key Hs Hkey Hup Hok.
      unfold Proxy.handle. rewrite Hs, Hkey. simpl negb. cbv iota. simpl snd.
      match goal with |- context [Proxy.retry h ?c0 up 0] => set (c := c0) end.
      rewrite (Hproxy c up 0%nat Hup Hok) by (unfold Upstream.maxRetries; lia).
      destruct (proxy_retry_head h c up 1%nat) as [rest Hrest];
        [unfold Upstream.maxRetries; lia|].
      simpl snd. rewrite Hrest. exists c, rest. reflexivity.
  - intros Hlong Hok. apply Nat.ltb_ge in Hlong.
    unfold Worker.read_completion, Proxy.read_response.
    rewrite Hok, Hlong. split; reflexivity.
Qed.

(** The proxy handler makes every call under the five-minute timer. *)
Lemma proxy_calls_under_timeout (h : host) (env : environment) (up : Upstream.endpoint)
  (step msgs budget : JS.value) :
  under_timeout (snd (Proxy.handle h env up step msgs budget)) = true.
Proof.
  unfold Proxy.handle, under_timeout.
  destruct (negb (JS.truthy step)); [reflexivity|].
  destruct (Settings.getOpenRouterApiKey env) as [key|]; [|reflexivity].
  destruct step; try reflexivity.
  simpl snd. apply (proxy_retry_guarded _ _ _ 3); [reflexivity|simpl; lia].
Qed.

(** ** The token budget *)

(** The requests of the proxy carry [max_tokens || 4000] too. *)
Lemma proxy_token_budget (h : host) (env : environment) (up : Upstream.endpoint)
  (step msgs budget : JS.value) (c : Upstream.call) :
  In (Upstream.Fetch c) (snd (Proxy.handle h env up step msgs budget)) ->
  Upstream.max_tokens (Upstream.body c) = JS.or_else budget (JS.Num 4000).
Proof.
  unfold Proxy.handle.
  destruct (negb (JS.truthy step)); [intros []|].
  destruct (Settings.getOpenRouterApiKey env) as [key|]; [|intros []].
  destruct step; try (intros []).
  simpl snd. intros Hin. apply (proxy_retry_fetches _ _ _ 3) in Hin; [|simpl; lia].
  rewrite Hin. reflexivity.
Qed.

(** C10. Every completion request the worker issues for a claimed job
    carries [max_tokens = 4000] when [input_data.max_tokens] is absent or
    falsy, and carries [input_data.max_tokens] itself when it is truthy;
    with an API key configured and an [input_data] that can be read, the
    first thing the worker does is to issue such a request. The proxy
    handler treats the [max_tokens] of its request body the same way. *)
Theorem worker_token_budget (h : host) (env : environment) (up : Upstream.endpoint)
  (job : Store.job) :
  let trace := snd (Worker.run_job h env up job) in
  (forall c, In (Upstream.Fetch c) trace ->
     exists v, JS.get (Store.input_data job) (JS.KName "max_tokens") = inr v /\
       (JS.truthy v = false -> Upstream.max_tokens (Upstream.body c) = JS.Num 4000) /\
       (JS.truthy v = true -> Upstream.max_tokens (Upstream.body c) = v)) /\
  (forall key v, Settings.getOpenRouterApiKey env = Some key ->
     JS.get (Store.input_data job) (JS.KName "max_tokens") = inr v ->
     exists c rest, trace = Upstream.Fetch c :: rest /\
       Upstream.max_tokens (Upstream.body c) = if JS.truthy v then v else JS.Num 4000) /\
  (forall step msgs budget c,
     In (Upstream.Fetch c) (snd (Proxy.handle h env up step msgs budget)) ->
     Upstream.max_tokens (Upstream.body c) = if JS.truthy budget then budget else JS.Num 4000).
Proof.
  cbv zeta. refine (conj _ (conj _ _)).
  - intros c Hin. apply run_job_fetches in Hin.
    destruct (build_request_budget _ _ _ _ Hin) as (v & Hget & Hmax & _).
    exists v. split; [exact Hget|]. unfold JS.or_else in Hmax.
    split; intros Ht; rewrite Ht in Hmax; exact Hmax.
  - intros key v Hkey Hget. unfold Worker.run_job, Worker.build_request.
    rewrite Hkey, Hget.
    destruct (JS.get (Store.input_data job) (JS.KName "messages")) as [e|msgs] eqn:Hm.
    { destruct (Store.input_data job); simpl in *; congruence. }
    simpl.
    match goal with |- context [Worker.retry h ?c up 0] => set (call := c) end.
    exists call.
    destruct (retry_trace_shapes h call up) as [E|[E|E]]; rewrite E; eauto.
  - intros step msgs budget c Hin. apply (proxy_token_budget h env up step msgs budget c Hin).
Qed.

(** ** The worker's calls and the timeout *)

(** C6 does not hold of the worker: for a claimed job whose request can
    be built, the worker calls the upstream (at least once, at most three
    times) with no abort signal and without arming any timer, so no call
    is under a timeout; when the request cannot be built it makes no
    call. *)
Theorem worker_calls_without_timeout (h : host) (env : environment)
  (up : Upstream.endpoint) (job : Store.job) :
  let trace := snd (Worker.run_job h env up job) in
  match Worker.build_request h env job with
  | inr c =>
      Upstream.signal c = false /\
      under_timeout trace = false /\
      (1 <= attempts trace)%nat /\
      Forall (fun e => e = Upstream.Fetch c \/ exists ms, e = Upstream.Sleep ms) trace
  | inl _ => trace = []
  end.
Proof.
  cbv zeta. unfold Worker.run_job.
  destruct (Worker.build_request h env job) as [e|c] eqn:E; [reflexivity|].
  destruct (build_request_budget _ _ _ _ E) as (_ & _ & _ & Hs).
  simpl snd. split; [exact Hs|].
  destruct (retry_trace_shapes h c up) as [T|[T|T]]; rewrite T;
    unfold under_timeout, attempts; simpl; rewrite ?Hs; simpl;
    (split; [reflexivity|]); (split; [lia|]);
    repeat (first [ apply List.Forall_nil
                  | apply List.Forall_cons;
                    [first [left; reflexivity | right; eexists; reflexivity]|] ]).
Qed.

(** ** Invariants of the queue *)

Section TableFacts.
Import Store.

Lemma key_unique (l : list job) (a b : job) :
  NoDup (List.map id l) -> In a l -> In b l -> id a = id b -> a = b.
Proof.
  induction l as [|x l IH]; simpl; intros Hnd Ha Hb Hid; [destruct Ha|].
  apply NoDup_cons in Hnd. destruct Hnd as [Hx Hnd].
  destruct Ha as [->|Ha], Hb as [->|Hb].
  - reflexivity.
  - exfalso. apply Hx. rewrite Hid. apply list_elem_of_In, in_map, Hb.
  - exfalso. apply Hx. rewrite <- Hid. apply list_elem_of_In, in_map, Ha.
  - apply IH; assumption.
Qed.

Lemma key_filter (p : job -> bool) (l : list job) :
  NoDup (List.map id l) -> NoDup (List.map id (List.filter p l)).
Proof.
  induction l as [|x l IH]; simpl; intros Hnd; [constructor|].
  apply NoDup_cons in Hnd. destruct Hnd as [Hx Hnd].
  destruct (p x); simpl; [|apply IH, Hnd].
  apply NoDup_cons. split; [|apply IH, Hnd].
  intros Hin. apply Hx. apply list_elem_of_In in Hin. apply in_map_iff in Hin.
  destruct Hin as [y [Hy Hin]]. apply filter_In in Hin.
  apply list_elem_of_In, in_map_iff. exists y. tauto.
Qed.

Lemma key_append (l : list job) (j : job) :
  NoDup (List.map id l) -> (forall k, In k l -> id k < id j) ->
  NoDup (List.map id (l ++ [j])).
Proof.
  intros Hnd Hlt. rewrite List.map_app. simpl.
  apply NoDup_app. split; [exact Hnd|]. split; [|apply NoDup_singleton].
  intros i Hi Hj. apply list_elem_of_In in Hi. apply in_map_iff in Hi.
  destruct Hi as [k [<- Hk]]. apply list_elem_of_In in Hj.
  destruct Hj as [Hj|[]]. specialize (Hlt k Hk). lia.
Qed.

(** The table after a submission: as before, or one pending row more. *)
Lemma submit_table (h : host) (now : Z) (job_type input_data : JS.value) (t : table) :
  snd (Api.submit h now job_type input_data t) = t \/
  exists ty, snd (Api.submit h now job_type input_data t)
             = {| rows := rows t ++ [new_job (jobs_id_seq t) now ty input_data];
                  jobs_id_seq := jobs_id_seq t + 1 |}.
Proof.
  unfold Api.submit.
  destruct (negb (JS.truthy job_type) || negb (JS.truthy input_data))%bool; [left; reflexivity|].
  destruct (Api.includes Api.job_types job_type) as [ty|]; [|left; reflexivity].
  destruct (negb (JS.typeof_object input_data)); [left; reflexivity|].
  destruct (JS.get input_data (JS.KName "messages")) as [e|msgs]; [left; reflexivity|].
  destruct (negb (JS.truthy msgs)); [left; reflexivity|].
  unfold insert_job. destruct (jsonb_in h input_data); [|left; reflexivity].
  right. exists ty. reflexivity.
Qed.

Lemma settle_row_id (o : Worker.outcome) (now : Z) (k : job) : id (settle_row o now k) = id k.
Proof. destruct o; reflexivity. Qed.

Lemma settle_row_status (o : Worker.outcome) (now : Z) (k : job) :
  status (settle_row o now k) <> pending.
Proof. destruct o; discriminate. Qed.

Lemma settle_row_ok (o : Worker.outcome) (now : Z) (k : job) :
  status k = processing -> row_ok k -> row_ok (settle_row o now k).
Proof.
  unfold row_ok. intros -> (Hr & He & _).
  destruct o; simpl; repeat split; try assumption; discriminate.
Qed.

Lemma mark_processing_ok (k : job) :
  status k = pending -> row_ok k -> row_ok (mark_processing k).
Proof. unfold row_ok. intros -> H. exact H. Qed.

End TableFacts.

Section KeepsFacts.
Import Store.

Lemma keeps_refl (i : Z) (t : table) : keeps i t t.
Proof. repeat split; auto. lia. Qed.

Lemma keeps_update (f : job -> job) (i0 i : Z) (t : table) :
  (forall k, id (f k) = id k) -> i <> i0 ->
  keeps i t (with_rows t (update_where_id f i0 (rows t))).
Proof.
  intros Hf Hne. refine (conj _ (conj _ _)); simpl; [| |lia].
  - intros k Hk Hid _. apply update_where_id_other; [exact Hk|congruence].
  - intros k Hk Hid _. apply update_where_id_inv in Hk.
    destruct Hk as [[Hk _]|[k0 [_ [Hk0 ->]]]]; [exact Hk|].
    rewrite Hf in Hid. congruence.
Qed.

Lemma keeps_submit (h : host) (now : Z) (job_type input_data : JS.value) (i : Z) (t : table) :
  i < jobs_id_seq t -> keeps i t (snd (Api.submit h now job_type input_data t)).
Proof.
  intros Hlt. destruct (submit_table h now job_type input_data t) as [->|[ty ->]];
    [apply keeps_refl|].
  refine (conj _ (conj _ _)); simpl; [| |lia].
  - intros k Hk _ _. apply in_or_app. left. exact Hk.
  - intros k Hk Hid _. apply in_app_or in Hk. destruct Hk as [Hk|[<-|[]]]; [exact Hk|].
    simpl in Hid. lia.
Qed.

Lemma keeps_sweep (now i : Z) (t : table) : keeps i t (snd (Sweeper.cleanupOldJobs now t)).
Proof.
  unfold Sweeper.cleanupOldJobs, delete_old_terminal. simpl.
  refine (conj _ (conj _ _)); simpl; [| |lia].
  - intros k Hk _ Hst. apply filter_In. split; [exact Hk|].
    unfold old_terminal. destruct Hst as [-> | ->]; reflexivity.
  - intros k Hk _ _. apply filter_In in Hk. tauto.
Qed.

Lemma table_ok_initial : table_ok Store.initial.
Proof. split; simpl; [intros k []|constructor|intros k []]. Qed.

Lemma table_ok_update (f : job -> job) (i : Z) (t : table) :
  (forall k, id (f k) = id k) ->
  (forall k, In k (rows t) -> id k = i -> row_ok k -> row_ok (f k)) ->
  table_ok t -> table_ok (with_rows t (update_where_id f i (rows t))).
Proof.
  intros Hf Hok [Hids Hkey Hrows]. split; simpl.
  - intros k Hk. apply update_where_id_inv in Hk.
    destruct Hk as [[Hk _]|[k0 [Hk0 [_ ->]]]]; [auto|]. rewrite Hf. auto.
  - rewrite update_where_id_ids by exact Hf. exact Hkey.
  - intros k Hk. apply update_where_id_inv in Hk.
    destruct Hk as [[Hk _]|[k0 [Hk0 [Hid ->]]]]; auto.
Qed.

Lemma table_ok_submit (h : host) (now : Z) (job_type input_data : JS.value) (t : table) :
  table_ok t -> table_ok (snd (Api.submit h now job_type input_data t)).
Proof.
  intros Ht. destruct (submit_table h now job_type input_data t) as [->|[ty ->]]; [exact Ht|].
  destruct Ht as [Hids Hkey Hrows]. split; simpl.
  - intros k Hk. apply in_app_or in Hk. destruct Hk as [Hk|[<-|[]]].
    + specialize (Hids k Hk). lia.
    + simpl. lia.
  - apply key_append; [exact Hkey|]. intros k Hk. simpl. auto.
  - intros k Hk. apply in_app_or in Hk. destruct Hk as [Hk|[<-|[]]]; [auto|].
    unfold row_ok. simpl. auto.
Qed.

Lemma table_ok_sweep (now : Z) (t : table) :
  table_ok t -> table_ok (snd (Sweeper.cleanupOldJobs now t)).
Proof.
  intros [Hids Hkey Hrows]. unfold Sweeper.cleanupOldJobs, delete_old_terminal.
  split; simpl.
  - intros k Hk. apply filter_In in Hk. apply Hids. tauto.
  - apply key_filter, Hkey.
  - intros k Hk. apply filter_In in Hk. apply Hrows. tauto.
Qed.

End KeepsFacts.

Section QueueFacts.
Import Queue.

Lemma phase_ok_keeps (s s' : state) (w : nat) (p : phase) :
  phase_ok s w p ->
  (forall j, claimed p = Some j ->
     keeps (Store.id j) (db s) (db s') /\
     locks s' !! Store.id j = locks s !! Store.id j) ->
  phase_ok s' w p.
Proof.
  intros Hp Hk. destruct p as [|j|j| | |j|j|]; simpl in *; try exact I.
  - destruct (Hk j eq_refl) as [(Hrow & _ & _) Hl]. destruct Hp as (L & Hin & Hst).
    rewrite Hl. repeat split; auto.
  - destruct (Hk j eq_refl) as [(Hrow & _ & _) Hl]. destruct Hp as (L & Hin & Hst).
    rewrite Hl. repeat split; auto.
  - destruct (Hk j eq_refl) as [(Hrow & _ & _) _].
    apply Hrow; [exact Hp|reflexivity|right; reflexivity].
  - destruct (Hk j eq_refl) as [(_ & Hback & Hseq) _]. destruct Hp as [Hlt Hnp].
    split; [lia|]. intros k Hin Hid Hpend. apply (Hnp k); auto.
Qed.

Lemma claimed_id_lt (s : state) (w : nat) (p : phase) (j : Store.job) :
  inv s -> workers s !! w = Some p -> claimed p = Some j ->
  Store.id j < Store.jobs_id_seq (db s).
Proof.
  intros [[Hids _ _] Hph _] Hw Hc. specialize (Hph w p Hw).
  destruct p; simpl in *; try discriminate; injection Hc as ->.
  - apply Hids. tauto.
  - apply Hids. tauto.
  - apply (Hids _ Hph).
  - tauto.
Qed.

Lemma exclusive_rephase (ws : gmap nat phase) (w : nat) (p : phase) :
  exclusive ws ->
  (forall j, claimed p = Some j -> exists q, ws !! w = Some q /\ claimed q = Some j) ->
  exclusive (<[w := p]> ws).
Proof.
  intros Hex Hsame w1 w2 p1 p2 j1 j2 H1 H2 C1 C2 Hid.
  rewrite lookup_insert in H1. rewrite lookup_insert in H2.
  destruct (decide (w = w1)) as [<-|N1], (decide (w = w2)) as [<-|N2]; [reflexivity| | |].
  - injection H1 as <-. destruct (Hsame j1 C1) as [q [Hq Cq]].
    apply (Hex w w2 q p2 j1 j2); assumption.
  - injection H2 as <-. destruct (Hsame j2 C2) as [q [Hq Cq]].
    apply (Hex w1 w p1 q j1 j2); assumption.
  - apply (Hex w1 w2 p1 p2 j1 j2); assumption.
Qed.

Lemma exclusive_claim (ws : gmap nat phase) (w : nat) (j : Store.job) :
  exclusive ws ->
  (forall w2 p2 j2, ws !! w2 = Some p2 -> claimed p2 = Some j2 -> Store.id j2 <> Store.id j) ->
  exclusive (<[w := Found j]> ws).
Proof.
  intros Hex Hnew w1 w2 p1 p2 j1 j2 H1 H2 C1 C2 Hid.
  rewrite lookup_insert in H1. rewrite lookup_insert in H2.
  destruct (decide (w = w1)) as [<-|N1], (decide (w = w2)) as [<-|N2]; [reflexivity| | |].
  - injection H1 as <-. injection C1 as <-. exfalso.
    apply (Hnew w2 p2 j2 H2 C2). congruence.
  - injection H2 as <-. injection C2 as <-. exfalso.
    apply (Hnew w1 p1 j1 H1 C1). congruence.
  - apply (Hex w1 w2 p1 p2 j1 j2); assumption.
Qed.

(** A row that the locking SELECT can return is claimed by nobody. *)
Lemma selected_unclaimed (s : state) (j : Store.job) :
  inv s -> In j (Store.rows (db s)) -> Store.status j = Store.pending ->
  locks s !! Store.id j = None ->
  forall w2 p2 j2, workers s !! w2 = Some p2 -> claimed p2 = Some j2 ->
                   Store.id j2 <> Store.id j.
Proof.
  intros [[Hids Hkey Hrows] Hph _] Hin Hst Hl w2 p2 j2 Hw Hc Hid.
  specialize (Hph w2 p2 Hw).
  destruct p2; simpl in *; try discriminate; injection Hc as ->.
  - destruct Hph as [L _]. congruence.
  - destruct Hph as [L _]. congruence.
  - assert (E : Store.mark_processing j2 = j).
    { apply (key_unique _ _ _ Hkey Hph Hin). exact Hid. }
    rewrite <- E in Hst. discriminate Hst.
  - destruct Hph as [_ Hnp]. apply (Hnp j Hin); [congruence|exact Hst].
Qed.

Lemma held_false (l : gmap Z nat) (i : Z) : held l i = false -> l !! i = None.
Proof.
  unfold held. intros H. apply bool_decide_eq_false in H.
  apply eq_None_not_Some. exact H.
Qed.

Lemma inv_initial : inv initial.
Proof.
  split; simpl.
  - apply table_ok_initial.
  - intros w p H. rewrite lookup_empty in H. discriminate H.
  - intros w1 w2 p1 p2 j1 j2 H. rewrite lookup_empty in H. discriminate H.
Qed.

(** An invocation moves on without touching the table or the locks. *)
Lemma inv_set_phase (s : state) (w : nat) (p : phase) :
  inv s -> phase_ok s w p ->
  (forall j, claimed p = Some j -> exists q, workers s !! w = Some q /\ claimed q = Some j) ->
  inv (set_phase w p s).
Proof.
  intros Hinv Hp Hsame. destruct Hinv as [Ht Hph Hex]. split; simpl.
  - exact Ht.
  - intros w' p' H. rewrite lookup_insert in H.
    destruct (decide (w = w')) as [<-|N].
    + injection H as <-. destruct p; exact Hp.
    + specialize (Hph w' p' H). destruct p'; exact Hph.
  - apply exclusive_rephase; assumption.
Qed.

Lemma inv_select (s : state) (w : nat) :
  inv s -> workers s !! w = Some Begun -> inv (select w s).
Proof.
  intros Hinv Hw. unfold select.
  destruct (Store.select_next_pending (held (locks s)) (Store.rows (db s))) as [j|] eqn:E.
  - destruct (select_some _ _ _ E) as (Hin & Hst & Hl & _). apply held_false in Hl.
    pose proof (selected_unclaimed s j Hinv Hin Hst Hl) as Hnew.
    destruct Hinv as [Ht Hph Hex]. split; simpl.
    + exact Ht.
    + intros w' p' H. rewrite lookup_insert in H.
      destruct (decide (w = w')) as [<-|N].
      * injection H as <-. simpl. rewrite lookup_insert_eq. auto.
      * apply (phase_ok_keeps s); [apply Hph, H|].
        intros j' Hc. split; [apply keeps_refl|]. simpl.
        apply lookup_insert_ne. intros Heq. apply (Hnew w' p' j' H Hc). congruence.
    + apply exclusive_claim; assumption.
  - apply inv_set_phase; [exact Hinv|exact I|discriminate].
Qed.

Lemma inv_commit (s : state) (w : nat) (j : Store.job) :
  inv s -> workers s !! w = Some (Marked j) -> inv (commit w j s).
Proof.
  intros Hinv Hw. destruct Hinv as [Ht Hph Hex].
  destruct (Hph w _ Hw) as (Hl & Hin & Hst).
  split; simpl.
  - apply table_ok_update; [reflexivity| |exact Ht].
    intros k Hk Hid Hok.
    assert (k = j) as -> by (apply (key_unique _ _ _ (ok_key _ Ht) Hk Hin Hid)).
    apply mark_processing_ok; assumption.
  - intros w' p' H. rewrite lookup_insert in H.
    destruct (decide (w = w')) as [<-|N].
    + injection H as <-. simpl. apply update_where_id_in; [exact Hin|reflexivity].
    + apply (phase_ok_keeps s); [apply Hph, H|].
      intros j' Hc.
      assert (Hne : Store.id j' <> Store.id j).
      { intros Heq. apply N. apply (Hex w w' _ _ j j' Hw H eq_refl Hc). congruence. }
      split; [apply keeps_update; [reflexivity|exact Hne]|].
      simpl. apply lookup_delete_ne. congruence.
  - apply exclusive_rephase; [exact Hex|].
    intros j' Hc. exists (Marked j). split; assumption.
Qed.

Lemma inv_finish_written (s : state) (w : nat) (j : Store.job) (o : Worker.outcome) (now : Z) :
  inv s -> workers s !! w = Some (Working j) ->
  inv (set_phase w (Done j)
         (set_db (Store.with_rows (db s)
                    (Store.update_where_id (settle_row o now) (Store.id j)
                       (Store.rows (db s)))) s)).
Proof.
  intros Hinv Hw.
  pose proof (claimed_id_lt s w _ j Hinv Hw eq_refl) as Hlt.
  destruct Hinv as [Ht Hph Hex].
  pose proof (Hph w _ Hw) as Hin. simpl in Hin.
  split; simpl.
  - apply table_ok_update; [apply settle_row_id| |exact Ht].
    intros k Hk Hid Hok.
    assert (k = Store.mark_processing j) as ->
      by (apply (key_unique _ _ _ (ok_key _ Ht) Hk Hin Hid)).
    apply settle_row_ok; [reflexivity|exact Hok].
  - intros w' p' H. rewrite lookup_insert in H.
    destruct (decide (w = w')) as [<-|N].
    + injection H as <-. simpl. split; [exact Hlt|].
      intros k Hk Hid. apply update_where_id_inv in Hk.
      destruct Hk as [[_ Hne]|[k0 [_ [_ ->]]]]; [contradiction|apply settle_row_status].
    + apply (phase_ok_keeps s); [apply Hph, H|].
      intros j' Hc.
      assert (Hne : Store.id j' <> Store.id j).
      { intros Heq. apply N. apply (Hex w w' _ _ j j' Hw H eq_refl Hc). congruence. }
      split; [apply keeps_update; [apply settle_row_id|exact Hne]|reflexivity].
  - apply exclusive_rephase; [exact Hex|].
    intros j' Hc. exists (Working j). split; assumption.
Qed.

Lemma inv_finish_refused (s : state) (w : nat) (j : Store.job) :
  inv s -> workers s !! w = Some (Working j) ->
  inv (set_phase w (Done j) (set_db (db s) s)).
Proof.
  intros Hinv Hw.
  pose proof (claimed_id_lt s w _ j Hinv Hw eq_refl) as Hlt.
  destruct Hinv as [Ht Hph Hex].
  pose proof (Hph w _ Hw) as Hin. simpl in Hin.
  split; simpl.
  - exact Ht.
  - intros w' p' H. rewrite lookup_insert in H.
    destruct (decide (w = w')) as [<-|N].
    + injection H as <-. simpl. split; [exact Hlt|].
      intros k Hk Hid.
      assert (k = Store.mark_processing j) as ->
        by (apply (key_unique _ _ _ (ok_key _ Ht) Hk Hin Hid)).
      discriminate.
    + apply (phase_ok_keeps s); [apply Hph, H|].
      intros j' Hc. split; [apply keeps_refl|reflexivity].
  - apply exclusive_rephase; [exact Hex|].
    intros j' Hc. exists (Working j). split; assumption.
Qed.

Lemma inv_finish (s : state) (w : nat) (j : Store.job) (h : host) (o : Worker.outcome)
  (now : Z) :
  inv s -> workers s !! w = Some (Working j) ->
  inv (set_phase w (Done j) (set_db (Worker.finish h o now (Store.id j) (db s)) s)).
Proof.
  intros Hinv Hw. rewrite record_outcome_rows.
  destruct (written h o) as [o'|];
    [apply inv_finish_written|apply inv_finish_refused]; assumption.
Qed.

Lemma inv_rollback (s : state) (w : nat) (p : phase) :
  inv s -> workers s !! w = Some p -> inv (rollback w p s).
Proof.
  intros Hinv Hw. destruct Hinv as [Ht Hph Hex]. split; simpl.
  - exact Ht.
  - intros w' p' H. rewrite lookup_insert in H.
    destruct (decide (w = w')) as [<-|N]; [injection H as <-; exact I|].
    apply (phase_ok_keeps s); [apply Hph, H|].
    intros j' Hc. split; [apply keeps_refl|]. simpl.
    destruct p as [|j|j| | |j|j|]; try reflexivity;
      apply lookup_delete_ne; intros Heq; apply N;
      apply (Hex w w' _ _ j j' Hw H eq_refl Hc); congruence.
  - apply exclusive_rephase; [exact Hex|discriminate].
Qed.

Lemma inv_claim_step (s s' : state) : inv s -> claim_step s s' -> inv s'.
Proof.
  intros Hinv Hstep. destruct Hstep as [s w Hw|s w Hw|s w j Hw|s w j Hw|s w Hw|s w p Hw Hp].
  - apply inv_set_phase; [exact Hinv|exact I|discriminate].
  - apply inv_select; assumption.
  - apply inv_set_phase; [exact Hinv|exact (inv_phase _ Hinv w _ Hw)|].
    intros j' Hc. exists (Found j). split; assumption.
  - apply inv_commit; assumption.
  - apply inv_set_phase; [exact Hinv|exact I|discriminate].
  - apply inv_rollback; assumption.
Qed.

Lemma inv_step (s s' : state) : inv s -> step s s' -> inv s'.
Proof.
  intros Hinv Hstep.
  destruct Hstep as [s s' Hc|s w j h env up now Hw|s h now job_type input_data|s now].
  - apply (inv_claim_step s); assumption.
  - apply inv_finish; assumption.
  - split; simpl.
    + apply table_ok_submit, Hinv.
    + intros w p H. apply (phase_ok_keeps s); [apply Hinv, H|].
      intros j Hc. split; [|reflexivity].
      apply keeps_submit, (claimed_id_lt s w p j Hinv H Hc).
    + apply Hinv.
  - split; simpl.
    + apply table_ok_sweep, Hinv.
    + intros w p H. apply (phase_ok_keeps s); [apply Hinv, H|].
      intros j Hc. split; [apply keeps_sweep|reflexivity].
    + apply Hinv.
Qed.

Lemma inv_reachable (s : state) : reachable s -> inv s.
Proof.
  unfold reachable. intros H.
  refine (rtc_ind_r (fun x => inv x) initial inv_initial _ s H).
  intros y z _ Hyz IH. apply (inv_step y); assumption.
Qed.

End QueueFacts.

(** ** Two claims on one pending job *)

Section SoleClaim.
Import Queue.
Variable j : Store.job.

Lemma held_true (l : gmap Z nat) (i : Z) (w : nat) : l !! i = Some w -> held l i = true.
Proof. intros H. unfold held. apply bool_decide_eq_true. exists w. exact H. Qed.

Lemma sole_claim_step (s s' : state) : sole_claim j s -> claim_step s s' -> sole_claim j s'.
Proof.
  intros [Hone Hcase] Hstep.
  destruct Hstep as [s w0 Hw|s w0 Hw|s w0 j0 Hw|s w0 j0 Hw|s w0 Hw|s w0 p0 Hw Hp].
  - (* BEGIN *)
    split; [exact Hone|]. simpl.
    destruct Hcase as [(Hin & Hst & Hl & Hall & Hthird)|[w [Hoth Hw']]].
    + left. refine (conj Hin (conj Hst (conj Hl (conj _ _)))).
      * intros w p H. rewrite lookup_insert in H.
        destruct (decide (w0 = w)); [injection H as <-; reflexivity|eauto].
      * destruct Hthird as [Hb|[w Hab]].
        -- left. intros w p H. rewrite lookup_insert in H.
           destruct (decide (w0 = w)); [congruence|eauto].
        -- right. exists w. rewrite lookup_insert_ne by congruence. exact Hab.
    + right. exists w.
      assert (Hne : w0 <> w).
      { intros ->. destruct Hw' as [[[H|H] _]|[H _]]; congruence. }
      split.
      * intros w' p' H Hw'w. rewrite lookup_insert in H.
        destruct (decide (w0 = w')); [injection H as <-; reflexivity|eauto].
      * rewrite lookup_insert_ne by exact Hne. exact Hw'.
  - (* SELECT *)
    unfold select.
    destruct (Store.select_next_pending (held (locks s)) (Store.rows (db s))) as [k|] eqn:E.
    + destruct (select_some _ _ _ E) as (Hk & Hkst & Hkl & _).
      assert (k = j) as -> by (apply Hone; assumption).
      split; [exact Hone|]. simpl.
      destruct Hcase as [(Hin & Hst & Hl & Hall & _)|[w [Hoth Hw']]].
      * right. exists w0. split.
        -- intros w' p' H Hne. rewrite lookup_insert_ne in H by congruence. eauto.
        -- left. rewrite !lookup_insert_eq. auto.
      * exfalso. destruct Hw' as [[_ [Hl _]]|[_ Hnone]].
        -- apply held_true in Hl. congruence.
        -- apply (Hnone j Hk Hkst).
    + split; [exact Hone|]. simpl.
      destruct Hcase as [(Hin & Hst & Hl & Hall & _)|[w [Hoth Hw']]].
      * exfalso. pose proof (select_none _ _ E j Hin Hst) as Hh.
        unfold held in Hh. apply bool_decide_eq_true in Hh. destruct Hh as [x Hx]. congruence.
      * right. exists w.
        assert (Hne : w0 <> w).
        { intros ->. destruct Hw' as [[[H|H] _]|[H _]]; congruence. }
        split.
        -- intros w' p' H Hw'w. rewrite lookup_insert in H.
           destruct (decide (w0 = w')); [injection H as <-; reflexivity|eauto].
        -- rewrite lookup_insert_ne by exact Hne. exact Hw'.
  - (* UPDATE *)
    split; [exact Hone|]. simpl.
    destruct Hcase as [(Hin & Hst & Hl & Hall & _)|[w [Hoth Hw']]].
    + specialize (Hall w0 _ Hw). discriminate Hall.
    + destruct (decide (w0 = w)) as [->|Hne].
      * right. exists w. split.
        -- intros w' p' H Hw'w. rewrite lookup_insert_ne in H by congruence. eauto.
        -- destruct Hw' as [[[H|H] Hrest]|[H _]]; try congruence.
           assert (j0 = j) as -> by congruence.
           left. rewrite lookup_insert_eq. auto.
      * specialize (Hoth w0 _ Hw Hne). discriminate Hoth.
  - (* COMMIT *)
    destruct Hcase as [(Hin & Hst & Hl & Hall & _)|[w [Hoth Hw']]].
    + specialize (Hall w0 _ Hw). discriminate Hall.
    + destruct (decide (w0 = w)) as [->|Hne].
      * destruct Hw' as [[[H|H] Hrest]|[H _]]; try congruence.
        assert (j0 = j) as -> by congruence.
        assert (Hnone : forall k, In k (Store.rows (db (commit w j s))) ->
                                  Store.status k <> Store.pending).
        { simpl. intros k Hk Hkst. apply update_where_id_inv in Hk.
          destruct Hk as [[Hk Hid]|[k0 [_ [_ ->]]]]; [|discriminate Hkst].
          apply Hid. f_equal. apply Hone; assumption. }
        split; [intros k Hk Hkst; destruct (Hnone k Hk Hkst)|].
        right. exists w. split.
        -- simpl. intros w' p' H' Hw'w. rewrite lookup_insert_ne in H' by congruence. eauto.
        -- right. simpl. rewrite lookup_insert_eq. split; [reflexivity|exact Hnone].
      * specialize (Hoth w0 _ Hw Hne). discriminate Hoth.
  - (* COMMIT, nothing selected *)
    split; [exact Hone|]. simpl.
    destruct Hcase as [(Hin & Hst & Hl & Hall & Hthird)|[w [Hoth Hw']]].
    + left. refine (conj Hin (conj Hst (conj Hl (conj _ _)))).
      * intros w p H. rewrite lookup_insert in H.
        destruct (decide (w0 = w)); [injection H as <-; reflexivity|eauto].
      * destruct Hthird as [Hb|[w Hab]].
        -- specialize (Hb w0 _ Hw). discriminate Hb.
        -- right. exists w. rewrite lookup_insert_ne by congruence. exact Hab.
    + right. exists w.
      assert (Hne : w0 <> w).
      { intros ->. destruct Hw' as [[[H|H] _]|[H _]]; congruence. }
      split.
      * intros w' p' H Hw'w. rewrite lookup_insert in H.
        destruct (decide (w0 = w')); [injection H as <-; reflexivity|eauto].
      * rewrite lookup_insert_ne by exact Hne. exact Hw'.
  - (* ROLLBACK *)
    split; [exact Hone|].
    assert (Hfree : claimed p0 = None -> locks (rollback w0 p0 s) = locks s).
    { destruct p0; simpl; try reflexivity; discriminate. }
    destruct Hcase as [(Hin & Hst & Hl & Hall & _)|[w [Hoth Hw']]].
    + left. rewrite (Hfree (Hall w0 _ Hw)). simpl.
      refine (conj Hin (conj Hst (conj Hl (conj _ _)))).
      * intros w p H. rewrite lookup_insert in H.
        destruct (decide (w0 = w)); [injection H as <-; reflexivity|eauto].
      * right. exists w0. apply lookup_insert_eq.
    + destruct (decide (w0 = w)) as [->|Hne].
      * destruct Hw' as [[Hfm (Hl & Hin & Hst)]|[H _]].
        -- left. simpl. refine (conj Hin (conj Hst (conj _ (conj _ _)))).
           ++ destruct Hfm as [H|H]; rewrite H in Hw; injection Hw as <-;
                apply lookup_delete_eq.
           ++ intros w' p H. rewrite lookup_insert in H.
              destruct (decide (w = w')); [injection H as <-; reflexivity|eauto].
           ++ right. exists w. apply lookup_insert_eq.
        -- rewrite H in Hw. injection Hw as <-. discriminate Hp.
      * right. exists w. rewrite (Hfree (Hoth w0 _ Hw Hne)). simpl. split.
        -- intros w' p' H Hw'w. rewrite lookup_insert in H.
           destruct (decide (w0 = w')); [injection H as <-; reflexivity|eauto].
        -- rewrite lookup_insert_ne by exact Hne. exact Hw'.
Qed.

Lemma sole_claim_run (s s' : state) : sole_claim j s -> rtc claim_step s s' -> sole_claim j s'.
Proof.
  intros Hs Hrun. induction Hrun as [|x y z Hxy _ IH]; [exact Hs|].
  apply IH. apply (sole_claim_step x); assumption.
Qed.

Lemma sole_claim_start (s : state) :
  List.filter is_pending (Store.rows (db s)) = [j] ->
  locks s = ∅ -> workers s = ∅ -> sole_claim j s.
Proof.
  intros Hf Hl Hw.
  assert (Hiff : forall k, In k (Store.rows (db s)) /\ Store.status k = Store.pending <-> k = j).
  { intros k. split.
    - intros [Hk Hst].
      assert (H : In k (List.filter is_pending (Store.rows (db s)))).
      { apply filter_In. split; [exact Hk|]. apply status_eqb_eq, Hst. }
      rewrite Hf in H. destruct H as [H|[]]. congruence.
    - intros ->.
      assert (H : In j (List.filter is_pending (Store.rows (db s)))).
      { rewrite Hf. left. reflexivity. }
      apply filter_In in H. destruct H as [Hin Hst].
      split; [exact Hin|]. apply status_eqb_eq, Hst. }
  split.
  - intros k Hk Hst. apply Hiff. auto.
  - left. destruct (proj2 (Hiff j) eq_refl) as [Hin Hst].
    refine (conj Hin (conj Hst (conj _ (conj _ _)))).
    + rewrite Hl. apply lookup_empty.
    + intros w p H. rewrite Hw, lookup_empty in H. discriminate H.
    + left. intros w p H. rewrite Hw, lookup_empty in H. discriminate H.
Qed.

End SoleClaim.

(** ** One tick of a worker is a run of the queue *)

Lemma select_next_pending_ext (f g : Z -> bool) (l : list Store.job) :
  (forall i, f i = g i) -> Store.select_next_pending f l = Store.select_next_pending g l.
Proof.
  intros Hfg. unfold Store.select_next_pending. f_equal.
  apply List.filter_ext. intros k. unfold Store.selectable. rewrite Hfg. reflexivity.
Qed.

(** [processNextJob], run while no other transaction is open, is the
    sequence BEGIN, SELECT, UPDATE, COMMIT, last UPDATE of the queue (or
    BEGIN, SELECT, COMMIT when nothing is pending). *)
Lemma processNextJob_is_a_run (h : host) (env : environment) (up : Upstream.endpoint)
  (now : Z) (s : Queue.state) (w : nat) :
  Queue.workers s !! w = None -> Queue.locks s = ∅ ->
  exists s', rtc Queue.step s s' /\
             Queue.db s' = fst (Worker.processNextJob h env up now (Queue.db s)) /\
             Queue.locks s' = ∅.
Proof.
  intros Hw Hl.
  set (s1 := Queue.set_phase w Queue.Begun s).
  assert (H1 : Queue.step s s1) by (apply Queue.step_claim, Queue.claim_begin, Hw).
  assert (H2 : Queue.step s1 (Queue.select w s1)).
  { apply Queue.step_claim, Queue.claim_select. apply lookup_insert_eq. }
  assert (Hsel : Store.select_next_pending (Queue.held (Queue.locks s1)) (Store.rows (Queue.db s1))
                 = Store.select_next_pending Store.unlocked (Store.rows (Queue.db s))).
  { apply select_next_pending_ext. intros i. simpl. rewrite Hl. reflexivity. }
  unfold Worker.processNextJob, Store.claim.
  unfold Queue.select in H2. rewrite Hsel in H2.
  destruct (Store.select_next_pending Store.unlocked (Store.rows (Queue.db s))) as [j|].
  - set (s2 := {| Queue.db := Queue.db s1;
                  Queue.locks := <[Store.id j := w]> (Queue.locks s1);
                  Queue.workers := <[w := Queue.Found j]> (Queue.workers s1) |}) in *.
    set (s3 := Queue.set_phase w (Queue.Marked j) s2).
    set (s4 := Queue.commit w j s3).
    set (o := fst (Worker.run_job h env up j)).
    exists (Queue.set_phase w (Queue.Done j)
              (Queue.set_db (Worker.finish h o now (Store.id j) (Queue.db s4)) s4)).
    split; [|split].
    + apply (rtc_l _ _ s1); [exact H1|].
      apply (rtc_l _ _ s2); [exact H2|].
      apply (rtc_l _ _ s3);
        [apply Queue.step_claim, (Queue.claim_update s2 w j); apply lookup_insert_eq|].
      apply (rtc_l _ _ s4);
        [apply Queue.step_claim, (Queue.claim_commit s3 w j); apply lookup_insert_eq|].
      apply rtc_once. apply (Queue.step_finish s4 w j h env up now). apply lookup_insert_eq.
    + reflexivity.
    + simpl. rewrite Hl, delete_insert_eq. apply delete_empty.
  - exists (Queue.set_phase w Queue.Idle (Queue.set_phase w Queue.Empty s1)).
    split; [|split].
    + apply (rtc_l _ _ s1); [exact H1|].
      apply (rtc_l _ _ (Queue.set_phase w Queue.Empty s1)); [exact H2|].
      apply rtc_once, Queue.step_claim, Queue.claim_commit_none. apply lookup_insert_eq.
    + reflexivity.
    + exact Hl.
Qed.

(** ** A run of the queue: one submission, one worker *)

Lemma demo_s5_reachable : Queue.reachable demo_s5.
Proof.
  unfold Queue.reachable.
  apply (rtc_l _ _ demo_s1);
    [apply (Queue.step_submit Queue.initial demo_host 7 (JS.Str "prompt1") demo_input)|].
  apply (rtc_l _ _ demo_s2);
    [apply Queue.step_claim, (Queue.claim_begin demo_s1 0); reflexivity|].
  apply (rtc_l _ _ demo_s3);
    [apply Queue.step_claim, (Queue.claim_select demo_s2 0); reflexivity|].
  apply (rtc_l _ _ demo_s4);
    [apply Queue.step_claim, (Queue.claim_update demo_s3 0 demo_job); reflexivity|].
  apply (rtc_l _ _ demo_s5);
    [apply Queue.step_claim, (Queue.claim_commit demo_s4 0 demo_job); reflexivity|].
  apply rtc_refl.
Qed.

Lemma demo_s6_reachable : Queue.reachable demo_s6.
Proof.
  apply (rtc_r _ demo_s5); [apply demo_s5_reachable|].
  apply (Queue.step_finish demo_s5 0 demo_job demo_host demo_env demo_up 9). reflexivity.
Qed.

Lemma race_run : rtc Queue.claim_step demo_s1 race_s7.
Proof.
  apply (rtc_l _ _ race_s1); [apply (Queue.claim_begin demo_s1 1); reflexivity|].
  apply (rtc_l _ _ race_s2); [apply (Queue.claim_begin race_s1 2); reflexivity|].
  apply (rtc_l _ _ race_s3); [apply (Queue.claim_select race_s2 1); reflexivity|].
  apply (rtc_l _ _ race_s4); [apply (Queue.claim_select race_s3 2); reflexivity|].
  apply (rtc_l _ _ race_s5); [apply (Queue.claim_update race_s4 1 demo_job); reflexivity|].
  apply (rtc_l _ _ race_s6); [apply (Queue.claim_commit_none race_s5 2); reflexivity|].
  apply (rtc_l _ _ race_s7); [apply (Queue.claim_commit race_s6 1 demo_job); reflexivity|].
  apply rtc_refl.
Qed.

(** The scenario of the specification: the submitted job is pending; one
    tick of a worker whose upstream answers "ok" completes it with that
    result. *)
Example submit_then_tick :
  Store.rows (Queue.db demo_s1) = [demo_job] /\
  Worker.processNextJob demo_host demo_env demo_up 9 (Queue.db demo_s1)
  = (Queue.db demo_s6,
     [Upstream.Fetch
        {| Upstream.authorization := "Bearer sk-demo";
           Upstream.body := {| Upstream.model := "openai/gpt-5.1";
                               Upstream.messages :=
                                 JS.Arr [JS.Obj [("role", JS.Str "user");
                                                 ("content", JS.Str "hello")]];
                               Upstream.max_tokens := JS.Num 4000;
                               Upstream.temperature := Some (7 # 10)%Q |};
           Upstream.signal := false |}]) /\
  Store.rows (Queue.db demo_s6) = [Store.mark_completed "ok" 9 (Store.mark_processing demo_job)].
Proof. repeat split; vm_compute; reflexivity. Qed.

(** ** Mutual exclusion of claims *)

(** C1. However the statements of any number of invocations of
    [processNextJob] interleave with one another and with submissions,
    sweeps, completions and rollbacks, two distinct invocations never hold
    the same job. And when the table has exactly one pending job and two
    invocations run their claim transactions to their COMMIT, in any
    interleaving, one of them has claimed that job and the other has found
    no row. *)
Theorem claims_never_share_a_job :
  (forall s, Queue.reachable s ->
     forall w1 w2 p1 p2 j1 j2,
       Queue.workers s !! w1 = Some p1 -> Queue.workers s !! w2 = Some p2 ->
       Queue.claimed p1 = Some j1 -> Queue.claimed p2 = Some j2 ->
       w1 <> w2 -> Store.id j1 <> Store.id j2) /\
  (forall s0 s j w1 w2 p1 p2,
     List.filter is_pending (Store.rows (Queue.db s0)) = [j] ->
     Queue.locks s0 = ∅ -> Queue.workers s0 = ∅ ->
     rtc Queue.claim_step s0 s ->
     w1 <> w2 ->
     (forall w, is_Some (Queue.workers s !! w) -> w = w1 \/ w = w2) ->
     Queue.workers s !! w1 = Some p1 -> Queue.workers s !! w2 = Some p2 ->
     Queue.committed p1 = true -> Queue.committed p2 = true ->
     (p1 = Queue.Working j /\ p2 = Queue.Idle) \/
     (p1 = Queue.Idle /\ p2 = Queue.Working j)).
Proof.
  split.
  - intros s Hs w1 w2 p1 p2 j1 j2 H1 H2 C1 C2 Hne Hid.
    apply Hne. apply (inv_excl s (inv_reachable s Hs) w1 w2 p1 p2 j1 j2); assumption.
  - intros s0 s j w1 w2 p1 p2 Hf Hl Hw Hrun Hne Hdom H1 H2 C1 C2.
    pose proof (sole_claim_run j s0 s (sole_claim_start j s0 Hf Hl Hw) Hrun) as [_ Hcase].
    destruct Hcase as [(_ & _ & _ & _ & Hthird)|[w [Hoth Hw']]].
    + destruct Hthird as [Hb|[w Hab]].
      * rewrite (Hb w1 p1 H1) in C1. discriminate C1.
      * destruct (Hdom w (ex_intro _ _ Hab)) as [E|E]; subst w;
          [rewrite H1 in Hab; injection Hab as ->; discriminate C1
          |rewrite H2 in Hab; injection Hab as ->; discriminate C2].
    + assert (Hwp : Queue.workers s !! w = Some (Queue.Working j)).
      { assert (Hcom : forall p, Queue.workers s !! w = Some p -> Queue.committed p = true).
        { intros p Hp. destruct (Hdom w (ex_intro _ _ Hp)) as [E|E]; subst w;
            [rewrite H1 in Hp|rewrite H2 in Hp]; injection Hp as <-; assumption. }
        destruct Hw' as [[[H|H] _]|[H _]]; [| |exact H];
          specialize (Hcom _ H); discriminate Hcom. }
      assert (Hidle : forall w' p', Queue.workers s !! w' = Some p' -> w' <> w ->
                                    Queue.committed p' = true -> p' = Queue.Idle).
      { intros w' p' H' Hn Hc. specialize (Hoth w' p' H' Hn).
        destruct p'; try discriminate Hc; try discriminate Hoth. reflexivity. }
      destruct (Hdom w (ex_intro _ _ Hwp)) as [-> | ->].
      * left. split; [congruence|]. apply (Hidle w2 p2 H2); [congruence|exact C2].
      * right. split; [|congruence]. apply (Hidle w1 p1 H1); [congruence|exact C1].
Qed.

Lemma claims_never_share_a_job_witness :
  (Queue.Working demo_job = Queue.Working demo_job /\ Queue.Idle = Queue.Idle) \/
  (Queue.Working demo_job = Queue.Idle /\ Queue.Idle = Queue.Working demo_job).
Proof.
  apply (proj2 claims_never_share_a_job demo_s1 race_s7 demo_job 1%nat 2%nat).
  - reflexivity.
  - reflexivity.
  - reflexivity.
  - exact race_run.
  - discriminate.
  - intros w [p Hp].
    assert (E : Queue.workers race_s7
                = <[1%nat := Queue.Working demo_job]> (<[2%nat := Queue.Idle]> ∅))
      by (vm_compute; reflexivity).
    rewrite E in Hp.
    destruct (decide (w = 1%nat)) as [->|N1]; [left; reflexivity|].
    destruct (decide (w = 2%nat)) as [->|N2]; [right; reflexivity|].
    rewrite !lookup_insert_ne, lookup_empty in Hp by congruence. discriminate Hp.
  - reflexivity.
  - reflexivity.
  - reflexivity.
  - reflexivity.
Defined.

(** ** Terminal jobs *)

Lemma row_ok_exclusive (k : Store.job) : row_ok k -> outcome_exclusive k.
Proof.
  unfold row_ok, outcome_exclusive. intros H.
  split; intros E; rewrite E in H; tauto.
Qed.

(** C2. In every state the queue can reach, each completed job has a
    result and no error and each failed job has an error and no result;
    whatever is done next on the table (a claim statement, the completion
    or failure of a job, a submission, a sweep), this still holds. *)
Theorem terminal_result_xor_error (s : Queue.state) :
  Queue.reachable s ->
  (forall k, In k (Store.rows (Queue.db s)) -> outcome_exclusive k) /\
  (forall s', Queue.step s s' ->
     forall k, In k (Store.rows (Queue.db s')) -> outcome_exclusive k).
Proof.
  intros Hs. pose proof (inv_reachable s Hs) as Hinv. split.
  - intros k Hk. apply row_ok_exclusive, (ok_rows _ (inv_table _ Hinv)), Hk.
  - intros s' Hstep k Hk.
    apply row_ok_exclusive, (ok_rows _ (inv_table _ (inv_step s s' Hinv Hstep))), Hk.
Qed.

Lemma terminal_result_xor_error_witness :
  outcome_exclusive (Store.mark_completed "ok" 9 (Store.mark_processing demo_job)).
Proof.
  apply (proj1 (terminal_result_xor_error demo_s6 demo_s6_reachable)).
  vm_compute. left. reflexivity.
Defined.

(** ** Completing and failing a job *)






(** ** The properties at work *)

(** Of a processing job and two pending ones, the claim takes the
    pending job created first. *)
Lemma claim_takes_oldest_pending_witness :
  In (Store.mark_processing (Store.new_job 3 20 "report_template" demo_input))
     (Store.rows (snd (Store.claim three_jobs))) /\
  forall k, In k (Store.rows three_jobs) -> Store.status k = Store.pending ->
            20 <= Store.created_at k.
Proof.
  pose proof (proj2 (claim_takes_oldest_pending three_jobs)) as H.
  change (Store.claim three_jobs)
    with (Some (Store.new_job 3 20 "report_template" demo_input),
          snd (Store.claim three_jobs)) in H.
  cbv beta iota in H.
  destruct H as (_ & _ & Hmin & Hin & _).
  split; [exact Hin|exact Hmin].
Defined.


Lemma worker_retry_policy_witness :
  snd (Worker.run_job demo_host demo_env flaky_up demo_job)
  = [Upstream.Fetch demo_call; Upstream.Sleep 2000; Upstream.Fetch demo_call;
     Upstream.Sleep 4000; Upstream.Fetch demo_call] /\
  fst (Worker.run_job demo_host demo_env flaky_up demo_job) = Worker.Completed "ok" /\
  In {| Store.id := 1; Store.job_type := "prompt1"; Store.status := Store.completed;
        Store.input_data := demo_input; Store.result_data := Some "ok"%string;
        Store.error := None; Store.created_at := 7; Store.completed_at := Some 9 |}
     (Store.rows (fst (Worker.processNextJob demo_host demo_env flaky_up 9 (Queue.db demo_s1)))).
Proof.
  destruct (proj1 (proj2 (worker_retry_policy demo_host demo_env flaky_up demo_job))
              demo_call eq_refl) as (_ & _ & H).
  destruct (H (JS.TypeError "fetch failed") (JS.TypeError "fetch failed") (JS.Str "ok")
              eq_refl eq_refl eq_refl) as (Htr & _ & Hs).
  refine (conj Htr (conj (Hs "ok"%string eq_refl) _)).
  exact (proj1 (proj1 (proj2 (proj2 (proj2 (worker_retry_policy demo_host demo_env flaky_up
                                               demo_job))
                                      (Queue.db demo_s1) 9 eq_refl))
                 "ok"%string (Hs "ok"%string eq_refl) eq_refl)).
Defined.

Lemma short_body_is_retried_witness :
  (Worker.read_completion demo_host (Upstream.Responds ten_chars)
   = inl (JS.Error "Response too short (10 chars), likely truncated") /\
   Proxy.read_response demo_host ten_chars
   = inl (JS.Error "Response too short (10 chars), likely truncated")) /\
  (exists rest,
     snd (Worker.run_job demo_host demo_env (fun _ => Upstream.Responds ten_chars) demo_job)
     = Upstream.Fetch demo_call :: Upstream.Sleep 2000 :: Upstream.Fetch demo_call :: rest) /\
  (exists c rest,
     snd (Proxy.handle demo_host demo_env (fun _ => Upstream.Responds ten_chars)
            (JS.Str "prompt1") (JS.Arr []) JS.Undefined)
     = [Upstream.SetAbortTimer 300000; Upstream.Fetch c; Upstream.ClearTimer;
        Upstream.ClearTimer; Upstream.SetAbortTimer 300000; Upstream.Sleep 2000;
        Upstream.Fetch c] ++ rest).
Proof.
  assert (Hshort : (String.length (Upstream.text ten_chars) < 500)%nat) by (simpl; lia).
  destruct (proj1 (short_body_is_retried demo_host ten_chars) Hshort)
    as (_ & Hboth & _ & _ & Hworker & Hproxy).
  refine (conj (Hboth eq_refl) (conj _ _)).
  - apply (Hworker demo_env (fun _ => Upstream.Responds ten_chars) demo_job demo_call);
      reflexivity.
  - apply (Hproxy demo_env (fun _ => Upstream.Responds ten_chars) "prompt1"%string
             (JS.Arr []) JS.Undefined "sk-demo"%string); reflexivity.
Defined.

Lemma worker_token_budget_witness :
  (forall c, In (Upstream.Fetch c) (snd (Worker.run_job demo_host demo_env demo_up roomy_job)) ->
             Upstream.max_tokens (Upstream.body c) = JS.Num (inject_Z 8000)) /\
  (forall c, In (Upstream.Fetch c) (snd (Worker.run_job demo_host demo_env demo_up demo_job)) ->
             Upstream.max_tokens (Upstream.body c) = JS.Num 4000).
Proof.
  split; intros c Hc.
  - destruct (proj1 (worker_token_budget demo_host demo_env demo_up roomy_job) c Hc)
      as (v & Hv & _ & Ht).
    injection Hv as <-. apply Ht. reflexivity.
  - destruct (proj1 (worker_token_budget demo_host demo_env demo_up demo_job) c Hc)
      as (v & Hv & Hf & _).
    injection Hv as <-. apply Hf. reflexivity.
Defined.

(** The calls of the worker for [demo_job] against an upstream that is
    never reached: three, none under a timer. *)
Example worker_calls_example :
  snd (Worker.run_job demo_host demo_env (fun _ => Upstream.Rejects (JS.TypeError "fetch failed"))
         demo_job)
  = [Upstream.Fetch demo_call; Upstream.Sleep 2000; Upstream.Fetch demo_call;
     Upstream.Sleep 4000; Upstream.Fetch demo_call] /\
  under_timeout [Upstream.Fetch demo_call; Upstream.Sleep 2000; Upstream.Fetch demo_call;
                 Upstream.Sleep 4000; Upstream.Fetch demo_call] = false.
Proof. split; reflexivity. Qed.

Lemma sweep_deletes_expired_only_witness :
  Sweeper.cleanupOldJobs 21601001 aged_table = ([1], {| Store.rows := []; Store.jobs_id_seq := 2 |}) /\
  Sweeper.cleanupOldJobs 21601001 (snd (Sweeper.cleanupOldJobs 21601001 aged_table))
  = ([], snd (Sweeper.cleanupOldJobs 21601001 aged_table)).
Proof.
  split; [reflexivity|].
  apply (proj2 (proj2 (proj2 (proj2 (sweep_deletes_expired_only 21601001 aged_table))))).
Defined.

(** * Further properties *)

(** ** Settings and the API key *)

Section TextFacts.
Import JS.

Lemma upper_ascii_idem (c : ascii) : upper_ascii (upper_ascii c) = upper_ascii c.
Proof. destruct c as [[] [] [] [] [] [] [] []]; reflexivity. Qed.

Lemma toUpperCase_idem (s : string) : toUpperCase (toUpperCase s) = toUpperCase s.
Proof.
  induction s as [|c s IH]; [reflexivity|].
  simpl. rewrite upper_ascii_idem, IH. reflexivity.
Qed.

Lemma trimStart_head (s : string) :
  match trimStart s with
  | EmptyString => True
  | String c _ => is_space c = false
  end.
Proof.
  induction s as [|c s IH]; simpl; [exact I|].
  destruct (is_space c) eqn:E; [exact IH|exact E].
Qed.

Lemma trimStart_fixed (c : ascii) (s : string) :
  is_space c = false -> trimStart (String c s) = String c s.
Proof. intros H. simpl. rewrite H. reflexivity. Qed.

Lemma trimEnd_idem (s : string) : trimEnd (trimEnd s) = trimEnd s.
Proof.
  induction s as [|c s IH]; [reflexivity|].
  simpl. destruct (trimEnd s) as [|a t] eqn:E.
  - destruct (is_space c) eqn:Hc; [reflexivity|]. simpl. rewrite Hc. reflexivity.
  - change (trimEnd (String c (String a t))) with
      (match trimEnd (String a t) with
       | EmptyString => if is_space c then EmptyString else String c EmptyString
       | String x y => String c (String x y)
       end).
    rewrite IH. reflexivity.
Qed.

Lemma trimEnd_head (c : ascii) (s : string) :
  is_space c = false -> exists t, trimEnd (String c s) = String c t.
Proof.
  intros H. simpl. destruct (trimEnd s) as [|a t]; [rewrite H|]; eauto.
Qed.

Lemma trim_idem (s : string) : trim (trim s) = trim s.
Proof.
  unfold trim. pose proof (trimStart_head s) as Hh.
  destruct (trimStart s) as [|c u]; [reflexivity|].
  destruct (trimEnd_head c u Hh) as [t Ht].
  rewrite Ht, (trimStart_fixed c t Hh), <- Ht. apply trimEnd_idem.
Qed.

End TextFacts.

Lemma defaults_nonempty (k v : string) : Settings.defaults k = Some v -> v <> EmptyString.
Proof.
  unfold Settings.defaults.
  repeat (destruct (String.eqb k _); [intros H; injection H as <-; discriminate|]).
  discriminate.
Qed.

Lemma getSetting_nonempty (env : environment) (key v : string) :
  Settings.getSetting env key = Some v -> v <> EmptyString.
Proof.
  unfold Settings.getSetting.
  destruct (env (JS.toUpperCase key)) as [value|]; [|apply defaults_nonempty].
  destruct (String.eqb value "") eqn:E; [apply defaults_nonempty|].
  intros H. injection H as <-. apply String.eqb_neq, E.
Qed.

Lemma defaults_known (k : string) : In k default_keys -> Settings.defaults k <> None.
Proof.
  intros H. repeat (destruct H as [<-|H]; [discriminate|]). destruct H.
Qed.

(** X1. A setting is never the empty text: an environment variable that
    is set to the empty text gives way to the default. The key is read
    without regard to (ASCII) case, and the six keys that have a default
    always have a value. *)
Theorem getSetting_is_never_blank (env : environment) (key : string) :
  (forall v, Settings.getSetting env key = Some v -> v <> EmptyString) /\
  Settings.getSetting env (JS.toUpperCase key) = Settings.getSetting env key /\
  (env (JS.toUpperCase key) = Some EmptyString ->
   Settings.getSetting env key = Settings.defaults (JS.toUpperCase key)) /\
  (In (JS.toUpperCase key) default_keys -> Settings.getSetting env key <> None).
Proof.
  refine (conj (getSetting_nonempty env key) (conj _ (conj _ _))).
  - unfold Settings.getSetting. rewrite toUpperCase_idem. reflexivity.
  - intros H. unfold Settings.getSetting. rewrite H. reflexivity.
  - intros Hk. unfold Settings.getSetting.
    pose proof (defaults_known _ Hk) as Hd.
    destruct (env (JS.toUpperCase key)) as [value|]; [|exact Hd].
    destruct (String.eqb value ""); [exact Hd|discriminate].
Qed.

Lemma getSetting_is_never_blank_witness :
  Settings.getSetting (fun k => if String.eqb k "PROMPT1_MODEL" then Some EmptyString else None)
    "prompt1_model" = Some "openai/gpt-5.1"%string.
Proof.
  apply (proj1 (proj2 (proj2 (getSetting_is_never_blank
           (fun k => if String.eqb k "PROMPT1_MODEL" then Some EmptyString else None)
           "prompt1_model")))).
  reflexivity.
Defined.

(** X2. The API key, when there is one, is the value of
    OPENROUTER_API_KEY without the white space around it, and is not
    empty; a variable that is unset, empty or all white space counts as no
    key. *)
Theorem api_key_is_trimmed (env : environment) :
  match Settings.getOpenRouterApiKey env with
  | Some key =>
      key <> EmptyString /\ JS.trim key = key /\
      exists raw, env "OPENROUTER_API_KEY"%string = Some raw /\ key = JS.trim raw
  | None =>
      forall raw, env "OPENROUTER_API_KEY"%string = Some raw -> JS.trim raw = EmptyString
  end.
Proof.
  unfold Settings.getOpenRouterApiKey.
  destruct (env "OPENROUTER_API_KEY"%string) as [raw|]; [|discriminate].
  destruct (String.eqb raw "") eqn:E1; simpl.
  - intros r H. injection H as <-. apply String.eqb_eq in E1. subst raw. reflexivity.
  - destruct (String.eqb (JS.trim raw) "") eqn:E2; simpl.
    + intros r H. injection H as <-. apply String.eqb_eq, E2.
    + split; [apply String.eqb_neq, E2|]. split; [apply trim_idem|].
      exists raw. split; reflexivity.
Qed.

(** ** The prompt cache *)

Lemma load_uncached (f : Prompts.files) (cache : gmap string string) (name : string) :
  cache !! name = None ->
  Prompts.loadPromptFromFile f cache name
  = match read_disk f name with
    | Some content => (Some content, <[name := content]> cache)
    | None => (None, cache)
    end.
Proof.
  intros H. unfold Prompts.loadPromptFromFile, read_disk. rewrite H.
  destruct (Prompts.existsSync f _); [|reflexivity].
  destruct (Prompts.readFileSync f _); reflexivity.
Qed.

Lemma load_some (f : Prompts.files) (cache cache' : gmap string string) (name c : string) :
  Prompts.loadPromptFromFile f cache name = (Some c, cache') ->
  cache' !! name = Some c /\ forall other, other <> name -> cache' !! other = cache !! other.
Proof.
  destruct (cache !! name) as [c0|] eqn:E.
  - unfold Prompts.loadPromptFromFile. rewrite E. intros H. injection H as <- <-. auto.
  - rewrite (load_uncached f cache name E).
    destruct (read_disk f name) as [content|]; [|discriminate].
    intros H. injection H as <- <-. split; [apply lookup_insert_eq|].
    intros other Hne. apply lookup_insert_ne. congruence.
Qed.

(** X3. Once a prompt has been loaded, every later load of that step
    returns the same text and leaves the cache as it is, whatever the file
    has become on the disk; the entries of the other steps are untouched.
    Only after [reloadPrompts] is the file read again. *)
Theorem prompt_cache_is_sticky (f1 : Prompts.files) (cache cache' : gmap string string)
  (name c : string) :
  Prompts.loadPromptFromFile f1 cache name = (Some c, cache') ->
  (forall f2, Prompts.loadPromptFromFile f2 cache' name = (Some c, cache')) /\
  (forall other, other <> name -> cache' !! other = cache !! other) /\
  (forall f2, fst (Prompts.loadPromptFromFile f2 (Prompts.reloadPrompts cache') name)
              = read_disk f2 name).
Proof.
  intros H. destruct (load_some _ _ _ _ _ H) as [Hc Hother].
  refine (conj _ (conj Hother _)).
  - intros f2. unfold Prompts.loadPromptFromFile. rewrite Hc. reflexivity.
  - intros f2. unfold Prompts.reloadPrompts.
    rewrite (load_uncached f2 ∅ name (lookup_empty name)).
    destruct (read_disk f2 name); reflexivity.
Qed.

Lemma prompt_cache_is_sticky_witness :
  (forall f2, Prompts.loadPromptFromFile f2 {["prompt1"%string := "old text"%string]} "prompt1"
              = (Some "old text"%string, {["prompt1"%string := "old text"%string]})) /\
  fst (Prompts.loadPromptFromFile (disk_with "new text")
         (Prompts.reloadPrompts {["prompt1"%string := "old text"%string]}) "prompt1")
  = Some "new text"%string.
Proof.
  pose proof (prompt_cache_is_sticky (disk_with "old text") ∅
                {["prompt1"%string := "old text"%string]} "prompt1" "old text" eq_refl)
    as (Hsame & _ & Hreload).
  split; [exact Hsame|]. rewrite Hreload. reflexivity.
Defined.

(** X4. A load that fails (no file, or a file that cannot be read)
    returns null and caches nothing, so the next load looks at the disk
    again and finds the file once it is there. *)
Theorem prompt_failure_is_not_cached (f1 : Prompts.files) (cache cache' : gmap string string)
  (name : string) :
  Prompts.loadPromptFromFile f1 cache name = (None, cache') ->
  cache' = cache /\ read_disk f1 name = None /\
  forall f2, fst (Prompts.loadPromptFromFile f2 cache' name) = read_disk f2 name.
Proof.
  intros H.
  assert (E : cache !! name = None).
  { destruct (cache !! name) eqn:E; [|reflexivity].
    unfold Prompts.loadPromptFromFile in H. rewrite E in H. discriminate H. }
  rewrite (load_uncached f1 cache name E) in H.
  destruct (read_disk f1 name) as [content|]; [discriminate|].
  injection H as <-. refine (conj eq_refl (conj eq_refl _)).
  intros f2. rewrite (load_uncached f2 cache name E).
  destruct (read_disk f2 name); reflexivity.
Qed.

Lemma prompt_failure_is_not_cached_witness :
  fst (Prompts.loadPromptFromFile (disk_with "late text") ∅ "prompt2") = Some "late text"%string.
Proof.
  pose proof (prompt_failure_is_not_cached empty_disk ∅ ∅ "prompt2" eq_refl) as (_ & _ & H).
  rewrite H. reflexivity.
Defined.

(** X5. The prompt route answers 404 exactly when the cached content
    of the step is the empty text, or the step is not cached and its file
    cannot be read or is empty. It answers 200 only with a text that is
    not empty, and then keeps answering that text whatever the file
    becomes. A file that is empty when first read is cached: it is
    answered 404 and stays 404, even after the file has been filled,
    until the cache is cleared. A file that could not be read is not
    cached and is answered once it can be read. *)
Theorem prompt_route_answers (f1 : Prompts.files) (cache : gmap string string) (step : string) :
  let first := Prompts.get_content f1 cache step in
  (fst first = Prompts.NotFound <->
   cache !! step = Some EmptyString \/
   (cache !! step = None /\
    (read_disk f1 step = None \/ read_disk f1 step = Some EmptyString))) /\
  (forall c, fst first = Prompts.Content c ->
     c <> EmptyString /\
     forall f2, Prompts.get_content f2 (snd first) step = (Prompts.Content c, snd first)) /\
  (cache !! step = None -> read_disk f1 step = Some EmptyString ->
     forall f2, Prompts.get_content f2 (snd first) step = (Prompts.NotFound, snd first)) /\
  (cache !! step = None -> read_disk f1 step = None ->
     fst first = Prompts.NotFound /\
     forall f2 c, read_disk f2 step = Some c -> c <> EmptyString ->
                  fst (Prompts.get_content f2 (snd first) step) = Prompts.Content c).
Proof.
  cbv zeta. refine (conj _ (conj _ (conj _ _))).
  - unfold Prompts.get_content. destruct (cache !! step) as [c0|] eqn:Hc0.
    + unfold Prompts.loadPromptFromFile. rewrite Hc0.
      destruct (String.eqb c0 "") eqn:E; simpl.
      * apply String.eqb_eq in E. subst c0. split; [auto|reflexivity].
      * apply String.eqb_neq in E. split; [discriminate|].
        intros [H|[H _]]; [injection H as ->; contradiction|discriminate H].
    + rewrite (load_uncached f1 cache step Hc0).
      destruct (read_disk f1 step) as [c|]; simpl.
      * destruct (String.eqb c "") eqn:E; simpl.
        -- apply String.eqb_eq in E. subst c. split; [auto|reflexivity].
        -- apply String.eqb_neq in E. split; [discriminate|].
           intros [H|[_ [H|H]]]; [discriminate H|discriminate H|].
           injection H as ->. contradiction.
      * split; [auto|reflexivity].
  - unfold Prompts.get_content. intros c.
    destruct (Prompts.loadPromptFromFile f1 cache step) as [[content|] cache'] eqn:E;
      [|discriminate].
    destruct (String.eqb content "") eqn:Hc; [discriminate|].
    simpl. intros H. injection H as <-. split; [apply String.eqb_neq, Hc|].
    intros f2. destruct (load_some _ _ _ _ _ E) as [Hl _].
    unfold Prompts.loadPromptFromFile. rewrite Hl, Hc. reflexivity.
  - unfold Prompts.get_content.
    intros Hnone Hempty f2. rewrite (load_uncached f1 cache step Hnone), Hempty. simpl.
    unfold Prompts.loadPromptFromFile. rewrite lookup_insert_eq. reflexivity.
  - unfold Prompts.get_content.
    intros Hnone Hmiss. rewrite (load_uncached f1 cache step Hnone), Hmiss. simpl.
    split; [reflexivity|]. intros f2 c Hc Hne.
    rewrite (load_uncached f2 cache step Hnone), Hc.
    apply String.eqb_neq in Hne. rewrite Hne. reflexivity.
Qed.

Lemma prompt_route_answers_witness :
  Prompts.get_content (disk_with "filled")
    (snd (Prompts.get_content (disk_with "") ∅ "prompt1")) "prompt1"
  = (Prompts.NotFound, snd (Prompts.get_content (disk_with "") ∅ "prompt1")).
Proof.
  apply (proj1 (proj2 (proj2 (prompt_route_answers (disk_with "") ∅ "prompt1"))));
    reflexivity.
Defined.

(** ** The configuration endpoint *)

Lemma known_setting (env : environment) (key : string) :
  In (JS.toUpperCase key) default_keys ->
  exists v, Settings.getSetting env key = Some v /\ String.eqb v "" = false.
Proof.
  intros Hk. destruct (Settings.getSetting env key) as [v|] eqn:E.
  - exists v. split; [reflexivity|]. apply String.eqb_neq, (getSetting_nonempty env key v E).
  - exfalso. revert E. unfold Settings.getSetting.
    pose proof (defaults_known _ Hk) as Hd.
    destruct (env (JS.toUpperCase key)) as [value|]; [|exact Hd].
    destruct (String.eqb value ""); [exact Hd|discriminate].
Qed.

Lemma config_pair (h : host) (env : environment) (km kt : string) :
  In (JS.toUpperCase km) default_keys -> In (JS.toUpperCase kt) default_keys ->
  Config.or_text (Settings.getSetting env km) "openai/gpt-5.1"
  = match Settings.getSetting env km with
    | Some m => m
    | None => "openai/gpt-5.1"%string
    end /\
  parseFloat h (Config.or_text (Settings.getSetting env kt) "0.7")
  = match Settings.getSetting env kt with
    | Some t => parseFloat h t
    | None => None
    end.
Proof.
  intros Hm Ht.
  destruct (known_setting env km Hm) as [vm [Em Nm]].
  destruct (known_setting env kt Ht) as [vt [Et Nt]].
  rewrite Em, Et. unfold Config.or_text. rewrite Nm, Nt. split; reflexivity.
Qed.

Lemma config_entry (h : host) (env : environment) (ty : string) :
  In ty Api.job_types ->
  Config.model (entry_for (Config.get_config h env) ty)
  = Settings.model_for env (JS.toUpperCase ty) /\
  Config.temperature (entry_for (Config.get_config h env) ty)
  = Settings.temperature_for h env (JS.toUpperCase ty).
Proof.
  intros Hty. destruct Hty as [<-|[<-|[<-|[]]]].
  - apply (config_pair h env "PROMPT1_MODEL" "PROMPT1_TEMPERATURE"); simpl; auto 10.
  - apply (config_pair h env "PROMPT2_MODEL" "PROMPT2_TEMPERATURE"); simpl; auto 10.
  - apply (config_pair h env "REPORT_TEMPLATE_MODEL" "REPORT_TEMPLATE_TEMPERATURE");
      simpl; auto 10.
Qed.

(** X6. For each of the three job types, the model and the temperature
    that GET /api/config reports are the ones the worker puts in the
    request of a job of that type. The endpoint reports the key as
    configured exactly when [getOpenRouterApiKey] returns one, which is
    then the key of the worker's request; when it reports none, the run
    of every job fails at once for the lack of a key, without a call. *)
Theorem config_reports_what_the_worker_sends (h : host) (env : environment)
  (job : Store.job) :
  In (Store.job_type job) Api.job_types ->
  let entry := entry_for (Config.get_config h env) (Store.job_type job) in
  (forall c, Worker.build_request h env job = inr c ->
     Upstream.model (Upstream.body c) = Config.model entry /\
     Upstream.temperature (Upstream.body c) = Config.temperature entry /\
     Config.configured (Config.get_config h env) = true /\
     exists key, Settings.getOpenRouterApiKey env = Some key /\
                 Upstream.authorization c = ("Bearer " +:+ key)%string) /\
  (Config.configured (Config.get_config h env) = true <->
   exists key, Settings.getOpenRouterApiKey env = Some key) /\
  (Config.configured (Config.get_config h env) = false ->
   forall up, Worker.run_job h env up job
              = (Worker.Failed "OpenRouter API key not configured.", [])).
Proof.
  intros Hty. cbv zeta. destruct (config_entry h env _ Hty) as [Hm Ht].
  rewrite Hm, Ht. unfold Worker.run_job, Worker.build_request, Config.get_config. simpl.
  destruct (Settings.getOpenRouterApiKey env) as [key|].
  - refine (conj _ (conj _ _)).
    + intros c.
      destruct (JS.get (Store.input_data job) (JS.KName "messages")) as [e|msgs];
        [discriminate|].
      simpl. destruct (JS.get (Store.input_data job) (JS.KName "max_tokens")) as [e|v];
        [discriminate|].
      simpl. intros H. injection H as <-. simpl. repeat split. exists key. split; reflexivity.
    + split; [intros _; exists key; reflexivity|reflexivity].
    + discriminate.
  - refine (conj _ (conj _ _)).
    + intros c H. discriminate H.
    + split; [discriminate|]. intros [key H]. discriminate H.
    + intros _ up. reflexivity.
Qed.

Lemma config_reports_what_the_worker_sends_witness :
  (Upstream.model (Upstream.body demo_call) = "openai/gpt-5.1"%string /\
   Upstream.temperature (Upstream.body demo_call) = Some (7 # 10)%Q /\
   Config.configured (Config.get_config demo_host demo_env) = true /\
   exists key, Settings.getOpenRouterApiKey demo_env = Some key /\
               Upstream.authorization demo_call = ("Bearer " +:+ key)%string) /\
  Worker.run_job demo_host (fun _ => None) demo_up demo_job
  = (Worker.Failed "OpenRouter API key not configured.", []).
Proof.
  split.
  - apply (proj1 (config_reports_what_the_worker_sends demo_host demo_env demo_job
                    (or_introl eq_refl)) demo_call).
    reflexivity.
  - apply (proj2 (proj2 (config_reports_what_the_worker_sends demo_host (fun _ => None)
                           demo_job (or_introl eq_refl)))).
    reflexivity.
Defined.

(** ** Reading a job back *)

Section StatusFacts.
Import Store.

Lemma update_where_id_app (f : job -> job) (i : Z) (l l' : list job) :
  update_where_id f i (l ++ l') = update_where_id f i l ++ update_where_id f i l'.
Proof. unfold update_where_id. apply List.map_app. Qed.

Lemma filter_nothing {A : Type} (p : A -> bool) (l : list A) :
  (forall x, In x l -> p x = false) -> List.filter p l = [].
Proof.
  induction l as [|a l IH]; intros H; [reflexivity|].
  simpl. rewrite (H a (or_introl eq_refl)). apply IH. intros x Hx. apply H. right. exact Hx.
Qed.

Lemma below_is_absent (i : Z) (l : list job) :
  (forall k, In k l -> id k < i) -> forall k, In k l -> id k <> i.
Proof. intros H k Hk. specialize (H k Hk). lia. Qed.

Lemma select_by_id_last (i : Z) (t : table) (l : list job) (x : job) :
  rows t = l ++ [x] -> (forall k, In k l -> id k < i) -> id x = i ->
  JobStatus.select_by_id i t = [x].
Proof.
  intros Hr Hl Hx. unfold JobStatus.select_by_id. rewrite Hr, List.filter_app.
  rewrite (filter_nothing _ l).
  - simpl. rewrite Hx, Z.eqb_refl. reflexivity.
  - intros k Hk. apply Z.eqb_neq. apply (below_is_absent i l Hl k Hk).
Qed.

Lemma submit_created (h : host) (now : Z) (jt input : JS.value) (t t' : table)
  (i : Z) (st : job_status) (ts : Z) :
  Api.submit h now jt input t = (Api.Created i st ts, t') ->
  exists ty, Api.includes Api.job_types jt = Some ty /\
             i = jobs_id_seq t /\ st = pending /\ ts = now /\
             t' = {| rows := rows t ++ [new_job i now ty input];
                     jobs_id_seq := jobs_id_seq t + 1 |}.
Proof.
  unfold Api.submit, insert_job.
  destruct (negb (JS.truthy jt) || negb (JS.truthy input))%bool; [discriminate|].
  destruct (Api.includes Api.job_types jt) as [ty|]; [|discriminate].
  destruct (negb (JS.typeof_object input)); [discriminate|].
  destruct (JS.get input (JS.KName "messages")) as [e|msgs]; [discriminate|].
  destruct (negb (JS.truthy msgs)); [discriminate|].
  destruct (jsonb_in h input); [|discriminate].
  simpl. intros H. injection H as <- <- <- <-. exists ty. repeat split.
Qed.

(** The table after a tick on a table whose only pending job is its
    last row. *)
Lemma tick_on_last (h : host) (env : environment) (up : Upstream.endpoint) (now : Z)
  (l : list job) (x : job) (seq : Z) :
  (forall k, In k l -> status k <> pending) -> (forall k, In k l -> id k < id x) ->
  status x = pending ->
  Worker.processNextJob h env up now {| rows := l ++ [x]; jobs_id_seq := seq |}
  = ({| rows := l ++ [left_row h (fst (Worker.run_job h env up x)) now x];
        jobs_id_seq := seq |},
     snd (Worker.run_job h env up x)).
Proof.
  intros Hnp Hlt Hx.
  assert (Habs : forall k, In k l -> id k <> id x) by (apply below_is_absent, Hlt).
  assert (Hsel : select_next_pending unlocked (l ++ [x]) = Some x).
  { unfold select_next_pending. rewrite List.filter_app, (filter_nothing _ l).
    - simpl. unfold selectable. rewrite Hx. reflexivity.
    - intros k Hk. unfold selectable. specialize (Hnp k Hk).
      destruct (status k); try reflexivity. contradiction. }
  unfold Worker.processNextJob, claim, left_row. simpl rows. rewrite Hsel.
  rewrite record_outcome_rows. unfold update_processing, with_rows. simpl.
  rewrite update_where_id_app, (update_where_id_absent _ _ l Habs). simpl.
  rewrite Z.eqb_refl.
  destruct (written h (fst (Worker.run_job h env up x))) as [o'|]; [|reflexivity].
  simpl. rewrite update_where_id_app, (update_where_id_absent _ _ l Habs). simpl.
  rewrite Z.eqb_refl. reflexivity.
Qed.

(** Submit, one tick, read back: the row that is read. *)
Lemma read_back_row (h : host) (env : environment) (up : Upstream.endpoint)
  (int4in : string -> option Z) (now now2 : Z) (jt input : JS.value)
  (t t1 : table) (i : Z) (st : job_status) (ts : Z) (idtext : string) :
  (forall k, In k (rows t) -> id k < jobs_id_seq t) ->
  (forall k, In k (rows t) -> status k <> pending) ->
  Api.submit h now jt input t = (Api.Created i st ts, t1) ->
  int4in idtext = Some i ->
  exists ty,
    Api.includes Api.job_types jt = Some ty /\
    JobStatus.get_job int4in idtext (fst (Worker.processNextJob h env up now2 t1))
    = JobStatus.Found
        (JobStatus.view_of
           (left_row h (fst (Worker.run_job h env up (new_job i now ty input))) now2
              (new_job i now ty input))).
Proof.
  intros Hids Hnp Hs Hi.
  destruct (submit_created _ _ _ _ _ _ _ _ _ Hs) as (ty & Hty & -> & -> & -> & ->).
  set (job := new_job (jobs_id_seq t) now ty input).
  exists ty. split; [exact Hty|].
  rewrite (tick_on_last h env up now2 (rows t) job _ Hnp Hids eq_refl). simpl fst.
  unfold JobStatus.get_job. rewrite Hi.
  rewrite (select_by_id_last _ _ (rows t)
             (left_row h (fst (Worker.run_job h env up job)) now2 job));
    [reflexivity|reflexivity|exact Hids|].
  unfold left_row. destruct (written h (fst (Worker.run_job h env up job))) as [[r|m]|];
    reflexivity.
Qed.

End StatusFacts.

(** X7. A job that has just been submitted can be read back under the
    id the submission returned: it is pending, with no result, no error
    and no completion time, and was created at the time of the insert. *)
Theorem submitted_job_is_visible (h : host) (int4in : string -> option Z) (now : Z)
  (jt input : JS.value) (t t' : Store.table) (i : Z) (st : Store.job_status) (ts : Z)
  (idtext : string) :
  (forall k, In k (Store.rows t) -> Store.id k < Store.jobs_id_seq t) ->
  Api.submit h now jt input t = (Api.Created i st ts, t') ->
  int4in idtext = Some i ->
  exists ty,
    Api.includes Api.job_types jt = Some ty /\
    JobStatus.get_job int4in idtext t'
    = JobStatus.Found
        {| JobStatus.id := i; JobStatus.job_type := ty; JobStatus.status := Store.pending;
           JobStatus.result := None; JobStatus.error := None;
           JobStatus.created_at := now; JobStatus.completed_at := None |}.
Proof.
  intros Hids Hs Hi.
  destruct (submit_created _ _ _ _ _ _ _ _ _ Hs) as (ty & Hty & -> & -> & -> & ->).
  exists ty. split; [exact Hty|]. unfold JobStatus.get_job. rewrite Hi.
  rewrite (select_by_id_last _ _ (Store.rows t) (Store.new_job (Store.jobs_id_seq t) now ty input));
    [reflexivity|reflexivity|exact Hids|reflexivity].
Qed.

Lemma submitted_job_is_visible_witness :
  exists ty,
    Api.includes Api.job_types (JS.Str "prompt1") = Some ty /\
    JobStatus.get_job demo_int4in "1" (Queue.db demo_s1)
    = JobStatus.Found
        {| JobStatus.id := 1; JobStatus.job_type := ty; JobStatus.status := Store.pending;
           JobStatus.result := None; JobStatus.error := None;
           JobStatus.created_at := 7; JobStatus.completed_at := None |}.
Proof.
  apply (submitted_job_is_visible demo_host demo_int4in 7 (JS.Str "prompt1") demo_input
           Store.initial (Queue.db demo_s1) 1 Store.pending 7 "1").
  - intros k [].
  - reflexivity.
  - reflexivity.
Defined.

(** X8. Submit, one tick, read back. On a table with no pending job, a
    job that is submitted and then met by one tick of the worker never
    reads back as pending. When the database takes the text of the run's
    outcome it reads back as completed with the result of the run and no
    error, or as failed with the error of the run and no result, in both
    cases with the time of the tick as its completion time. When the run
    failed and the database refuses its message, the job reads back as
    processing, with no result, no error and no completion time. *)
Theorem submitted_job_reads_back_settled (h : host) (env : environment)
  (up : Upstream.endpoint) (int4in : string -> option Z) (now now2 : Z)
  (jt input : JS.value) (t t1 : Store.table) (i : Z) (st : Store.job_status) (ts : Z)
  (idtext : string) :
  (forall k, In k (Store.rows t) -> Store.id k < Store.jobs_id_seq t) ->
  (forall k, In k (Store.rows t) -> Store.status k <> Store.pending) ->
  Api.submit h now jt input t = (Api.Created i st ts, t1) ->
  int4in idtext = Some i ->
  exists ty v,
    Api.includes Api.job_types jt = Some ty /\
    JobStatus.get_job int4in idtext (fst (Worker.processNextJob h env up now2 t1))
    = JobStatus.Found v /\
    JobStatus.id v = i /\ JobStatus.job_type v = ty /\
    JobStatus.created_at v = now /\ JobStatus.status v <> Store.pending /\
    (text_in h (outcome_text (fst (Worker.run_job h env up (Store.new_job i now ty input))))
     = None ->
     JobStatus.completed_at v = Some now2 /\
     match fst (Worker.run_job h env up (Store.new_job i now ty input)) with
     | Worker.Completed r =>
         JobStatus.status v = Store.completed /\
         JobStatus.result v = Some r /\ JobStatus.error v = None
     | Worker.Failed msg =>
         JobStatus.status v = Store.failed /\
         JobStatus.error v = Some msg /\ JobStatus.result v = None
     end) /\
    (forall msg e,
       fst (Worker.run_job h env up (Store.new_job i now ty input)) = Worker.Failed msg ->
       text_in h msg = Some e ->
       JobStatus.status v = Store.processing /\ JobStatus.result v = None /\
       JobStatus.error v = None /\ JobStatus.completed_at v = None).
Proof.
  intros Hids Hnp Hs Hi.
  destruct (read_back_row h env up int4in now now2 jt input t t1 i st ts idtext Hids Hnp Hs Hi)
    as (ty & Hty & Hget).
  exists ty. eexists. split; [exact Hty|]. split; [exact Hget|].
  unfold left_row, written.
  set (o := fst (Worker.run_job h env up (Store.new_job i now ty input))).
  refine (conj _ (conj _ (conj _ (conj _ (conj _ _))))).
  - destruct (text_in h (outcome_text o)) as [e|]; [destruct o as [r|m]|destruct o as [r|m]];
      try destruct (text_in h (JS.message e)); reflexivity.
  - destruct (text_in h (outcome_text o)) as [e|]; [destruct o as [r|m]|destruct o as [r|m]];
      try destruct (text_in h (JS.message e)); reflexivity.
  - destruct (text_in h (outcome_text o)) as [e|]; [destruct o as [r|m]|destruct o as [r|m]];
      try destruct (text_in h (JS.message e)); reflexivity.
  - destruct (text_in h (outcome_text o)) as [e|]; [destruct o as [r|m]|destruct o as [r|m]];
      try destruct (text_in h (JS.message e)); discriminate.
  - intros Hok. rewrite Hok. destruct o as [r|m]; repeat split; reflexivity.
  - intros msg e Ho Hrefused. rewrite Ho. simpl. rewrite Hrefused. repeat split.
Qed.

Lemma submitted_job_reads_back_settled_witness :
  exists ty v,
    Api.includes Api.job_types (JS.Str "prompt1") = Some ty /\
    JobStatus.get_job demo_int4in "1"
      (fst (Worker.processNextJob demo_host demo_env nul_up 9 (Queue.db demo_s1)))
    = JobStatus.Found v /\
    JobStatus.id v = 1 /\ JobStatus.job_type v = ty /\
    JobStatus.created_at v = 7 /\ JobStatus.status v <> Store.pending /\
    (text_in demo_host
       (outcome_text (fst (Worker.run_job demo_host demo_env nul_up
                             (Store.new_job 1 7 ty demo_input)))) = None ->
     JobStatus.completed_at v = Some 9 /\
     match fst (Worker.run_job demo_host demo_env nul_up (Store.new_job 1 7 ty demo_input)) with
     | Worker.Completed r =>
         JobStatus.status v = Store.completed /\
         JobStatus.result v = Some r /\ JobStatus.error v = None
     | Worker.Failed msg =>
         JobStatus.status v = Store.failed /\
         JobStatus.error v = Some msg /\ JobStatus.result v = None
     end) /\
    (forall msg e,
       fst (Worker.run_job demo_host demo_env nul_up (Store.new_job 1 7 ty demo_input))
       = Worker.Failed msg ->
       text_in demo_host msg = Some e ->
       JobStatus.status v = Store.processing /\ JobStatus.result v = None /\
       JobStatus.error v = None /\ JobStatus.completed_at v = None).
Proof.
  apply (submitted_job_reads_back_settled demo_host demo_env nul_up demo_int4in 7 9
           (JS.Str "prompt1") demo_input Store.initial (Queue.db demo_s1) 1 Store.pending 7 "1").
  - intros k [].
  - intros k [].
  - reflexivity.
  - reflexivity.
Defined.

(** ** What a run of the worker needs to complete a job *)

Lemma read_completion_answer (h : host) (f : Upstream.fetched) (v : JS.value) :
  Worker.read_completion h f = inr v ->
  exists resp data,
    f = Upstream.Responds resp /\ Upstream.ok resp = true /\
    (500 <= String.length (Upstream.text resp))%nat /\
    JSON_parse h (Upstream.text resp) = inr data /\ Worker.content_of data = inr v.
Proof.
  unfold Worker.read_completion. destruct f as [e|resp]; [discriminate|].
  destruct (Upstream.ok resp) eqn:Hok; simpl; [|discriminate].
  destruct (String.length (Upstream.text resp) <? 500)%nat eqn:Hlen; [discriminate|].
  apply Nat.ltb_ge in Hlen.
  destruct (JSON_parse h (Upstream.text resp)) as [e|data] eqn:Hp; simpl; [discriminate|].
  intros Hc. exists resp, data. repeat split; assumption.
Qed.

Lemma settle_completed (h : host) (v : JS.value) (r : string) :
  Worker.settle h (inr v) = Worker.Completed r ->
  v <> JS.Null /\ v <> JS.Undefined /\ r = result_text h v.
Proof.
  destruct v; simpl; try discriminate; intros H; injection H as <-;
    repeat split; discriminate.
Qed.

(** The loop when the first answer comes at the attempt made after [n]
    failures. *)
Lemma retry_first_answer (h : host) (c : Upstream.call) (up : Upstream.endpoint)
  (n : nat) (v : JS.value) :
  (n < 3)%nat ->
  (forall m, (m < n)%nat -> exists e, Worker.read_completion h (up m) = inl e) ->
  Worker.read_completion h (up n) = inr v ->
  fst (Worker.retry h c up 0) = inr v /\ attempts (snd (Worker.retry h c up 0)) = S n.
Proof.
  intros Hn Hfail Hok. rewrite retry_from_start.
  destruct n as [|[|[|n]]]; try lia.
  - rewrite Hok. split; reflexivity.
  - destruct (Hfail 0%nat) as [e0 E0]; [lia|]. rewrite E0, Hok. split; reflexivity.
  - destruct (Hfail 0%nat) as [e0 E0]; [lia|]. destruct (Hfail 1%nat) as [e1 E1]; [lia|].
    rewrite E0, E1, Hok. split; reflexivity.
Qed.

(** X9. A job is completed only on a real answer: when the run ends
    completed, some attempt (the first that did not fail) met a response
    with a success status and at least 500 characters, whose parsed body
    holds a content that is neither null nor undefined, and the result
    stored is the text of that content. *)
Theorem completed_job_has_an_answer (h : host) (env : environment) (up : Upstream.endpoint)
  (job : Store.job) (r : string) :
  fst (Worker.run_job h env up job) = Worker.Completed r ->
  exists n resp data v,
    (n < 3)%nat /\ up n = Upstream.Responds resp /\ Upstream.ok resp = true /\
    (500 <= String.length (Upstream.text resp))%nat /\
    JSON_parse h (Upstream.text resp) = inr data /\ Worker.content_of data = inr v /\
    v <> JS.Null /\ v <> JS.Undefined /\ r = result_text h v /\
    (forall m, (m < n)%nat -> exists e, Worker.read_completion h (up m) = inl e) /\
    attempts (snd (Worker.run_job h env up job)) = S n.
Proof.
  unfold Worker.run_job.
  destruct (Worker.build_request h env job) as [e|c]; [discriminate|].
  simpl fst. simpl snd. rewrite retry_from_start.
  assert (Hfound : forall n v,
            (n < 3)%nat -> Worker.read_completion h (up n) = inr v ->
            Worker.settle h (inr v) = Worker.Completed r ->
            (forall m, (m < n)%nat -> exists e, Worker.read_completion h (up m) = inl e) ->
            forall k, k = S n ->
            exists n resp data v,
              (n < 3)%nat /\ up n = Upstream.Responds resp /\ Upstream.ok resp = true /\
              (500 <= String.length (Upstream.text resp))%nat /\
              JSON_parse h (Upstream.text resp) = inr data /\
              Worker.content_of data = inr v /\
              v <> JS.Null /\ v <> JS.Undefined /\ r = result_text h v /\
              (forall m, (m < n)%nat -> exists e, Worker.read_completion h (up m) = inl e) /\
              k = S n).
  { intros n v Hn Hv Hs Hbefore k ->.
    destruct (read_completion_answer h _ v Hv) as (resp & data & Hup & Hok & Hlen & Hp & Hc).
    destruct (settle_completed h v r Hs) as (N1 & N2 & Hr).
    exists n, resp, data, v. repeat split; assumption. }
  destruct (Worker.read_completion h (up 0%nat)) as [e0|v0] eqn:E0.
  - destruct (Worker.read_completion h (up 1%nat)) as [e1|v1] eqn:E1.
    + destruct (Worker.read_completion h (up 2%nat)) as [e2|v2] eqn:E2; [discriminate|].
      simpl. intros Hs. apply (Hfound 2%nat v2); [lia|exact E2|exact Hs| |reflexivity].
      intros m Hm. destruct m as [|[|m]]; [eauto|eauto|lia].
    + simpl. intros Hs. apply (Hfound 1%nat v1); [lia|exact E1|exact Hs| |reflexivity].
      intros m Hm. destruct m as [|m]; [eauto|lia].
  - simpl. intros Hs. apply (Hfound 0%nat v0); [lia|exact E0|exact Hs| |reflexivity].
    intros m Hm. lia.
Qed.

Lemma completed_job_has_an_answer_witness :
  exists n resp data v,
    (n < 3)%nat /\ flaky_up n = Upstream.Responds resp /\ Upstream.ok resp = true /\
    (500 <= String.length (Upstream.text resp))%nat /\
    JSON_parse demo_host (Upstream.text resp) = inr data /\ Worker.content_of data = inr v /\
    v <> JS.Null /\ v <> JS.Undefined /\ "ok"%string = result_text demo_host v /\
    (forall m, (m < n)%nat -> exists e, Worker.read_completion demo_host (flaky_up m) = inl e) /\
    attempts (snd (Worker.run_job demo_host demo_env flaky_up demo_job)) = S n.
Proof.
  apply (completed_job_has_an_answer demo_host demo_env flaky_up demo_job "ok"). reflexivity.
Defined.

(** X10. An answer whose content is null or absent ends the job at once:
    the loop takes it as its result, and the job is failed with the type
    error of reading [result.length], without the attempts that remain
    being made. *)
Theorem null_content_fails_without_retry (h : host) (env : environment)
  (up : Upstream.endpoint) (job : Store.job) (c : Upstream.call) (n : nat) (v : JS.value) :
  Worker.build_request h env job = inr c ->
  (n < 3)%nat ->
  (forall m, (m < n)%nat -> exists e, Worker.read_completion h (up m) = inl e) ->
  Worker.read_completion h (up n) = inr v ->
  v = JS.Null \/ v = JS.Undefined ->
  fst (Worker.run_job h env up job)
  = Worker.Failed ("Cannot read properties of "
                   +:+ (match v with JS.Null => "null" | _ => "undefined" end)
                   +:+ " (reading 'length')") /\
  attempts (snd (Worker.run_job h env up job)) = S n.
Proof.
  intros Hc Hn Hfail Hv Hnull. unfold Worker.run_job. rewrite Hc. simpl fst. simpl snd.
  destruct (retry_first_answer h c up n v Hn Hfail Hv) as [Hr Ha].
  rewrite Hr, Ha. split; [|reflexivity].
  destruct Hnull as [-> | ->]; reflexivity.
Qed.

Lemma null_content_fails_without_retry_witness :
  fst (Worker.run_job null_host demo_env demo_up demo_job)
  = Worker.Failed "Cannot read properties of null (reading 'length')" /\
  attempts (snd (Worker.run_job null_host demo_env demo_up demo_job)) = 1%nat.
Proof.
  destruct (Worker.build_request null_host demo_env demo_job) as [e|c] eqn:Hc;
    [vm_compute in Hc; discriminate|].
  apply (null_content_fails_without_retry null_host demo_env demo_up demo_job c 0 JS.Null).
  - exact Hc.
  - lia.
  - intros m Hm. lia.
  - vm_compute. reflexivity.
  - left. reflexivity.
Defined.

(** ** What a tick does to the table *)

Section TickFacts.
Import Store.

Lemma settle_row_terminal (o : Worker.outcome) (now : Z) (k : job) :
  terminal (settle_row o now k) /\ completed_at (settle_row o now k) = Some now.
Proof. destruct o; split; try reflexivity; [left|right]; reflexivity. Qed.

Lemma claim_some (t : table) (j : job) :
  fst (claim t) = Some j -> select_next_pending unlocked (rows t) = Some j.
Proof.
  unfold claim. destruct (select_next_pending unlocked (rows t)); simpl; [|discriminate].
  intros H. injection H as ->. reflexivity.
Qed.

Lemma claim_none (t : table) :
  fst (claim t) = None -> select_next_pending unlocked (rows t) = None.
Proof.
  unfold claim. destruct (select_next_pending unlocked (rows t)); simpl; [discriminate|].
  reflexivity.
Qed.

Lemma claim_table (t : table) (j : job) :
  fst (claim t) = Some j -> snd (claim t) = update_processing (id j) t.
Proof.
  unfold claim. destruct (select_next_pending unlocked (rows t)); simpl; [|discriminate].
  intros H. injection H as ->. reflexivity.
Qed.

(** A row in a table with a primary key splits the table in rows of other
    ids. *)
Lemma split_by_key (l : list job) (j : job) :
  NoDup (List.map id l) -> In j l ->
  exists l1 l2, l = l1 ++ j :: l2 /\
                (forall k, In k l1 -> id k <> id j) /\ (forall k, In k l2 -> id k <> id j).
Proof.
  intros Hnd Hin. destruct (in_split _ _ Hin) as (l1 & l2 & ->).
  exists l1, l2. split; [reflexivity|].
  rewrite List.map_app in Hnd. simpl in Hnd.
  apply NoDup_app in Hnd. destruct Hnd as (_ & Hdis & Hnd2).
  apply NoDup_cons in Hnd2. destruct Hnd2 as [Hj _].
  split; intros k Hk E.
  - apply (Hdis (id k)).
    + apply list_elem_of_In, in_map, Hk.
    + rewrite E. apply list_elem_of_In. left. reflexivity.
  - apply Hj. rewrite <- E. apply list_elem_of_In, in_map, Hk.
Qed.

Lemma tick_split (h : host) (env : environment) (up : Upstream.endpoint) (now : Z)
  (t : table) (j : job) :
  NoDup (List.map id (rows t)) -> fst (claim t) = Some j ->
  exists l1 l2,
    rows t = l1 ++ j :: l2 /\
    rows (fst (Worker.processNextJob h env up now t))
    = l1 ++ left_row h (fst (Worker.run_job h env up j)) now j :: l2.
Proof.
  intros Hnd Hc. rewrite (processNextJob_rows h env up now t j Hc). unfold left_row.
  destruct (select_some _ _ _ (claim_some t j Hc)) as (Hin & _).
  destruct (split_by_key _ _ Hnd Hin) as (l1 & l2 & Hr & H1 & H2).
  exists l1, l2. split; [exact Hr|].
  destruct (written h (fst (Worker.run_job h env up j))) as [o'|]; simpl; rewrite Hr;
    rewrite !update_where_id_app; simpl; rewrite Z.eqb_refl;
    rewrite !(update_where_id_absent _ _ l1 H1), !(update_where_id_absent _ _ l2 H2).
  - simpl. rewrite Z.eqb_refl. reflexivity.
  - reflexivity.
Qed.

Lemma pending_count_zero (t : table) :
  select_next_pending unlocked (rows t) = None -> pending_count t = 0%nat.
Proof.
  intros H. unfold pending_count. rewrite filter_nothing; [reflexivity|].
  intros k Hk. unfold is_pending. destruct (status_eqb (status k) pending) eqn:E; [|reflexivity].
  apply status_eqb_eq in E. pose proof (select_none _ _ H k Hk E) as Hl. discriminate Hl.
Qed.

Lemma left_row_not_pending (h : host) (o : Worker.outcome) (now : Z) (j : job) :
  is_pending (left_row h o now j) = false.
Proof. unfold left_row. destruct (written h o) as [[r|m]|]; reflexivity. Qed.

Lemma left_row_id (h : host) (o : Worker.outcome) (now : Z) (j : job) :
  id (left_row h o now j) = id j.
Proof. unfold left_row. destruct (written h o) as [[r|m]|]; reflexivity. Qed.

Lemma left_row_accepted (h : host) (o : Worker.outcome) (now : Z) (j : job) :
  text_in h (outcome_text o) = None -> left_row h o now j = settled_row o now j.
Proof. intros H. unfold left_row. rewrite (written_accepted h o H). reflexivity. Qed.

(** A tick on a table with a primary key: the key is kept, one pending row
    less is left (none less when there was none), no row becomes pending,
    and no row is left processing that was not, when the database takes
    the text of the run's outcome. *)
Lemma tick_counts (h : host) (env : environment) (up : Upstream.endpoint) (now : Z)
  (t : table) :
  NoDup (List.map id (rows t)) ->
  let t' := fst (Worker.processNextJob h env up now t) in
  NoDup (List.map id (rows t')) /\
  pending_count t' = Nat.pred (pending_count t) /\
  (forall k, In k (rows t') -> status k = pending -> In k (rows t)) /\
  ((forall k, In k (rows t) -> status k = pending ->
              text_in h (outcome_text (fst (Worker.run_job h env up k))) = None) ->
   (forall k, In k (rows t) -> status k <> processing) ->
   forall k, In k (rows t') -> status k <> processing).
Proof.
  intros Hnd. cbv zeta. destruct (fst (claim t)) as [j|] eqn:Hc.
  - destruct (tick_split h env up now t j Hnd Hc) as (l1 & l2 & Hr & Hr').
    pose proof (select_some _ _ _ (claim_some t j Hc)) as (Hin & Hp & _).
    refine (conj _ (conj _ (conj _ _))).
    + rewrite Hr'. rewrite Hr in Hnd. rewrite List.map_app in *. simpl in *.
      rewrite left_row_id. exact Hnd.
    + assert (Hj : is_pending j = true) by (unfold is_pending; rewrite Hp; reflexivity).
      unfold pending_count. rewrite Hr', Hr, !List.filter_app. cbn [List.filter].
      rewrite left_row_not_pending, Hj, !length_app. simpl. lia.
    + rewrite Hr', Hr. intros k Hk Hst. apply in_app_or in Hk.
      apply in_or_app. destruct Hk as [Hk|[<-|Hk]]; [left; exact Hk| |right; right; exact Hk].
      exfalso. pose proof (left_row_not_pending h (fst (Worker.run_job h env up j)) now j) as N.
      unfold is_pending in N. rewrite Hst in N. discriminate N.
    + intros Hacc Hnp. rewrite Hr'. intros k Hk. apply in_app_or in Hk.
      destruct Hk as [Hk|[<-|Hk]].
      * apply Hnp. rewrite Hr. apply in_or_app. left. exact Hk.
      * rewrite (left_row_accepted h _ now j (Hacc j Hin Hp)).
        destruct (fst (Worker.run_job h env up j)); discriminate.
      * apply Hnp. rewrite Hr. apply in_or_app. right. right. exact Hk.
  - assert (Hsame : Worker.processNextJob h env up now t = (t, [])).
    { unfold Worker.processNextJob. unfold claim in *.
      destruct (select_next_pending unlocked (rows t)); [discriminate Hc|reflexivity]. }
    rewrite Hsame. simpl. split; [exact Hnd|]. split; [|split; [auto|auto]].
    rewrite (pending_count_zero t (claim_none t Hc)). reflexivity.
Qed.

Lemma no_pending_left (t : table) (k : job) :
  pending_count t = 0%nat -> In k (rows t) -> status k <> pending.
Proof.
  unfold pending_count. intros H Hk Hp.
  assert (Hin : In k (List.filter is_pending (rows t))).
  { apply filter_In. split; [exact Hk|]. unfold is_pending. rewrite Hp. reflexivity. }
  destruct (List.filter is_pending (rows t)); [destruct Hin|discriminate H].
Qed.

End TickFacts.

(** X11. A tick changes one job at most. With nothing pending it leaves
    the table as it is and calls nothing. Otherwise the ids of the rows
    and their order, the sequence and every row of another id are as
    before, and every row of the id it claimed is left processing or
    terminal. When the database takes the text of the run's outcome, that
    row is completed with the result of the run, or failed with its
    error, at the clock of the last update; when the run failed and the
    database refuses its message, the table is what the claim left, the
    row still processing. *)
Theorem tick_changes_one_job (h : host) (env : environment) (up : Upstream.endpoint)
  (now : Z) (t : Store.table) :
  match fst (Store.claim t) with
  | None => Worker.processNextJob h env up now t = (t, [])
  | Some j =>
      let t' := fst (Worker.processNextJob h env up now t) in
      let o := fst (Worker.run_job h env up j) in
      List.map Store.id (Store.rows t') = List.map Store.id (Store.rows t) /\
      Store.jobs_id_seq t' = Store.jobs_id_seq t /\
      List.filter (fun k => negb (Store.id k =? Store.id j)) (Store.rows t')
      = List.filter (fun k => negb (Store.id k =? Store.id j)) (Store.rows t) /\
      (forall k, In k (Store.rows t') -> Store.id k = Store.id j ->
                 Store.status k = Store.processing \/
                 (terminal k /\ Store.completed_at k = Some now)) /\
      (text_in h (outcome_text o) = None ->
       forall k, In k (Store.rows t') -> Store.id k = Store.id j ->
                 Store.completed_at k = Some now /\
                 match o with
                 | Worker.Completed r =>
                     Store.status k = Store.completed /\ Store.result_data k = Some r
                 | Worker.Failed msg =>
                     Store.status k = Store.failed /\ Store.error k = Some msg
                 end) /\
      (forall msg e, o = Worker.Failed msg -> text_in h msg = Some e ->
                     t' = snd (Store.claim t))
  end.
Proof.
  destruct (fst (Store.claim t)) as [j|] eqn:Hc.
  - cbv zeta. rewrite (processNextJob_rows h env up now t j Hc).
    set (o := fst (Worker.run_job h env up j)).
    assert (Hids : List.map Store.id
                     (Store.update_where_id Store.mark_processing (Store.id j) (Store.rows t))
                   = List.map Store.id (Store.rows t))
      by (apply update_where_id_ids; intros x; reflexivity).
    assert (Hrest : List.filter (fun k => negb (Store.id k =? Store.id j))
                      (Store.update_where_id Store.mark_processing (Store.id j) (Store.rows t))
                    = List.filter (fun k => negb (Store.id k =? Store.id j)) (Store.rows t))
      by (apply update_where_id_rest; intros x; reflexivity).
    refine (conj _ (conj _ (conj _ (conj _ (conj _ _))))).
    + destruct (written h o) as [o'|]; simpl; [|exact Hids].
      rewrite update_where_id_ids; [exact Hids|intros x; apply settle_row_id].
    + destruct (written h o); reflexivity.
    + destruct (written h o) as [o'|]; simpl; [|exact Hrest].
      rewrite update_where_id_rest; [exact Hrest|intros x; apply settle_row_id].
    + intros k Hk Hid. destruct (written h o) as [o'|]; simpl in Hk.
      * apply update_where_id_inv in Hk.
        destruct Hk as [[_ Hne]|(x & _ & _ & ->)]; [contradiction|].
        right. apply settle_row_terminal.
      * apply update_where_id_inv in Hk.
        destruct Hk as [[_ Hne]|(x & _ & _ & ->)]; [contradiction|]. left. reflexivity.
    + intros Hok k Hk Hid. rewrite (written_accepted h o Hok) in Hk. simpl in Hk.
      apply update_where_id_inv in Hk.
      destruct Hk as [[_ Hne]|(x & _ & _ & ->)]; [contradiction|].
      destruct o; repeat split.
    + intros msg e Ho Hrefused. unfold written. rewrite Ho. simpl. rewrite Hrefused.
      symmetry. apply claim_table, Hc.
  - unfold Worker.processNextJob. unfold Store.claim in *.
    destruct (Store.select_next_pending Store.unlocked (Store.rows t));
      [discriminate Hc|reflexivity].
Qed.

(** X12. Ticks drain the queue. On a table where [id] is a key, as many
    ticks as there are pending rows (or more) leave no row pending,
    whatever the upstream answers. If moreover no row is processing at
    the start and the database takes the text of the outcome of every
    run that the ticks can make for a pending job, they leave every row
    completed or failed. *)
Theorem ticks_drain_the_queue (h : host) (env : environment) (p : Ticks.plan)
  (t : Store.table) :
  NoDup (List.map Store.id (Store.rows t)) ->
  (pending_count t <= length p)%nat ->
  (forall k, In k (Store.rows (Ticks.run h env p t)) -> Store.status k <> Store.pending) /\
  ((forall k, In k (Store.rows t) -> Store.status k <> Store.processing) ->
   (forall k up now, In k (Store.rows t) -> Store.status k = Store.pending ->
                     In (up, now) p ->
                     text_in h (outcome_text (fst (Worker.run_job h env up k))) = None) ->
   forall k, In k (Store.rows (Ticks.run h env p t)) -> terminal k).
Proof.
  revert t. induction p as [|[up now] p IH]; intros t Hnd Hlen.
  - simpl in *. assert (H0 : pending_count t = 0%nat) by lia.
    split; [intros k Hk; apply (no_pending_left t k H0 Hk)|].
    intros Hnp _ k Hk.
    pose proof (no_pending_left t k H0 Hk) as N1. pose proof (Hnp k Hk) as N2.
    unfold terminal. destruct (Store.status k); [contradiction|contradiction|left|right];
      reflexivity.
  - simpl Ticks.run.
    destruct (tick_counts h env up now t Hnd) as (Hnd' & Hcount & Hsub & Hproc).
    destruct (IH _ Hnd') as [IH1 IH2]; [rewrite Hcount; simpl in Hlen; lia|].
    split; [exact IH1|]. intros Hnp Hacc. apply IH2.
    + apply Hproc; [|exact Hnp].
      intros k Hk Hst. apply (Hacc k up now Hk Hst). left. reflexivity.
    + intros k up' now' Hk Hst Hin.
      apply (Hacc k up' now' (Hsub k Hk Hst) Hst). right. exact Hin.
Qed.

Lemma ticks_drain_the_queue_witness :
  List.Forall (fun k => Store.status k <> Store.pending)
    (Store.rows (Ticks.run demo_host demo_env [(nul_up, 40); (demo_up, 50)]
                   (Store.with_rows three_jobs (List.tl (Store.rows three_jobs))))) /\
  List.Forall terminal
    (Store.rows (Ticks.run demo_host demo_env [(flaky_up, 40); (demo_up, 50)]
                   (Store.with_rows three_jobs (List.tl (Store.rows three_jobs))))).
Proof.
  assert (Hkey : NoDup (List.map Store.id
                          (Store.rows (Store.with_rows three_jobs
                                         (List.tl (Store.rows three_jobs)))))).
  { simpl. apply NoDup_cons. split; [intros H; apply list_elem_of_In in H; simpl in H; lia|].
    apply NoDup_singleton. }
  split; apply List.Forall_forall.
  - apply (ticks_drain_the_queue demo_host demo_env [(nul_up, 40); (demo_up, 50)]
             (Store.with_rows three_jobs (List.tl (Store.rows three_jobs))));
      [exact Hkey|vm_compute; lia].
  - apply (ticks_drain_the_queue demo_host demo_env [(flaky_up, 40); (demo_up, 50)]
             (Store.with_rows three_jobs (List.tl (Store.rows three_jobs))));
      [exact Hkey|vm_compute; lia| |].
    + simpl. intros k [<-|[<-|[]]]; discriminate.
    + simpl. intros k up now [<-|[<-|[]]] _ [Hp|[Hp|[]]]; injection Hp as <- <-;
        vm_compute; reflexivity.
Defined.

(** X13. Ticks take the jobs in the order of their creation: the job a
    tick claims was pending before the tick that ran just before it, and
    was not created before the job that tick claimed. *)
Theorem ticks_follow_creation_order (h : host) (env : environment) (up : Upstream.endpoint)
  (now : Z) (t : Store.table) (j1 j2 : Store.job) :
  fst (Store.claim t) = Some j1 ->
  fst (Store.claim (fst (Worker.processNextJob h env up now t))) = Some j2 ->
  In j2 (Store.rows t) /\ Store.status j2 = Store.pending /\
  Store.id j2 <> Store.id j1 /\ Store.created_at j1 <= Store.created_at j2.
Proof.
  intros H1 H2.
  destruct (select_some _ _ _ (claim_some _ _ H1)) as (_ & _ & _ & Hmin).
  destruct (select_some _ _ _ (claim_some _ _ H2)) as (Hin2 & Hp2 & _).
  rewrite (processNextJob_rows h env up now t j1 H1) in Hin2.
  assert (Hmarked : In j2 (Store.update_where_id Store.mark_processing (Store.id j1)
                             (Store.rows t)) /\ Store.id j2 <> Store.id j1).
  { destruct (written h (fst (Worker.run_job h env up j1))) as [o'|]; simpl in Hin2.
    - apply update_where_id_inv in Hin2.
      destruct Hin2 as [[Hin2 Hne]|(x & _ & _ & ->)]; [split; assumption|].
      exfalso. exact (settle_row_status _ _ _ Hp2).
    - split; [exact Hin2|]. apply update_where_id_inv in Hin2.
      destruct Hin2 as [[_ Hne]|(x & _ & _ & ->)]; [exact Hne|discriminate Hp2]. }
  destruct Hmarked as [Hin Hne]. apply update_where_id_inv in Hin.
  destruct Hin as [[Hin _]|(x & _ & _ & ->)]; [|discriminate Hp2].
  refine (conj Hin (conj Hp2 (conj Hne _))). apply Hmin; [exact Hin|exact Hp2|reflexivity].
Qed.

Lemma ticks_follow_creation_order_witness :
  In (Store.new_job 2 30 "prompt2" demo_input) (Store.rows three_jobs) /\
  Store.status (Store.new_job 2 30 "prompt2" demo_input) = Store.pending /\
  Store.id (Store.new_job 2 30 "prompt2" demo_input)
  <> Store.id (Store.new_job 3 20 "report_template" demo_input) /\
  Store.created_at (Store.new_job 3 20 "report_template" demo_input)
  <= Store.created_at (Store.new_job 2 30 "prompt2" demo_input).
Proof.
  apply (ticks_follow_creation_order demo_host demo_env demo_up 40 three_jobs);
    vm_compute; reflexivity.
Defined.

(** ** The replies of the proxy *)

Section ProxyReplies.
Import Upstream.
Variables (h : host) (c : call) (up : endpoint).

Lemma attempts_app (a b : list event) : attempts (a ++ b) = (attempts a + attempts b)%nat.
Proof. unfold attempts. rewrite List.filter_app, length_app. reflexivity. Qed.

Lemma proxy_attempt_once (n : nat) : attempts (snd (Proxy.attempt h c up n)) = 1%nat.
Proof.
  destruct (proxy_attempt_trace h c up n) as [tail [-> Htail]].
  unfold backoff. destruct (0 <? n)%nat; destruct Htail as [-> | ->]; reflexivity.
Qed.

Lemma proxy_attempt_fst (n : nat) : fst (Proxy.attempt h c up n) = proxy_turn h (up n).
Proof. unfold Proxy.attempt, proxy_turn. destruct (up n); reflexivity. Qed.

(** The loop from [retries = n] on, by what its first turn yields. *)
Lemma proxy_retry_turn (n : nat) :
  (n < maxRetries)%nat ->
  match proxy_turn h (up n) with
  | inr a =>
      fst (Proxy.retry h c up n) = inr a /\ attempts (snd (Proxy.retry h c up n)) = 1%nat
  | inl e =>
      if Proxy.is_abort e then
        fst (Proxy.retry h c up n) = inr Proxy.timeout_reply /\
        attempts (snd (Proxy.retry h c up n)) = 1%nat
      else if le_dec maxRetries (S n) then
        fst (Proxy.retry h c up n) = inl e /\
        attempts (snd (Proxy.retry h c up n)) = 1%nat
      else
        fst (Proxy.retry h c up n) = fst (Proxy.retry h c up (S n)) /\
        attempts (snd (Proxy.retry h c up n))
        = S (attempts (snd (Proxy.retry h c up (S n))))
  end.
Proof.
  intros Hn. rewrite (proxy_retry_unfold h c up n).
  destruct (lt_dec n maxRetries) as [_|N]; [|contradiction].
  pose proof (proxy_attempt_fst n) as Hf. pose proof (proxy_attempt_once n) as Ha.
  destruct (Proxy.attempt h c up n) as [[e|a] tr]; simpl in Hf, Ha; rewrite <- Hf.
  - assert (Hc : attempts [ClearTimer] = 0%nat) by reflexivity.
    destruct (Proxy.is_abort e); [|destruct (le_dec maxRetries (S n))]; cbn [fst snd];
      (split; [reflexivity|]); rewrite !attempts_app, Ha, Hc; lia.
  - simpl. split; [reflexivity|exact Ha].
Qed.

Lemma proxy_retry_bound (k n : nat) :
  (maxRetries - n <= k)%nat -> (attempts (snd (Proxy.retry h c up n)) <= maxRetries - n)%nat.
Proof.
  revert n. induction k as [|k IH]; intros n Hk.
  - rewrite (proxy_retry_unfold h c up n). destruct (lt_dec n maxRetries); [lia|].
      apply Nat.le_0_l.
  - destruct (lt_dec n maxRetries) as [Hn|Hn].
    + pose proof (proxy_retry_turn n Hn) as Ht.
      destruct (proxy_turn h (up n)) as [e|a]; [|destruct Ht as [_ ->]; lia].
      destruct (Proxy.is_abort e); [destruct Ht as [_ ->]; lia|].
      destruct (le_dec maxRetries (S n)); destruct Ht as [_ ->]; [lia|].
      specialize (IH (S n) ltac:(lia)). lia.
    + rewrite (proxy_retry_unfold h c up n). destruct (lt_dec n maxRetries); [lia|].
      apply Nat.le_0_l.
Qed.

(** A reply of the loop is the final reply of one of its turns. *)
Lemma proxy_retry_closed (k n : nat) (a : Proxy.reply) :
  (maxRetries - n <= k)%nat -> fst (Proxy.retry h c up n) = inr a ->
  exists m, (n <= m < maxRetries)%nat /\ final_reply (proxy_turn h (up m)) = Some a.
Proof.
  revert n. induction k as [|k IH]; intros n Hk Hr.
  - rewrite (proxy_retry_unfold h c up n) in Hr.
    destruct (lt_dec n maxRetries); [lia|discriminate Hr].
  - destruct (lt_dec n maxRetries) as [Hn|Hn].
    + pose proof (proxy_retry_turn n Hn) as Ht.
      destruct (proxy_turn h (up n)) as [e|a'] eqn:E.
      * destruct (Proxy.is_abort e) eqn:Hab.
        -- destruct Ht as [Ht _]. rewrite Ht in Hr. injection Hr as <-.
           exists n. split; [lia|]. rewrite E. simpl. rewrite Hab. reflexivity.
        -- destruct (le_dec maxRetries (S n)); destruct Ht as [Ht _]; rewrite Ht in Hr;
             [discriminate Hr|].
           destruct (IH (S n)) as (m & Hm & Hfin); [lia|exact Hr|].
           exists m. split; [lia|exact Hfin].
      * destruct Ht as [Ht _]. rewrite Ht in Hr. injection Hr as <-.
        exists n. split; [lia|]. rewrite E. reflexivity.
    + rewrite (proxy_retry_unfold h c up n) in Hr.
      destruct (lt_dec n maxRetries); [lia|discriminate Hr].
Qed.

(** The loop stops at the first turn that has a final reply. *)
Lemma proxy_retry_final (d i n : nat) (a : Proxy.reply) :
  (n = i + d)%nat -> (n < maxRetries)%nat ->
  (forall m, (i <= m < n)%nat -> final_reply (proxy_turn h (up m)) = None) ->
  final_reply (proxy_turn h (up n)) = Some a ->
  fst (Proxy.retry h c up i) = inr a /\
  attempts (snd (Proxy.retry h c up i)) = S d.
Proof.
  revert i. induction d as [|d IH]; intros i Hd Hn Hbefore Hfin.
  - assert (n = i) as -> by lia. pose proof (proxy_retry_turn i Hn) as Ht.
    destruct (proxy_turn h (up i)) as [e|a']; simpl in Hfin.
    + destruct (Proxy.is_abort e); [|discriminate Hfin]. injection Hfin as <-. exact Ht.
    + injection Hfin as <-. exact Ht.
  - assert (Hi : (i < maxRetries)%nat) by lia.
    pose proof (proxy_retry_turn i Hi) as Ht.
    pose proof (Hbefore i ltac:(lia)) as Hnone.
    destruct (proxy_turn h (up i)) as [e|a']; simpl in Hnone; [|discriminate Hnone].
    destruct (Proxy.is_abort e); [discriminate Hnone|].
    destruct (le_dec maxRetries (S i)); [lia|]. destruct Ht as [-> ->].
    destruct (IH (S i)) as [Hr Ha]; [lia|exact Hn| |exact Hfin|].
    + intros m Hm. apply Hbefore. lia.
    + rewrite Hr, Ha. split; reflexivity.
Qed.

End ProxyReplies.

Lemma final_reply_cases (h : host) (f : Upstream.fetched) (a : Proxy.reply) :
  final_reply (proxy_turn h f) = Some a ->
  (exists resp data,
     f = Upstream.Responds resp /\ Upstream.ok resp = true /\
     (500 <= String.length (Upstream.text resp))%nat /\
     JSON_parse h (Upstream.text resp) = inr data /\ a = Proxy.Reply 200 data) \/
  (exists resp,
     f = Upstream.Responds resp /\ Upstream.ok resp = false /\
     a = Proxy.error_reply (Upstream.status resp)
           "OpenRouter API error. Please try again or contact support if the issue persists.") \/
  (exists e, f = Upstream.Rejects e /\ Proxy.is_abort e = true /\ a = Proxy.timeout_reply).
Proof.
  destruct f as [e|resp]; simpl.
  - destruct (Proxy.is_abort e) eqn:Hab; [|discriminate]. intros H. injection H as <-.
    right. right. exists e. repeat split. exact Hab.
  - unfold Proxy.read_response. destruct (Upstream.ok resp) eqn:Hok; simpl.
    + destruct (String.length (Upstream.text resp) <? 500)%nat eqn:Hlen; [discriminate|].
      apply Nat.ltb_ge in Hlen.
      destruct (JSON_parse h (Upstream.text resp)) as [e|data] eqn:Hp; [discriminate|].
      intros H. left. exists resp, data.
      destruct data; simpl in H; try discriminate H; injection H as <-;
        repeat split; assumption.
    + intros H. injection H as <-. right. left. exists resp. repeat split. exact Hok.
Qed.

(** X14. The replies of the proxy form a closed set. A reply is either
    200 with the parsed body of an upstream response that had a success
    status and at least 500 characters, or an error whose message is one
    of five fixed texts: nothing the upstream says in an error, and no
    text of an exception, reaches the caller. The upstream is called
    three times at most. *)
Theorem proxy_reply_is_closed (h : host) (env : environment) (up : Upstream.endpoint)
  (step msgs budget : JS.value) :
  ((exists n resp data,
      (n < 3)%nat /\ up n = Upstream.Responds resp /\ Upstream.ok resp = true /\
      (500 <= String.length (Upstream.text resp))%nat /\
      JSON_parse h (Upstream.text resp) = inr data /\
      fst (Proxy.handle h env up step msgs budget) = Proxy.Reply 200 data) \/
   (exists code msg,
      fst (Proxy.handle h env up step msgs budget) = Proxy.error_reply code msg /\
      In msg proxy_messages)) /\
  (attempts (snd (Proxy.handle h env up step msgs budget)) <= 3)%nat.
Proof.
  unfold Proxy.handle.
  destruct (negb (JS.truthy step)).
  { split; [right|unfold attempts; simpl; lia]. eexists _, _. split; [reflexivity|]. simpl. auto. }
  destruct (Settings.getOpenRouterApiKey env) as [key|].
  2: { split; [right|unfold attempts; simpl; lia]. eexists _, _. split; [reflexivity|]. simpl. auto. }
  assert (Hfailed : exists code msg,
             Proxy.failed_reply = Proxy.error_reply code msg /\ In msg proxy_messages).
  { eexists _, _. split; [reflexivity|]. simpl. auto 10. }
  destruct step; try (split; [right; exact Hfailed|unfold attempts; simpl; lia]).
  simpl fst. simpl snd.
  match goal with |- context [Proxy.retry h ?c0 up 0] => set (c := c0) end.
  split; [|apply (proxy_retry_bound h c up 3 0); simpl; lia].
  destruct (fst (Proxy.retry h c up 0)) as [e|a] eqn:Hr; [right; exact Hfailed|].
  destruct (proxy_retry_closed h c up 3 0 a) as (m & Hm & Hfin); [simpl; lia|exact Hr|].
  unfold Upstream.maxRetries in Hm.
  destruct (final_reply_cases h (up m) a Hfin)
    as [(resp & data & Hup & Hok & Hlen & Hp & ->)
       |[(resp & Hup & Hok & ->)|(e & Hup & Hab & ->)]].
  - left. exists m, resp, data. repeat split; try assumption. lia.
  - right. eexists _, _. split; [reflexivity|]. simpl. auto 10.
  - right. eexists _, _. split; [reflexivity|]. simpl. auto 10.
Qed.

(** X15. The proxy stops at the first turn that ends its loop: after
    turns whose error is not an abort, the turn that meets a response
    with an error status, an answer that can be read, or an abort gives
    the reply of the request, and the upstream is not called again. *)
Theorem proxy_stops_at_first_reply (h : host) (env : environment) (up : Upstream.endpoint)
  (s : string) (msgs budget : JS.value) (key : string) (n : nat) (a : Proxy.reply) :
  JS.truthy (JS.Str s) = true ->
  Settings.getOpenRouterApiKey env = Some key ->
  (n < 3)%nat ->
  (forall m, (m < n)%nat -> final_reply (proxy_turn h (up m)) = None) ->
  final_reply (proxy_turn h (up n)) = Some a ->
  fst (Proxy.handle h env up (JS.Str s) msgs budget) = a /\
  attempts (snd (Proxy.handle h env up (JS.Str s) msgs budget)) = S n.
Proof.
  intros Hs Hkey Hn Hbefore Hfin. unfold Proxy.handle. rewrite Hs, Hkey. simpl negb. cbv iota.
  simpl fst. simpl snd.
  match goal with |- context [Proxy.retry h ?c0 up 0] => set (c := c0) end.
  destruct (proxy_retry_final h c up n 0 n a) as [Hr Ha];
    [reflexivity|exact Hn| |exact Hfin|].
  - intros m Hm. apply Hbefore. lia.
  - rewrite Hr, Ha. split; reflexivity.
Qed.

Lemma proxy_stops_at_first_reply_witness :
  fst (Proxy.handle demo_host demo_env busy_up (JS.Str "prompt1") (JS.Arr []) JS.Undefined)
  = Proxy.error_reply 429
      "OpenRouter API error. Please try again or contact support if the issue persists." /\
  attempts (snd (Proxy.handle demo_host demo_env busy_up (JS.Str "prompt1") (JS.Arr [])
                   JS.Undefined)) = 2%nat.
Proof.
  apply (proxy_stops_at_first_reply demo_host demo_env busy_up "prompt1" (JS.Arr [])
           JS.Undefined "sk-demo" 1).
  - reflexivity.
  - reflexivity.
  - lia.
  - intros m Hm. assert (m = 0%nat) as -> by lia. reflexivity.
  - reflexivity.
Defined.

(** X16. A response with an error status is final for the proxy and is
    one more failed attempt for the worker: met at the first call, it
    makes the proxy answer with that status after this one call, while
    the worker waits 2000 ms and calls again. *)
Theorem error_status_is_retried_by_the_worker_only (h : host) (env : environment)
  (up : Upstream.endpoint) (s : string) (msgs budget : JS.value) (key : string)
  (job : Store.job) (c : Upstream.call) (resp : Upstream.response) :
  JS.truthy (JS.Str s) = true ->
  Settings.getOpenRouterApiKey env = Some key ->
  Worker.build_request h env job = inr c ->
  up 0%nat = Upstream.Responds resp ->
  Upstream.ok resp = false ->
  (fst (Proxy.handle h env up (JS.Str s) msgs budget)
   = Proxy.error_reply (Upstream.status resp)
       "OpenRouter API error. Please try again or contact support if the issue persists." /\
   attempts (snd (Proxy.handle h env up (JS.Str s) msgs budget)) = 1%nat) /\
  (exists rest,
     snd (Worker.run_job h env up job)
     = Upstream.Fetch c :: Upstream.Sleep 2000 :: Upstream.Fetch c :: rest).
Proof.
  intros Hs Hkey Hc Hup Hok. split.
  - unfold Proxy.handle. rewrite Hs, Hkey. simpl negb. cbv iota. simpl fst. simpl snd.
    match goal with |- context [Proxy.retry h ?c0 up 0] => set (c1 := c0) end.
    destruct (proxy_retry_final h c1 up 0 0 0
                (Proxy.error_reply (Upstream.status resp)
                   "OpenRouter API error. Please try again or contact support if the issue persists."))
      as [Hr Ha]; [reflexivity|unfold Upstream.maxRetries; lia|intros m Hm; lia| |].
    + rewrite Hup. simpl. unfold Proxy.read_response. rewrite Hok. reflexivity.
    + rewrite Hr, Ha. split; reflexivity.
  - unfold Worker.run_job. rewrite Hc. simpl snd. rewrite retry_from_start.
    assert (H0 : exists e, Worker.read_completion h (up 0%nat) = inl e).
    { rewrite Hup. unfold Worker.read_completion. rewrite Hok. eexists. reflexivity. }
    destruct H0 as [e0 ->].
    destruct (Worker.read_completion h (up 1%nat)); [|eexists; reflexivity].
    destruct (Worker.read_completion h (up 2%nat)); eexists; reflexivity.
Qed.

Lemma error_status_is_retried_by_the_worker_only_witness :
  (fst (Proxy.handle demo_host demo_env (fun n => busy_up (S n)) (JS.Str "prompt1")
          (JS.Arr []) JS.Undefined)
   = Proxy.error_reply 429
       "OpenRouter API error. Please try again or contact support if the issue persists." /\
   attempts (snd (Proxy.handle demo_host demo_env (fun n => busy_up (S n)) (JS.Str "prompt1")
                    (JS.Arr []) JS.Undefined)) = 1%nat) /\
  (exists rest,
     snd (Worker.run_job demo_host demo_env (fun n => busy_up (S n)) demo_job)
     = Upstream.Fetch demo_call :: Upstream.Sleep 2000 :: Upstream.Fetch demo_call :: rest).
Proof.
  apply (error_status_is_retried_by_the_worker_only demo_host demo_env
           (fun n => busy_up (S n)) "prompt1" (JS.Arr []) JS.Undefined "sk-demo" demo_job
           demo_call {| Upstream.status := 429; Upstream.text := "slow down" |});
    reflexivity.
Defined.

(** ** The life of a row *)

Section Lifecycle.
Import Store Queue.

Lemma advances_refl (k : job) : advances k k.
Proof. unfold advances. repeat split; lia. Qed.

Lemma advances_trans (a b c : job) : advances a b -> advances b c -> advances a c.
Proof.
  unfold advances. intros (A1 & A2 & A3 & A4 & A5) (B1 & B2 & B3 & B4 & B5).
  repeat split; try congruence. lia.
Qed.

Lemma advances_settle (o : Worker.outcome) (now : Z) (k : job) :
  advances k (settle_row o now k).
Proof. unfold advances. destruct o; simpl; repeat split; destruct (status k); simpl; lia. Qed.

Lemma step_seq (s s' : state) : step s s' -> jobs_id_seq (db s) <= jobs_id_seq (db s').
Proof.
  intros Hstep.
  destruct Hstep as [s s' Hc|s w j h env up now Hw|s h now job_type input_data|s now].
  - destruct Hc as [s w Hw|s w Hw|s w j Hw|s w j Hw|s w Hw|s w p Hw Hp]; simpl; try lia.
    unfold select. destruct (select_next_pending _ _); simpl; lia.
  - simpl. rewrite record_outcome_rows.
    destruct (written h (fst (Worker.run_job h env up j))); simpl; lia.
  - simpl. destruct (submit_table h now job_type input_data (db s)) as [E|[ty E]];
      rewrite E; simpl; lia.
  - simpl. lia.
Qed.

(** A row of the table after a step, with an id the sequence had given
    out before the step, is what a row of the table before the step has
    become. *)
Lemma step_lineage (s s' : state) :
  inv s -> step s s' ->
  forall k', In k' (rows (db s')) -> id k' < jobs_id_seq (db s) ->
  exists k, In k (rows (db s)) /\ advances k k'.
Proof.
  intros Hinv Hstep.
  assert (Hsame : forall k', In k' (rows (db s)) -> exists k, In k (rows (db s)) /\ advances k k').
  { intros k' Hk'. exists k'. split; [exact Hk'|apply advances_refl]. }
  destruct Hstep as [s s' Hc|s w j h env up now Hw|s h now job_type input_data|s now].
  - destruct Hc as [s w Hw|s w Hw|s w j Hw|s w j Hw|s w Hw|s w p Hw Hp]; simpl;
      try (intros k' Hk' _; apply Hsame, Hk').
    + unfold select. destruct (select_next_pending _ _); simpl;
        intros k' Hk' _; apply Hsame, Hk'.
    + intros k' Hk' _. apply update_where_id_inv in Hk'.
      destruct Hk' as [[Hk' _]|[k0 [Hk0 [Hid ->]]]]; [apply Hsame, Hk'|].
      pose proof (inv_phase s Hinv w _ Hw) as (_ & Hin & Hp). 
      assert (k0 = j) as -> by (apply (key_unique _ _ _ (ok_key _ (inv_table _ Hinv)) Hk0 Hin Hid)).
      exists j. split; [exact Hin|]. unfold advances. rewrite Hp. simpl. repeat split. lia.
  - simpl. rewrite record_outcome_rows.
    destruct (written h (fst (Worker.run_job h env up j))) as [o'|];
      [|intros k' Hk' _; apply Hsame, Hk'].
    simpl. intros k' Hk' _.
    apply update_where_id_inv in Hk'.
    destruct Hk' as [[Hk' _]|[k0 [Hk0 [Hid ->]]]]; [apply Hsame, Hk'|].
    exists k0. split; [exact Hk0|apply advances_settle].
  - simpl. intros k' Hk' Hlt.
    destruct (submit_table h now job_type input_data (db s)) as [E|[ty E]];
      rewrite E in Hk'; [apply Hsame, Hk'|].
    simpl in Hk'. apply in_app_or in Hk'. destruct Hk' as [Hk'|[<-|[]]]; [apply Hsame, Hk'|].
    simpl in Hlt. lia.
  - simpl. intros k' Hk' _. unfold Sweeper.cleanupOldJobs, delete_old_terminal in Hk'.
    simpl in Hk'. apply filter_In in Hk'. apply Hsame. tauto.
Qed.

Lemma inv_run (s s' : state) : inv s -> rtc step s s' -> inv s'.
Proof. intros Hinv Hrun. induction Hrun as [|x y z Hxy _ IH]; [exact Hinv|]. apply IH, (inv_step x y Hinv Hxy). Qed.

Lemma run_lineage (s s' : state) :
  inv s -> rtc step s s' ->
  forall k', In k' (rows (db s')) -> id k' < jobs_id_seq (db s) ->
  exists k, In k (rows (db s)) /\ advances k k'.
Proof.
  intros Hinv Hrun. induction Hrun as [x|x y z Hxy _ IH]; intros k' Hk' Hlt.
  - exists k'. split; [exact Hk'|apply advances_refl].
  - pose proof (step_seq x y Hxy) as Hseq.
    destruct (IH (inv_step x y Hinv Hxy) k' Hk' ltac:(lia)) as (k1 & Hk1 & A1).
    destruct (step_lineage x y Hinv Hxy k1 Hk1) as (k & Hk & A).
    + destruct A1 as (E & _). lia.
    + exists k. split; [exact Hk|]. apply (advances_trans _ _ _ A A1).
Qed.

(** A terminal row after a step: it is there as it was, or no row has
    its id any more. *)
Lemma step_frozen (s s' : state) (k : job) :
  inv s -> step s s' -> In k (rows (db s)) -> terminal k ->
  In k (rows (db s')) \/ forall k2, In k2 (rows (db s')) -> id k2 <> id k.
Proof.
  intros Hinv Hstep Hk Ht.
  pose proof (ok_key _ (inv_table _ Hinv)) as Hkey.
  destruct Hstep as [s s' Hc|s w j h env up now Hw|s h now job_type input_data|s now].
  - destruct Hc as [s w Hw|s w Hw|s w j Hw|s w j Hw|s w Hw|s w p Hw Hp]; simpl; auto.
    + unfold select. destruct (select_next_pending _ _); simpl; auto.
    + left. apply update_where_id_other; [exact Hk|]. intros Hid.
      pose proof (inv_phase s Hinv w _ Hw) as (_ & Hin & Hp).
      assert (k = j) as -> by (apply (key_unique _ _ _ Hkey Hk Hin Hid)).
      destruct Ht as [Ht|Ht]; rewrite Hp in Ht; discriminate Ht.
  - left. simpl. rewrite record_outcome_rows.
    destruct (written h (fst (Worker.run_job h env up j))) as [o'|]; [|exact Hk].
    simpl. apply update_where_id_other; [exact Hk|]. intros Hid.
    pose proof (inv_phase s Hinv w _ Hw) as Hin. simpl in Hin.
    assert (k = mark_processing j) as -> by (apply (key_unique _ _ _ Hkey Hk Hin Hid)).
    destruct Ht as [Ht|Ht]; discriminate Ht.
  - left. simpl. destruct (submit_table h now job_type input_data (db s)) as [E|[ty E]];
      rewrite E; [exact Hk|]. simpl. apply in_or_app. left. exact Hk.
  - simpl. unfold Sweeper.cleanupOldJobs, delete_old_terminal. simpl.
    destruct (old_terminal (now - 6 * 60 * 60 * 1000) k) eqn:Hold.
    + right. intros k2 Hk2 Hid. apply filter_In in Hk2. destruct Hk2 as [Hk2 Hkeep].
      assert (k2 = k) as -> by (apply (key_unique _ _ _ Hkey Hk2 Hk Hid)).
      rewrite Hold in Hkeep. discriminate Hkeep.
    + left. apply filter_In. split; [exact Hk|]. rewrite Hold. reflexivity.
Qed.

(** A row that is not terminal is still there after a step, as it was or
    further in its life. *)
Lemma step_keeps_unfinished (s s' : state) (k : job) :
  step s s' -> In k (rows (db s)) -> ~ terminal k ->
  exists k', In k' (rows (db s')) /\ advances k k'.
Proof.
  intros Hstep Hk Ht.
  assert (Hsame : In k (rows (db s)) -> exists k', In k' (rows (db s)) /\ advances k k').
  { intros _. exists k. split; [exact Hk|apply advances_refl]. }
  assert (Hrank : (rank (status k) <= 1)%nat).
  { unfold terminal in Ht. destruct (status k); simpl; try lia; exfalso; apply Ht; auto. }
  destruct Hstep as [s s' Hc|s w j h env up now Hw|s h now job_type input_data|s now].
  - destruct Hc as [s w Hw|s w Hw|s w j Hw|s w j Hw|s w Hw|s w p Hw Hp]; simpl; auto.
    + unfold select. destruct (select_next_pending _ _); simpl; auto.
    + destruct (Z.eq_dec (id k) (id j)) as [E|E].
      * exists (mark_processing k). split; [apply update_where_id_in; assumption|].
        unfold advances. simpl. repeat split. exact Hrank.
      * exists k. split; [apply update_where_id_other; assumption|apply advances_refl].
  - simpl. rewrite record_outcome_rows.
    destruct (written h (fst (Worker.run_job h env up j))) as [o'|]; [|auto].
    simpl. destruct (Z.eq_dec (id k) (id j)) as [E|E].
    + exists (settle_row o' now k).
      split; [apply update_where_id_in; assumption|apply advances_settle].
    + exists k. split; [apply update_where_id_other; assumption|apply advances_refl].
  - exists k. split; [|apply advances_refl]. simpl.
    destruct (submit_table h now job_type input_data (db s)) as [E|[ty E]];
      rewrite E; [exact Hk|]. simpl. apply in_or_app. left. exact Hk.
  - exists k. split; [|apply advances_refl]. simpl.
    unfold Sweeper.cleanupOldJobs, delete_old_terminal. simpl.
    apply filter_In. split; [exact Hk|].
    unfold old_terminal. unfold terminal in Ht.
    destruct (status k); simpl; try reflexivity; exfalso; apply Ht; auto.
Qed.

End Lifecycle.

(** X17. Rows only move forward, and ids are not given twice. Over any
    run of the queue (claims by any number of workers, completions,
    submissions, sweeps, in any order) from a reachable state, a row
    whose id the sequence had given out at the start is what a row of
    the start has become: it has the type, the input and the creation
    time of that row, and a status that is not further back on the way
    pending, processing, terminal. *)
Theorem rows_only_move_forward (s s' : Queue.state) (k' : Store.job) :
  Queue.reachable s -> rtc Queue.step s s' ->
  In k' (Store.rows (Queue.db s')) ->
  Store.id k' < Store.jobs_id_seq (Queue.db s) ->
  exists k, In k (Store.rows (Queue.db s)) /\ advances k k'.
Proof.
  intros Hs Hrun Hk' Hlt.
  apply (run_lineage s s' (inv_reachable s Hs) Hrun k' Hk' Hlt).
Qed.

Lemma rows_only_move_forward_witness :
  exists k, In k (Store.rows (Queue.db demo_s1)) /\
            advances k (settled_row (fst (Worker.run_job demo_host demo_env demo_up demo_job))
                          9 demo_job).
Proof.
  apply (rows_only_move_forward demo_s1 demo_s6).
  - apply (rtc_once Queue.initial demo_s1).
    apply (Queue.step_submit Queue.initial demo_host 7 (JS.Str "prompt1") demo_input).
  - apply (rtc_l _ _ demo_s2);
      [apply Queue.step_claim, (Queue.claim_begin demo_s1 0); reflexivity|].
    apply (rtc_l _ _ demo_s3);
      [apply Queue.step_claim, (Queue.claim_select demo_s2 0); reflexivity|].
    apply (rtc_l _ _ demo_s4);
      [apply Queue.step_claim, (Queue.claim_update demo_s3 0 demo_job); reflexivity|].
    apply (rtc_l _ _ demo_s5);
      [apply Queue.step_claim, (Queue.claim_commit demo_s4 0 demo_job); reflexivity|].
    apply rtc_once.
    apply (Queue.step_finish demo_s5 0 demo_job demo_host demo_env demo_up 9). reflexivity.
  - vm_compute. left. reflexivity.
  - vm_compute. reflexivity.
Defined.

(** X18. A job that has ended is not written again. Over any run of the
    queue from a reachable state, a row that is completed or failed is
    still in the table exactly as it was (status, result, error and
    completion time included), or no row of the table has its id: the
    sweep is all that happens to it. *)
Theorem ended_job_is_frozen (s s' : Queue.state) (k : Store.job) :
  Queue.reachable s -> rtc Queue.step s s' ->
  In k (Store.rows (Queue.db s)) -> terminal k ->
  In k (Store.rows (Queue.db s')) \/
  forall k2, In k2 (Store.rows (Queue.db s')) -> Store.id k2 <> Store.id k.
Proof.
  intros Hs Hrun Hk Ht.
  pose proof (inv_reachable s Hs) as Hinv.
  pose proof (ok_ids _ (inv_table _ Hinv) k Hk) as Hlt.
  clear Hs. revert Hinv Hk Hlt. induction Hrun as [x|x y z Hxy Hyz IH]; intros Hinv Hk Hlt; [left; exact Hk|].
  pose proof (inv_step x y Hinv Hxy) as Hinv'.
  pose proof (step_seq x y Hxy) as Hseq.
  destruct (step_frozen x y k Hinv Hxy Hk Ht) as [Hin|Habs].
  - apply (IH Hinv' Hin). lia.
  - right. intros k2 Hk2 Hid.
    destruct (run_lineage y z Hinv' Hyz k2 Hk2) as (k1 & Hk1 & (E & _)); [lia|].
    apply (Habs k1 Hk1). congruence.
Qed.

Lemma ended_job_is_frozen_witness :
  In (settled_row (fst (Worker.run_job demo_host demo_env demo_up demo_job)) 9 demo_job)
     (Store.rows (Queue.db (Queue.set_db (snd (Sweeper.cleanupOldJobs 100 (Queue.db demo_s6)))
                              demo_s6))) \/
  forall k2,
    In k2 (Store.rows (Queue.db (Queue.set_db (snd (Sweeper.cleanupOldJobs 100 (Queue.db demo_s6)))
                                   demo_s6))) ->
    Store.id k2
    <> Store.id (settled_row (fst (Worker.run_job demo_host demo_env demo_up demo_job)) 9
                   demo_job).
Proof.
  apply (ended_job_is_frozen demo_s6).
  - apply demo_s6_reachable.
  - apply rtc_once. apply (Queue.step_sweep demo_s6 100).
  - vm_compute. left. reflexivity.
  - vm_compute. left. reflexivity.
Defined.

(** X19. No statement loses a job that has not ended. After any step of
    the queue a row that is pending or processing is still in the table,
    with its id, type, input and creation time, as it was or further in
    its life; the sweep in particular deletes no such row, however old. *)
Theorem unfinished_job_is_kept (s s' : Queue.state) (k : Store.job) :
  Queue.step s s' ->
  In k (Store.rows (Queue.db s)) ->
  Store.status k = Store.pending \/ Store.status k = Store.processing ->
  exists k', In k' (Store.rows (Queue.db s')) /\ advances k k'.
Proof.
  intros Hstep Hk Hst. apply (step_keeps_unfinished s s' k Hstep Hk).
  unfold terminal. intros [Ht|Ht]; destruct Hst as [Hp|Hp]; rewrite Hp in Ht; discriminate Ht.
Qed.

Lemma unfinished_job_is_kept_witness :
  exists k',
    In k' (Store.rows (Queue.db (Queue.set_db
                                   (snd (Sweeper.cleanupOldJobs 99999999999 (Queue.db demo_s5)))
                                   demo_s5))) /\
    advances (Store.mark_processing demo_job) k'.
Proof.
  apply (unfinished_job_is_kept demo_s5).
  - apply (Queue.step_sweep demo_s5 99999999999).
  - vm_compute. left. reflexivity.
  - right. reflexivity.
Defined.

(** ** The timers of the background jobs *)

Section BackgroundFacts.
Import Background.

Lemma timers_ok_created (option : option bool) (env : environment) :
  timers_ok (resolve_enable option env) (created option env).
Proof.
  unfold timers_ok, stopped. simpl. repeat split; try reflexivity. left. repeat split.
Qed.

Lemma timers_ok_start (e : bool) (s : state) :
  timers_ok e s -> timers_ok e (startBackgroundJobs s).
Proof.
  destruct s as [e0 p c [n l] i]. unfold timers_ok, stopped, running. simpl.
  intros (-> & Hn & Hst & Hoff). subst n.
  destruct e.
  - destruct Hst as [(-> & -> & ->)|(_ & (h0 & -> & -> & ->) & (h1 & Hh & Hn))].
    + simpl. refine (conj eq_refl (conj _ (conj _ _))); [lia| |discriminate].
      right. split; [reflexivity|]. split.
      * exists (2 * i)%nat. repeat split.
      * exists (2 * i)%nat. repeat split.
    + simpl. refine (conj eq_refl (conj eq_refl (conj _ _))); [|discriminate].
      right. split; [reflexivity|]. split.
      * exists h0. repeat split.
      * exists h1. split; assumption.
  - destruct (Hoff eq_refl) as ((-> & -> & ->) & ->). simpl.
    refine (conj eq_refl (conj eq_refl (conj _ _))); [left; repeat split|].
    intros _. repeat split.
Qed.

Lemma stop_of_running (e : bool) (handle n i : nat) :
  stopBackgroundJobs
    {| enableJobProcessor := e; jobProcessingInterval := Some handle;
       jobCleanupInterval := Some (S handle);
       clock := {| next_handle := n;
                   live := [(handle, (ProcessNextJob, 5000));
                            (S handle, (CleanupOldJobs, 3600000))] |};
       immediate := i |}
  = {| enableJobProcessor := e; jobProcessingInterval := None; jobCleanupInterval := None;
       clock := {| next_handle := n; live := [] |}; immediate := i |}.
Proof.
  unfold stopBackgroundJobs, clearInterval. cbn -[Nat.eqb].
  rewrite Nat.eqb_refl. cbn -[Nat.eqb].
  assert (Hne : (S handle =? handle)%nat = false) by (apply Nat.eqb_neq; lia).
  rewrite Hne. cbn -[Nat.eqb]. rewrite Nat.eqb_refl. reflexivity.
Qed.

Lemma timers_ok_stop (e : bool) (s : state) :
  timers_ok e s -> timers_ok e (stopBackgroundJobs s) /\ stopped (stopBackgroundJobs s).
Proof.
  destruct s as [e0 p c [n l] i]. unfold timers_ok, stopped, running.
  cbn [enableJobProcessor jobProcessingInterval jobCleanupInterval clock immediate
       next_handle live].
  intros (-> & Hn & Hst & Hoff). subst n.
  destruct Hst as [(-> & -> & ->)|(-> & (h0 & -> & -> & ->) & (h1 & Hh & Hn))].
  - simpl. split; [|repeat split].
    refine (conj eq_refl (conj eq_refl (conj _ _))); [left; repeat split|exact Hoff].
  - rewrite stop_of_running. simpl.
    split; [|repeat split].
    refine (conj eq_refl (conj eq_refl (conj _ _))); [left; repeat split|discriminate].
Qed.

Lemma timers_ok_after (option : option bool) (env : environment) (calls : list call) :
  timers_ok (resolve_enable option env) (after option env calls).
Proof.
  unfold after.
  assert (H0 : timers_ok (resolve_enable option env) (startBackgroundJobs (created option env)))
    by apply timers_ok_start, timers_ok_created.
  revert H0. generalize (startBackgroundJobs (created option env)).
  induction calls as [|c calls IH]; intros s Hs; [exact Hs|].
  simpl. apply IH. destruct c; simpl; [apply timers_ok_start|apply timers_ok_stop]; exact Hs.
Qed.

End BackgroundFacts.

(** X20. The background jobs never run twice. Whatever calls of
    [startBackgroundJobs] and [stopBackgroundJobs] follow the start of
    the server, the timers of the process are none at all, or exactly
    two: the worker every 5000 ms and the sweep every 3600000 ms. Each
    start of the timers has made one tick at once, and with the job
    processor disabled there is never a timer nor a tick. *)
Theorem background_jobs_never_run_twice (option : option bool) (env : environment)
  (calls : list Background.call) :
  (stopped (Background.after option env calls) \/
   (Background.resolve_enable option env = true /\
    running (Background.after option env calls))) /\
  Background.next_handle (Background.clock (Background.after option env calls))
  = (2 * Background.immediate (Background.after option env calls))%nat /\
  (Background.resolve_enable option env = false ->
   stopped (Background.after option env calls) /\
   Background.immediate (Background.after option env calls) = 0%nat).
Proof.
  destruct (timers_ok_after option env calls) as (_ & Hn & Hst & Hoff).
  refine (conj _ (conj Hn Hoff)).
  destruct Hst as [Hst|(He & Hrun & _)]; [left; exact Hst|right; split; assumption].
Qed.

(** X21. Stopping leaves no timer behind, and starting again brings the
    two timers back: after any calls, [stopBackgroundJobs] leaves the
    process without an interval, and [startBackgroundJobs] after it, with
    the job processor enabled, leaves it with the two. *)
Theorem stop_clears_every_timer (option : option bool) (env : environment)
  (calls : list Background.call) :
  stopped (Background.stopBackgroundJobs (Background.after option env calls)) /\
  (Background.resolve_enable option env = true ->
   running (Background.startBackgroundJobs
              (Background.stopBackgroundJobs (Background.after option env calls)))).
Proof.
  pose proof (timers_ok_after option env calls) as Hok.
  destruct (timers_ok_stop _ _ Hok) as [Hok1 Hst]. split; [exact Hst|].
  intros He. destruct Hok1 as (He1 & _). rewrite He in He1.
  destruct Hst as (Hl & Hp & Hc). revert He1 Hl Hp Hc.
  destruct (Background.stopBackgroundJobs (Background.after option env calls))
    as [e0 p c [n l] i].
  simpl. intros -> -> -> ->. exists n. repeat split.
Qed.

(** X22. Starting twice is starting once, and stopping twice is
    stopping once, in every state of the closure: a second start sets no
    second interval and makes no second tick at once. *)
Theorem start_and_stop_are_idempotent (s : Background.state) :
  Background.startBackgroundJobs (Background.startBackgroundJobs s)
  = Background.startBackgroundJobs s /\
  Background.stopBackgroundJobs (Background.stopBackgroundJobs s)
  = Background.stopBackgroundJobs s.
Proof.
  destruct s as [e p c tm i]. split.
  - unfold Background.startBackgroundJobs. simpl.
    destruct e, p as [hp|], c as [hc|]; reflexivity.
  - unfold Background.stopBackgroundJobs. simpl.
    destruct p as [hp|], c as [hc|]; reflexivity.
Qed.

(** ** The page that polls *)

Section ClientFacts.
Import Client.
Variable srv : server.

(** One run of [poll], unrolled. *)
Lemma poll_unfold (n : nat) :
  poll srv n =
  match look (srv n) with
  | Ends s => (s, [Poll])
  | Again =>
      if lt_dec (S n) maxAttempts then
        (fst (poll srv (S n)), [Poll; Wait 3000] ++ snd (poll srv (S n)))
      else (Failed (JS.Str "Job timeout - processing took too long"), [Poll])
  end.
Proof.
  set (next := poll srv (S n)).
  rewrite poll_equation_1. subst next.
  destruct (look (srv n)); simpl; [reflexivity|].
  destruct (lt_dec (S n) maxAttempts); reflexivity.
Qed.

Lemma polls_more (n : nat) : [Poll; Wait 3000] ++ polls (S n) = polls (S (S n)).
Proof. reflexivity. Qed.

(** The polling stops at the first answer that is neither pending nor
    processing. *)
Lemma poll_first_end (d i n : nat) (s : shown) :
  (n = i + d)%nat -> (n < maxAttempts)%nat ->
  (forall m, (i <= m < n)%nat -> look (srv m) = Again) ->
  look (srv n) = Ends s ->
  poll srv i = (s, polls (S d)).
Proof.
  revert i. induction d as [|d IH]; intros i Hd Hn Hbefore Hend.
  - assert (n = i) as -> by lia. rewrite poll_unfold, Hend. reflexivity.
  - rewrite poll_unfold, (Hbefore i) by lia.
    destruct (lt_dec (S i) maxAttempts) as [_|N]; [|lia].
    rewrite (IH (S i)); [reflexivity|lia|exact Hn| |exact Hend].
    intros m Hm. apply Hbefore. lia.
Qed.

(** The polling gives up at the 200th answer that is pending or
    processing. *)
Lemma poll_gives_up (d i : nat) :
  (S (i + d) = maxAttempts)%nat ->
  (forall m, (i <= m < maxAttempts)%nat -> look (srv m) = Again) ->
  poll srv i = (Failed (JS.Str "Job timeout - processing took too long"), polls (S d)).
Proof.
  revert i. induction d as [|d IH]; intros i Hd Hall.
  - rewrite poll_unfold, (Hall i) by lia.
    destruct (lt_dec (S i) maxAttempts) as [L|_]; [lia|reflexivity].
  - rewrite poll_unfold, (Hall i) by lia.
    destruct (lt_dec (S i) maxAttempts) as [_|N]; [|lia].
    rewrite (IH (S i)); [reflexivity|lia|].
    intros m Hm. apply Hall. lia.
Qed.

(** Up to any bound, either every answer is pending or processing, or
    there is a first one that is not. *)
Lemma first_end (k : nat) :
  (forall m, (m < k)%nat -> look (srv m) = Again) \/
  exists n s, (n < k)%nat /\ (forall m, (m < n)%nat -> look (srv m) = Again) /\
              look (srv n) = Ends s.
Proof.
  induction k as [|k IH]; [left; intros m Hm; lia|].
  destruct IH as [Hall|(n & s & Hn & Hbefore & Hend)].
  - destruct (look (srv k)) as [s|] eqn:E.
    + right. exists k, s. split; [lia|]. split; assumption.
    + left. intros m Hm. destruct (Nat.eq_dec m k) as [->|Hne]; [exact E|apply Hall; lia].
  - right. exists n, s. split; [lia|]. split; assumption.
Qed.

End ClientFacts.

Lemma look_at_job (iso : Z -> string) (v : JobStatus.view) :
  Client.look (Client.Body (Client.job_json iso v))
  = match JobStatus.status v with
    | Store.pending | Store.processing => Client.Again
    | Store.completed => Client.Ends (Client.Complete (Client.nullable (JobStatus.result v)))
    | Store.failed =>
        Client.Ends (Client.Failed (JS.or_else (Client.nullable (JobStatus.error v))
                                      (JS.Str "Job processing failed")))
    end.
Proof. destruct v as [i ty st r e c d]. destruct st; reflexivity. Qed.

Lemma look_at_reply (iso : Z -> string) (r : JobStatus.reply) :
  Client.look (Client.answered iso r) <> Client.Ends Client.Analyzing.
Proof.
  destruct r as [v| |]; simpl Client.answered; [|discriminate|discriminate].
  rewrite look_at_job. destruct (JobStatus.status v); discriminate.
Qed.

(** X23. The page polls 200 times at most, 3000 ms apart, and then
    stops: whatever the server answers, what [pollJobStatus] does is a
    poll, or up to 200 polls with a wait of 3000 ms between two. *)
Theorem page_polls_200_times_at_most (srv : Client.server) :
  exists n, (1 <= n <= 200)%nat /\ snd (Client.pollJobStatus srv) = polls n.
Proof.
  unfold Client.pollJobStatus.
  destruct (first_end srv 200) as [Hall|(n & s & Hn & Hbefore & Hend)].
  - exists 200%nat. split; [lia|].
    rewrite (poll_gives_up srv 199 0); [reflexivity|reflexivity|].
    intros m Hm. apply Hall. unfold Client.maxAttempts in Hm. lia.
  - exists (S n). split; [lia|].
    rewrite (poll_first_end srv n 0 n s); [reflexivity|reflexivity|exact Hn| |exact Hend].
    intros m Hm. apply Hbefore. lia.
Qed.

(** X24. The first answer that is neither pending nor processing
    decides what the page shows: when it is the answer to poll number
    [n + 1] and [n] is below 200, the page ends on what that answer says
    after [n + 1] polls, and later answers are not asked for. *)
Theorem first_settled_answer_decides (srv : Client.server) (n : nat) (s : Client.shown) :
  (n < 200)%nat ->
  (forall m, (m < n)%nat -> Client.look (srv m) = Client.Again) ->
  Client.look (srv n) = Client.Ends s ->
  Client.pollJobStatus srv = (s, polls (S n)).
Proof.
  intros Hn Hbefore Hend. unfold Client.pollJobStatus.
  apply (poll_first_end srv n 0 n s); [reflexivity|exact Hn| |exact Hend].
  intros m Hm. apply Hbefore. lia.
Qed.

Lemma first_settled_answer_decides_witness :
  Client.pollJobStatus settling = (Client.Complete (JS.Str "plan"), polls 2).
Proof.
  apply (first_settled_answer_decides settling 1).
  - lia.
  - intros m Hm. assert (m = 0%nat) as -> by lia. reflexivity.
  - reflexivity.
Defined.

(** X25. A job that is still pending or processing at the 200th poll is
    given up: the page ends in error with the timeout message, about ten
    minutes (199 waits of 3000 ms) after the first poll, although the
    server puts no limit on the time a job takes. *)
Theorem page_gives_up_after_200_polls (srv : Client.server) :
  (forall m, (m < 200)%nat -> Client.look (srv m) = Client.Again) ->
  Client.pollJobStatus srv
  = (Client.Failed (JS.Str "Job timeout - processing took too long"), polls 200).
Proof.
  intros Hall. unfold Client.pollJobStatus.
  apply (poll_gives_up srv 199 0); [reflexivity|].
  intros m Hm. apply Hall. unfold Client.maxAttempts in Hm. lia.
Qed.

Lemma page_gives_up_after_200_polls_witness :
  Client.pollJobStatus always_pending
  = (Client.Failed (JS.Str "Job timeout - processing took too long"), polls 200).
Proof. apply (page_gives_up_after_200_polls always_pending). intros m Hm. reflexivity. Defined.

(** X26. Against this server the page always comes to an end. When
    every answer is what GET /api/jobs/:id answers on some table, the
    page never stays on 'analyzing': it ends complete or in error. *)
Theorem page_always_ends (iso : Z -> string) (int4in : string -> option Z)
  (idtext : string) (tables : nat -> Store.table) :
  (exists framework,
     fst (Client.pollJobStatus
            (fun n => Client.answered iso (JobStatus.get_job int4in idtext (tables n))))
     = Client.Complete framework) \/
  (exists logged,
     fst (Client.pollJobStatus
            (fun n => Client.answered iso (JobStatus.get_job int4in idtext (tables n))))
     = Client.Failed logged).
Proof.
  set (srv := fun n => Client.answered iso (JobStatus.get_job int4in idtext (tables n))).
  unfold Client.pollJobStatus.
  destruct (first_end srv 200) as [Hall|(n & s & Hn & Hbefore & Hend)].
  - rewrite (poll_gives_up srv 199 0); [right; eexists; reflexivity|reflexivity|].
    intros m Hm. apply Hall. unfold Client.maxAttempts in Hm. lia.
  - rewrite (poll_first_end srv n 0 n s); [|reflexivity|exact Hn| |exact Hend].
    + simpl. destruct s as [framework|logged|].
      * left. eexists. reflexivity.
      * right. eexists. reflexivity.
      * exfalso. apply (look_at_reply iso _ Hend).
    + intros m Hm. apply Hbefore. lia.
Qed.

(** ** From the submission to the page *)

(** X27. From the submission to the page. On a table with no pending
    job, a job is submitted and met by one tick of the worker, and the
    page then polls. When the database takes the text of the run's
    outcome, the page ends at its first poll: complete with the result of
    the run, or in error with the error of the run (with 'Job processing
    failed' when that error is the empty text). When the run failed and
    the database refuses its message, the job stays processing and the
    page gives up after 200 polls. *)
Theorem page_shows_the_run (h : host) (env : environment) (up : Upstream.endpoint)
  (iso : Z -> string) (int4in : string -> option Z) (now now2 : Z) (jt input : JS.value)
  (t t1 : Store.table) (i : Z) (st : Store.job_status) (ts : Z) (idtext : string) :
  (forall k, In k (Store.rows t) -> Store.id k < Store.jobs_id_seq t) ->
  (forall k, In k (Store.rows t) -> Store.status k <> Store.pending) ->
  Api.submit h now jt input t = (Api.Created i st ts, t1) ->
  int4in idtext = Some i ->
  exists ty,
    Api.includes Api.job_types jt = Some ty /\
    (text_in h (outcome_text (fst (Worker.run_job h env up (Store.new_job i now ty input))))
     = None ->
     Client.pollJobStatus
       (fun _ => Client.answered iso
                   (JobStatus.get_job int4in idtext
                      (fst (Worker.processNextJob h env up now2 t1))))
     = (match fst (Worker.run_job h env up (Store.new_job i now ty input)) with
        | Worker.Completed r => Client.Complete (JS.Str r)
        | Worker.Failed msg =>
            Client.Failed (JS.or_else (JS.Str msg) (JS.Str "Job processing failed"))
        end, [Client.Poll])) /\
    (forall msg e,
       fst (Worker.run_job h env up (Store.new_job i now ty input)) = Worker.Failed msg ->
       text_in h msg = Some e ->
       Client.pollJobStatus
         (fun _ => Client.answered iso
                     (JobStatus.get_job int4in idtext
                        (fst (Worker.processNextJob h env up now2 t1))))
       = (Client.Failed (JS.Str "Job timeout - processing took too long"), polls 200)).
Proof.
  intros Hids Hnp Hs Hi.
  destruct (read_back_row h env up int4in now now2 jt input t t1 i st ts idtext Hids Hnp Hs Hi)
    as (ty & Hty & Hget).
  exists ty. split; [exact Hty|]. unfold Client.pollJobStatus. rewrite Hget. split.
  - intros Hok. rewrite (left_row_accepted h _ now2 _ Hok).
    apply (poll_first_end _ 0 0 0); [reflexivity|unfold Client.maxAttempts; lia| |].
    + intros m Hm. lia.
    + simpl Client.answered. rewrite look_at_job.
      destruct (fst (Worker.run_job h env up (Store.new_job i now ty input))); reflexivity.
  - intros msg e Ho Hrefused.
    apply (poll_gives_up _ 199 0); [reflexivity|].
    intros m _. simpl Client.answered. rewrite look_at_job.
    unfold left_row, written. rewrite Ho. simpl. rewrite Hrefused. reflexivity.
Qed.

Lemma page_shows_the_run_witness :
  exists ty,
    Api.includes Api.job_types (JS.Str "prompt1") = Some ty /\
    (text_in demo_host
       (outcome_text (fst (Worker.run_job demo_host demo_env demo_up
                             (Store.new_job 1 7 ty demo_input)))) = None ->
     Client.pollJobStatus
       (fun _ => Client.answered (fun _ => "2025-11-28"%string)
                   (JobStatus.get_job demo_int4in "1"
                      (fst (Worker.processNextJob demo_host demo_env demo_up 9
                              (Queue.db demo_s1)))))
     = (match fst (Worker.run_job demo_host demo_env demo_up
                     (Store.new_job 1 7 ty demo_input)) with
        | Worker.Completed r => Client.Complete (JS.Str r)
        | Worker.Failed msg =>
            Client.Failed (JS.or_else (JS.Str msg) (JS.Str "Job processing failed"))
        end, [Client.Poll])) /\
    (forall msg e,
       fst (Worker.run_job demo_host demo_env demo_up (Store.new_job 1 7 ty demo_input))
       = Worker.Failed msg ->
       text_in demo_host msg = Some e ->
       Client.pollJobStatus
         (fun _ => Client.answered (fun _ => "2025-11-28"%string)
                     (JobStatus.get_job demo_int4in "1"
                        (fst (Worker.processNextJob demo_host demo_env demo_up 9
                                (Queue.db demo_s1)))))
       = (Client.Failed (JS.Str "Job timeout - processing took too long"), polls 200)).
Proof.
  apply (page_shows_the_run demo_host demo_env demo_up (fun _ => "2025-11-28"%string)
           demo_int4in 7 9 (JS.Str "prompt1") demo_input Store.initial (Queue.db demo_s1)
           1 Store.pending 7 "1").
  - intros k [].
  - intros k [].
  - reflexivity.
  - reflexivity.
Defined.

(** ** What the proxy and the worker send *)

(** X28. For the same step, messages and budget, the proxy and the
    worker send the same request to the upstream, but for the abort
    signal: the calls carry the same authorization, model, messages,
    token budget and temperature, the proxy's with the signal and the
    worker's without. *)
Theorem proxy_and_worker_send_the_same_request (h : host) (env : environment)
  (up1 up2 : Upstream.endpoint) (job : Store.job) (msgs budget : JS.value)
  (c1 c2 : Upstream.call) :
  JS.get (Store.input_data job) (JS.KName "messages") = inr msgs ->
  JS.get (Store.input_data job) (JS.KName "max_tokens") = inr budget ->
  In (Upstream.Fetch c1)
     (snd (Proxy.handle h env up1 (JS.Str (Store.job_type job)) msgs budget)) ->
  In (Upstream.Fetch c2) (snd (Worker.run_job h env up2 job)) ->
  Upstream.authorization c1 = Upstream.authorization c2 /\
  Upstream.body c1 = Upstream.body c2 /\
  Upstream.signal c1 = true /\ Upstream.signal c2 = false.
Proof.
  intros Hm Hb H1 H2. apply run_job_fetches in H2. revert H1 H2.
  unfold Proxy.handle, Worker.build_request. rewrite Hm, Hb.
  destruct (negb (JS.truthy (JS.Str (Store.job_type job)))); [intros []|].
  destruct (Settings.getOpenRouterApiKey env) as [key|]; [|intros []].
  simpl snd. intros H1 H2. apply (proxy_retry_fetches _ _ _ 3) in H1; [|simpl; lia].
  simpl in H2. injection H2 as <-. rewrite H1. simpl. repeat split.
Qed.

Lemma proxy_and_worker_send_the_same_request_witness :
  Upstream.authorization
    {| Upstream.authorization := Upstream.authorization demo_call;
       Upstream.body := Upstream.body demo_call; Upstream.signal := true |}
  = Upstream.authorization demo_call /\
  Upstream.body
    {| Upstream.authorization := Upstream.authorization demo_call;
       Upstream.body := Upstream.body demo_call; Upstream.signal := true |}
  = Upstream.body demo_call /\
  Upstream.signal
    {| Upstream.authorization := Upstream.authorization demo_call;
       Upstream.body := Upstream.body demo_call; Upstream.signal := true |} = true /\
  Upstream.signal demo_call = false.
Proof.
  apply (proxy_and_worker_send_the_same_request demo_host demo_env demo_up demo_up demo_job
           (JS.Arr [JS.Obj [("role", JS.Str "user"); ("content", JS.Str "hello")]])
           JS.Undefined).
  - reflexivity.
  - reflexivity.
  - vm_compute. right. left. reflexivity.
  - vm_compute. left. reflexivity.
Defined.

(** ** What the page submits *)


(** ** The form of the first step *)

Section FormFacts.
Import JS.

Lemma trimStart_empty (s : string) :
  trimStart s = EmptyString <-> has_text s = false.
Proof.
  unfold has_text. induction s as [|c s IH]; simpl; [tauto|].
  destruct (is_space c) eqn:E; simpl; [exact IH|]. split; discriminate.
Qed.

Lemma trimEnd_empty_head (c : ascii) (s : string) :
  is_space c = false -> trimEnd (String c s) <> EmptyString.
Proof. intros H. destruct (trimEnd_head c s H) as [t ->]. discriminate. Qed.

Lemma trim_empty (s : string) : trim s = EmptyString <-> has_text s = false.
Proof.
  rewrite <- trimStart_empty. unfold trim.
  pose proof (trimStart_head s) as Hh.
  destruct (trimStart s) as [|c u]; [simpl; tauto|].
  split; [|discriminate]. intros H. exfalso. exact (trimEnd_empty_head c u Hh H).
Qed.

Lemma blank_iff (s : string) : Form.blank s = negb (has_text s).
Proof.
  unfold Form.blank. simpl. rewrite negb_involutive.
  destruct (has_text s) eqn:E.
  - apply String.eqb_neq. intros H. apply trim_empty in H. congruence.
  - apply String.eqb_eq. apply trim_empty. exact E.
Qed.

End FormFacts.

(** X30. The form is accepted exactly when each of its three fields
    holds a character that is not white space; and the errors it shows
    name exactly the fields that do not, each once, in the order
    organization, program, description. *)
Theorem form_requires_three_fields (organizationName programName aboutProgram : string) :
  snd (Form.validateForm organizationName programName aboutProgram)
  = (has_text organizationName && has_text programName && has_text aboutProgram)%bool /\
  List.map fst (fst (Form.validateForm organizationName programName aboutProgram))
  = List.map fst
      (List.filter (fun e => negb (has_text (snd e)))
         [("organizationName", organizationName); ("programName", programName);
          ("aboutProgram", aboutProgram)]%string).
Proof.
  unfold Form.validateForm. rewrite !blank_iff. simpl.
  destruct (has_text organizationName), (has_text programName), (has_text aboutProgram);
    split; reflexivity.
Qed.
